(** * Adjoint mean-flow solver of SU2 (SU2_CFD/src/solution_adjoint_mean.cpp)

    A shallow embedding of the parts of [CAdjEulerSolution] that the
    specification talks about: residual assembly over edges, the time
    integration drivers, the boundary handlers for inlets, outlets, far field
    and the acoustic coupling surface, the restart reader of the constructor
    and the sensitivity smoothing.

    Conventions of the embedding.
    - A C++ [double] is idealised as a real number ([R]); [sqrt], [fabs],
      [cos], [sin] are the functions of the real numbers, [max] and [min] are
      written out as [std::max] and [std::min] compute them.
    - A [double*] is a [list R], read with [l !!! i] and written with
      [<[i:=x]> l]; geometry guarantees that indices are in range, and the
      theorems that need it say so.
    - A [for] loop is [for_loop lo hi body s]; it returns the value of the
      counter at exit together with the final state.
    - Collaborators whose code lives in other files (the numerics kernels,
      the linear solvers, the stream scanner) are section variables. *)

From Stdlib Require Import String.
From Stdlib Require Import Reals Lra Lia List ZArith.
From stdpp Require Import base option list.
Import ListNotations.

#[global] Instance R_inhabited : Inhabited R := populate 0%R.

(** ** Loops and arrays *)

Fixpoint for_count {S : Type} (n i : nat) (body : nat -> S -> S) (s : S) : nat * S :=
  match n with
  | O => (i, s)
  | Datatypes.S n' => for_count n' (Datatypes.S i) body (body i s)
  end.

(** [for (i = lo; i < hi; i++) body]: the counter at exit and the state. *)
Definition for_loop {S : Type} (lo hi : nat) (body : nat -> S -> S) (s : S) : nat * S :=
  for_count (hi - lo) lo body s.

(** [for (k = 0; k < n; k++) x[k] = g(k, x[k])] *)
Definition vec_set_all (n : nat) (g : nat -> R -> R) (x : list R) : list R :=
  snd (for_loop 0 n (fun k x => <[k := g k (x !!! k)]> x) x).

(** [std::max(a,b)] and [std::min(a,b)] as the C++ library defines them. *)
Definition max_d (a b : R) : R := if Rlt_dec a b then b else a.
Definition min_d (a b : R) : R := if Rlt_dec b a then b else a.

(** ** Enumerations of the configuration

    The enumerations are declared in option_structure.hpp, which is not part
    of the sources at hand; each type lists the constants that
    solution_adjoint_mean.cpp compares against, and a catch-all constructor
    where the code only asks whether the value is a given constant. *)

Inductive ENUM_TIME_INT := RUNGE_KUTTA_EXPLICIT | EULER_EXPLICIT | EULER_IMPLICIT.
Inductive ENUM_ADJOINT := CONTINUOUS | DISCRETE | HYBRID.
Inductive ENUM_UPWIND := ROE_1ST | ROE_2ND | SW_1ST | SW_2ND | OTHER_UPWIND.
Inductive ENUM_CENTERED := JST | LAX | OTHER_CENTERED.
Inductive ENUM_SPACE := SPACE_CENTERED | SPACE_UPWIND.
Inductive ENUM_LIMITER := NONE | VENKATAKRISHNAN.
Inductive ENUM_GRADIENT := GREEN_GAUSS | WEIGHTED_LEAST_SQUARES.
Inductive ENUM_INLET := TOTAL_CONDITIONS | MASS_FLOW.
Inductive ENUM_SOLVER :=
  | FREE_SURFACE_EULER | ADJ_FREE_SURFACE_EULER
  | FREE_SURFACE_NAVIER_STOKES | ADJ_FREE_SURFACE_NAVIER_STOKES
  | FREE_SURFACE_RANS | ADJ_FREE_SURFACE_RANS
  | OTHER_SOLVER.
Inductive ENUM_BOUNDARY := EULER_WALL | SEND_RECEIVE | OTHER_BOUNDARY.

(** Modelled from the spec: ENUM_LINEAR_SOLVER and the preconditioner kinds
    are declared in option_structure.hpp (absent); the specification names
    four linear-solve strategies and three preconditioners. *)
Inductive ENUM_LINEAR_SOLVER := SYM_GAUSS_SEIDEL | LU_SGS | BCGSTAB | GMRES.
Inductive ENUM_LINEAR_SOLVER_PREC := JACOBI | LINELET | NO_PREC.

(** Modelled from the spec: ENUM_OBJECTIVE is declared in
    option_structure.hpp (absent); these are the eighteen objective kinds of
    the specification, in the order of the constructor's [switch]. *)
Inductive ENUM_OBJECTIVE :=
  | DRAG_COEFFICIENT | LIFT_COEFFICIENT | SIDEFORCE_COEFFICIENT
  | PRESSURE_COEFFICIENT | MOMENT_X_COEFFICIENT | MOMENT_Y_COEFFICIENT
  | MOMENT_Z_COEFFICIENT | EFFICIENCY | EQUIVALENT_AREA | NEARFIELD_PRESSURE
  | FORCE_X_COEFFICIENT | FORCE_Y_COEFFICIENT | FORCE_Z_COEFFICIENT
  | THRUST_COEFFICIENT | TORQUE_COEFFICIENT | FIGURE_OF_MERIT | FREESURFACE
  | NOISE.

Definition is_EULER_IMPLICIT (k : ENUM_TIME_INT) : bool :=
  match k with EULER_IMPLICIT => true | _ => false end.
Definition is_DISCRETE (k : ENUM_ADJOINT) : bool :=
  match k with DISCRETE => true | _ => false end.
Definition is_ROE_2ND (k : ENUM_UPWIND) : bool :=
  match k with ROE_2ND => true | _ => false end.
Definition is_SW_2ND (k : ENUM_UPWIND) : bool :=
  match k with SW_2ND => true | _ => false end.
Definition is_JST (k : ENUM_CENTERED) : bool :=
  match k with JST => true | _ => false end.
Definition is_SPACE_CENTERED (k : ENUM_SPACE) : bool :=
  match k with SPACE_CENTERED => true | _ => false end.
Definition is_NONE (k : ENUM_LIMITER) : bool :=
  match k with NONE => true | _ => false end.
Definition is_GREEN_GAUSS (k : ENUM_GRADIENT) : bool :=
  match k with GREEN_GAUSS => true | _ => false end.
Definition is_WEIGHTED_LEAST_SQUARES (k : ENUM_GRADIENT) : bool :=
  match k with WEIGHTED_LEAST_SQUARES => true | _ => false end.
Definition is_EULER_WALL (k : ENUM_BOUNDARY) : bool :=
  match k with EULER_WALL => true | _ => false end.
Definition is_SEND_RECEIVE (k : ENUM_BOUNDARY) : bool :=
  match k with SEND_RECEIVE => true | _ => false end.
Definition linear_solver_eqb (a b : ENUM_LINEAR_SOLVER) : bool :=
  match a, b with
  | SYM_GAUSS_SEIDEL, SYM_GAUSS_SEIDEL | LU_SGS, LU_SGS
  | BCGSTAB, BCGSTAB | GMRES, GMRES => true
  | _, _ => false
  end.
Definition prec_eqb (a b : ENUM_LINEAR_SOLVER_PREC) : bool :=
  match a, b with
  | JACOBI, JACOBI | LINELET, LINELET | NO_PREC, NO_PREC => true
  | _, _ => false
  end.

(** The [levelset] flag that BC_Inlet and BC_Outlet compute. *)
Definition is_levelset (k : ENUM_SOLVER) : bool :=
  match k with OTHER_SOLVER => false | _ => true end.

(** ** Collaborators: configuration, geometry, primal flow *)

Record CConfig := {
  Kind_TimeIntScheme_AdjFlow : ENUM_TIME_INT;
  Kind_TimeIntScheme_Flow : ENUM_TIME_INT;
  Kind_Adjoint : ENUM_ADJOINT;
  Kind_Upwind : ENUM_UPWIND;
  Kind_Centered : ENUM_CENTERED;
  Kind_ConvNumScheme : ENUM_SPACE;
  Kind_SlopeLimit : ENUM_LIMITER;
  Kind_Gradient_Method : ENUM_GRADIENT;
  Kind_Inlet : ENUM_INLET;
  Kind_Solver : ENUM_SOLVER;
  Kind_ObjFunc : ENUM_OBJECTIVE;
  Kind_Linear_Solver : ENUM_LINEAR_SOLVER;
  Kind_Linear_Solver_Prec : ENUM_LINEAR_SOLVER_PREC;
  Linear_Solver_Error : R;
  Linear_Solver_Iter : nat;
  Restart : bool;
  Incompressible : bool;
  Rotating_Frame : bool;
  Grid_Movement : bool;
  Alpha_RKStep : nat -> R;
  Beta_RKStep : nat -> R;
  Solution_AdjFileName : string;
  Marker_All_Boundary : list ENUM_BOUNDARY;
  Marker_All_SendRecv : list Z;
  PeriodicRotation : nat -> list R;
  Gas_Constant : R;
  Gas_Constant_Ref : R;
  Pressure_Ref : R;
  Temperature_Ref : R;
  Density_Ref : R;
  Velocity_Ref : R;
  Density_FreeStreamND : R;
  FreeSurface_Zero : R;
  FreeSurface_Thickness : R;
  Froude : R;
  Inlet_Ptotal : R;
  Inlet_Ttotal : R;
  Inlet_FlowDir : list R;
  Outlet_Pressure : R
}.

Definition nMarker_All (config : CConfig) : nat :=
  length (Marker_All_Boundary config).

Record CPoint := {
  Coord : list R;
  Volume : R;
  Domain : bool;
  nNeighbor : nat;
  GlobalIndex : nat;
  RotVel : list R;
  GridVel : list R
}.

Record CEdge := {
  edge_Node0 : nat;
  edge_Node1 : nat;
  edge_Normal : list R;
  edge_RotFlux : R
}.

Record CVertex := {
  vertex_Node : nat;
  vertex_Normal : list R;
  Normal_Neighbor : nat;
  vertex_RotFlux : R;
  Rotation_Type : nat
}.

Record CGeometry := {
  geo_nDim : nat;
  geo_node : list CPoint;
  nPointDomain : nat;
  Global_nPointDomain : nat;
  geo_edge : list CEdge;
  geo_vertex : list (list CVertex);
  FinestMGLevel : bool
}.

Definition nPoint (geometry : CGeometry) : nat := length (geo_node geometry).
Definition nEdge (geometry : CGeometry) : nat := length (geo_edge geometry).
Definition nVertex (geometry : CGeometry) (iMarker : nat) : nat :=
  length (geo_vertex geometry !!! iMarker).

#[global] Instance CPoint_inhabited : Inhabited CPoint :=
  populate {| Coord := []; Volume := 0; Domain := false; nNeighbor := 0;
              GlobalIndex := 0; RotVel := []; GridVel := [] |}.
#[global] Instance CEdge_inhabited : Inhabited CEdge :=
  populate {| edge_Node0 := 0; edge_Node1 := 0; edge_Normal := [];
              edge_RotFlux := 0 |}.
#[global] Instance CVertex_inhabited : Inhabited CVertex :=
  populate {| vertex_Node := 0; vertex_Normal := []; Normal_Neighbor := 0;
              vertex_RotFlux := 0; Rotation_Type := 0 |}.

(** The node of the primal flow solution, [solution_container[FLOW_SOL]->node]. *)
Record CFlowVariable := {
  flow_Solution : list R;
  DensityInc : R;
  BetaInc2 : R;
  SoundSpeed : R;
  Enthalpy : R;
  Lambda : R;
  flow_Sensor : R;
  Delta_Time : R;
  flow_Velocity : list R;
  flow_Pressure : R
}.

Record CFlowSolution := {
  flow_node : list CFlowVariable;
  Density_Inf : R;
  Pressure_Inf : R;
  Velocity_Inf : list R;
  Density_Velocity_Inf : list R;
  Density_Energy_Inf : R
}.

#[global] Instance CFlowVariable_inhabited : Inhabited CFlowVariable :=
  populate {| flow_Solution := []; DensityInc := 0; BetaInc2 := 0;
              SoundSpeed := 0; Enthalpy := 0; Lambda := 0; flow_Sensor := 0;
              Delta_Time := 0; flow_Velocity := []; flow_Pressure := 0 |}.

(** ** The adjoint variable store

    The class [CVariable] is declared in variable_structure.hpp, which is
    not part of the sources at hand; the fields and accessors below are the
    ones solution_adjoint_mean.cpp calls, with the meaning their names and
    the data model of the specification give them (every accessor that takes
    a [double*] loops over the [nVar] components). *)

Record CVariable := {
  Solution : list R;
  Solution_Old : list R;
  Residual : list R;
  Res_Conv : list R;
  Res_Visc : list R;
  Res_Sour : list R;
  Res_TruncError : list R;
  ObjFuncSource : list R;
  IntBoundary_Jump : list R;
  Gradient : list (list R);
  Limiter : list R;
  Und_Lapl : list R;
  Sensor : R
}.

#[global] Instance CVariable_inhabited : Inhabited CVariable :=
  populate {| Solution := []; Solution_Old := []; Residual := [];
              Res_Conv := []; Res_Visc := []; Res_Sour := [];
              Res_TruncError := []; ObjFuncSource := [];
              IntBoundary_Jump := []; Gradient := []; Limiter := [];
              Und_Lapl := []; Sensor := 0 |}.

Definition with_Solution (x : list R) (v : CVariable) : CVariable :=
  {| Solution := x; Solution_Old := Solution_Old v; Residual := Residual v;
     Res_Conv := Res_Conv v; Res_Visc := Res_Visc v; Res_Sour := Res_Sour v;
     Res_TruncError := Res_TruncError v; ObjFuncSource := ObjFuncSource v;
     IntBoundary_Jump := IntBoundary_Jump v; Gradient := Gradient v;
     Limiter := Limiter v; Und_Lapl := Und_Lapl v; Sensor := Sensor v |}.
Definition with_Solution_Old (x : list R) (v : CVariable) : CVariable :=
  {| Solution := Solution v; Solution_Old := x; Residual := Residual v;
     Res_Conv := Res_Conv v; Res_Visc := Res_Visc v; Res_Sour := Res_Sour v;
     Res_TruncError := Res_TruncError v; ObjFuncSource := ObjFuncSource v;
     IntBoundary_Jump := IntBoundary_Jump v; Gradient := Gradient v;
     Limiter := Limiter v; Und_Lapl := Und_Lapl v; Sensor := Sensor v |}.
Definition with_Res_Conv (x : list R) (v : CVariable) : CVariable :=
  {| Solution := Solution v; Solution_Old := Solution_Old v;
     Residual := Residual v;
     Res_Conv := x; Res_Visc := Res_Visc v; Res_Sour := Res_Sour v;
     Res_TruncError := Res_TruncError v; ObjFuncSource := ObjFuncSource v;
     IntBoundary_Jump := IntBoundary_Jump v; Gradient := Gradient v;
     Limiter := Limiter v; Und_Lapl := Und_Lapl v; Sensor := Sensor v |}.
Definition with_Res_Visc (x : list R) (v : CVariable) : CVariable :=
  {| Solution := Solution v; Solution_Old := Solution_Old v;
     Residual := Residual v;
     Res_Conv := Res_Conv v; Res_Visc := x; Res_Sour := Res_Sour v;
     Res_TruncError := Res_TruncError v; ObjFuncSource := ObjFuncSource v;
     IntBoundary_Jump := IntBoundary_Jump v; Gradient := Gradient v;
     Limiter := Limiter v; Und_Lapl := Und_Lapl v; Sensor := Sensor v |}.
Definition with_Res_Sour (x : list R) (v : CVariable) : CVariable :=
  {| Solution := Solution v; Solution_Old := Solution_Old v;
     Residual := Residual v;
     Res_Conv := Res_Conv v; Res_Visc := Res_Visc v; Res_Sour := x;
     Res_TruncError := Res_TruncError v; ObjFuncSource := ObjFuncSource v;
     IntBoundary_Jump := IntBoundary_Jump v; Gradient := Gradient v;
     Limiter := Limiter v; Und_Lapl := Und_Lapl v; Sensor := Sensor v |}.
Definition with_Res_TruncError (x : list R) (v : CVariable) : CVariable :=
  {| Solution := Solution v; Solution_Old := Solution_Old v;
     Residual := Residual v;
     Res_Conv := Res_Conv v; Res_Visc := Res_Visc v; Res_Sour := Res_Sour v;
     Res_TruncError := x; ObjFuncSource := ObjFuncSource v;
     IntBoundary_Jump := IntBoundary_Jump v; Gradient := Gradient v;
     Limiter := Limiter v; Und_Lapl := Und_Lapl v; Sensor := Sensor v |}.

(** [AddSolution(iVar, val)]: [Solution[iVar] += val]. *)
Definition AddSolution (iVar : nat) (val : R) (v : CVariable) : CVariable :=
  with_Solution (<[iVar := (Solution v !!! iVar + val)%R]> (Solution v)) v.
(** [SetSolution(iVar, val)]: [Solution[iVar] = val]. *)
Definition SetSolution (iVar : nat) (val : R) (v : CVariable) : CVariable :=
  with_Solution (<[iVar := val]> (Solution v)) v.
(** [SetSolution(double *val)] and [SetSolution_Old(double *val)]. *)
Definition SetSolution_vec (nVar : nat) (val : list R) (v : CVariable) : CVariable :=
  with_Solution (vec_set_all nVar (fun k _ => val !!! k) (Solution v)) v.
Definition SetSolution_Old (nVar : nat) (val : list R) (v : CVariable) : CVariable :=
  with_Solution_Old (vec_set_all nVar (fun k _ => val !!! k) (Solution_Old v)) v.
(** [Set_ResConv_Zero()] and its siblings. *)
Definition Set_ResConv_Zero (nVar : nat) (v : CVariable) : CVariable :=
  with_Res_Conv (vec_set_all nVar (fun _ _ => 0%R) (Res_Conv v)) v.
Definition Set_ResVisc_Zero (nVar : nat) (v : CVariable) : CVariable :=
  with_Res_Visc (vec_set_all nVar (fun _ _ => 0%R) (Res_Visc v)) v.
Definition Set_ResSour_Zero (nVar : nat) (v : CVariable) : CVariable :=
  with_Res_Sour (vec_set_all nVar (fun _ _ => 0%R) (Res_Sour v)) v.
Definition SetRes_TruncErrorZero (nVar : nat) (v : CVariable) : CVariable :=
  with_Res_TruncError (vec_set_all nVar (fun _ _ => 0%R) (Res_TruncError v)) v.
(** [SubtractRes_Conv(val)]: [Res_Conv[iVar] -= val[iVar]]; likewise for the
    viscous accumulator. *)
Definition SubtractRes_Conv (nVar : nat) (val : list R) (v : CVariable) : CVariable :=
  with_Res_Conv (vec_set_all nVar (fun k x => (x - val !!! k)%R) (Res_Conv v)) v.
Definition SubtractRes_Visc (nVar : nat) (val : list R) (v : CVariable) : CVariable :=
  with_Res_Visc (vec_set_all nVar (fun k x => (x - val !!! k)%R) (Res_Visc v)) v.

(** The four residual accumulators of a node. *)
Definition accumulators (v : CVariable) : list R * list R * list R * list R :=
  (Res_Conv v, Res_Visc v, Res_Sour v, Res_TruncError v).

(** ** The sparse block matrix

    Modelled from the spec: [CSparseMatrix] is defined in
    sparse_structure.cpp (absent). The specification describes one
    [nVar] x [nVar] block per pair of nodes, with block add, block subtract,
    zeroing and diagonal augmentation; [DeleteValsRowi] is described where
    BC_FWH calls it: the row is changed and a 1 is put on the diagonal.
    [mat_val M i j a b] is entry [(a, b)] of the block of nodes [(i, j)]. *)

Definition Block := list (list R).

Definition block_get (B : Block) (a b : nat) : R := (B !!! a) !!! b.

Record CSparseMatrix := {
  mat_nVar : nat;
  mat_val : nat -> nat -> nat -> nat -> R
}.

Definition in_block (M : CSparseMatrix) (i j i' j' a b : nat) : bool :=
  (i' =? i) && (j' =? j) && (a <? mat_nVar M) && (b <? mat_nVar M).

Definition AddBlock (i j : nat) (B : Block) (M : CSparseMatrix) : CSparseMatrix :=
  {| mat_nVar := mat_nVar M;
     mat_val := fun i' j' a b =>
       if in_block M i j i' j' a b
       then (mat_val M i' j' a b + block_get B a b)%R
       else mat_val M i' j' a b |}.

Definition SubtractBlock (i j : nat) (B : Block) (M : CSparseMatrix) : CSparseMatrix :=
  {| mat_nVar := mat_nVar M;
     mat_val := fun i' j' a b =>
       if in_block M i j i' j' a b
       then (mat_val M i' j' a b - block_get B a b)%R
       else mat_val M i' j' a b |}.

Definition AddVal2Diag (iPoint : nat) (val : R) (M : CSparseMatrix) : CSparseMatrix :=
  {| mat_nVar := mat_nVar M;
     mat_val := fun i' j' a b =>
       if in_block M iPoint iPoint i' j' a b && (a =? b)
       then (mat_val M i' j' a b + val)%R
       else mat_val M i' j' a b |}.

Definition SetValZero (M : CSparseMatrix) : CSparseMatrix :=
  {| mat_nVar := mat_nVar M; mat_val := fun _ _ _ _ => 0%R |}.

(** [DeleteValsRowi(i)]: scalar row [i] belongs to node [i / nVar],
    component [i mod nVar]. *)
Definition DeleteValsRowi (total_index : nat) (M : CSparseMatrix) : CSparseMatrix :=
  {| mat_nVar := mat_nVar M;
     mat_val := fun i' j' a b =>
       if (i' =? total_index / mat_nVar M) && (a =? total_index mod mat_nVar M)
       then (if (j' =? i') && (b =? a) then 1%R else 0%R)
       else mat_val M i' j' a b |}.

(** ** The solver object *)

Record CAdjEulerSolution := {
  nDim : nat;
  nVar : nat;
  Gamma : R;
  Gamma_Minus_One : R;
  node : list CVariable;
  Jacobian : CSparseMatrix;
  rhs : list R;
  xsol : list R;
  Residual_RMS : list R;
  Residual_Max : list R;
  Point_Max : list nat;
  CSensitivity : list (list R)
}.

Definition with_node (x : list CVariable) (s : CAdjEulerSolution) : CAdjEulerSolution :=
  {| nDim := nDim s; nVar := nVar s; Gamma := Gamma s;
     Gamma_Minus_One := Gamma_Minus_One s; node := x; Jacobian := Jacobian s;
     rhs := rhs s; xsol := xsol s; Residual_RMS := Residual_RMS s;
     Residual_Max := Residual_Max s; Point_Max := Point_Max s;
     CSensitivity := CSensitivity s |}.
Definition with_Jacobian (x : CSparseMatrix) (s : CAdjEulerSolution) : CAdjEulerSolution :=
  {| nDim := nDim s; nVar := nVar s; Gamma := Gamma s;
     Gamma_Minus_One := Gamma_Minus_One s; node := node s; Jacobian := x;
     rhs := rhs s; xsol := xsol s; Residual_RMS := Residual_RMS s;
     Residual_Max := Residual_Max s; Point_Max := Point_Max s;
     CSensitivity := CSensitivity s |}.
Definition with_rhs (x : list R) (s : CAdjEulerSolution) : CAdjEulerSolution :=
  {| nDim := nDim s; nVar := nVar s; Gamma := Gamma s;
     Gamma_Minus_One := Gamma_Minus_One s; node := node s;
     Jacobian := Jacobian s;
     rhs := x; xsol := xsol s; Residual_RMS := Residual_RMS s;
     Residual_Max := Residual_Max s; Point_Max := Point_Max s;
     CSensitivity := CSensitivity s |}.
Definition with_xsol (x : list R) (s : CAdjEulerSolution) : CAdjEulerSolution :=
  {| nDim := nDim s; nVar := nVar s; Gamma := Gamma s;
     Gamma_Minus_One := Gamma_Minus_One s; node := node s;
     Jacobian := Jacobian s;
     rhs := rhs s; xsol := x; Residual_RMS := Residual_RMS s;
     Residual_Max := Residual_Max s; Point_Max := Point_Max s;
     CSensitivity := CSensitivity s |}.
Definition with_Residual_RMS (x : list R) (s : CAdjEulerSolution) : CAdjEulerSolution :=
  {| nDim := nDim s; nVar := nVar s; Gamma := Gamma s;
     Gamma_Minus_One := Gamma_Minus_One s; node := node s;
     Jacobian := Jacobian s;
     rhs := rhs s; xsol := xsol s; Residual_RMS := x;
     Residual_Max := Residual_Max s; Point_Max := Point_Max s;
     CSensitivity := CSensitivity s |}.
Definition with_Residual_Max (x : list R) (p : list nat) (s : CAdjEulerSolution) : CAdjEulerSolution :=
  {| nDim := nDim s; nVar := nVar s; Gamma := Gamma s;
     Gamma_Minus_One := Gamma_Minus_One s; node := node s;
     Jacobian := Jacobian s;
     rhs := rhs s; xsol := xsol s; Residual_RMS := Residual_RMS s;
     Residual_Max := x; Point_Max := p;
     CSensitivity := CSensitivity s |}.
Definition with_CSensitivity (x : list (list R)) (s : CAdjEulerSolution) : CAdjEulerSolution :=
  {| nDim := nDim s; nVar := nVar s; Gamma := Gamma s;
     Gamma_Minus_One := Gamma_Minus_One s; node := node s;
     Jacobian := Jacobian s;
     rhs := rhs s; xsol := xsol s; Residual_RMS := Residual_RMS s;
     Residual_Max := Residual_Max s; Point_Max := Point_Max s;
     CSensitivity := x |}.

(** [node[iPoint]->method(...)] *)
Definition at_node (iPoint : nat) (method : CVariable -> CVariable)
    (s : CAdjEulerSolution) : CAdjEulerSolution :=
  with_node (alter method iPoint (node s)) s.

(** Residual bookkeeping of [CSolution] (solution_structure.hpp, absent):
    [SetRes_RMS], [AddRes_RMS], [SetRes_Max] and [AddRes_Max], the last one
    keeping the largest value seen and where it was seen. *)
Definition SetRes_RMS (iVar : nat) (val : R) (s : CAdjEulerSolution) : CAdjEulerSolution :=
  with_Residual_RMS (<[iVar := val]> (Residual_RMS s)) s.
Definition AddRes_RMS (iVar : nat) (val : R) (s : CAdjEulerSolution) : CAdjEulerSolution :=
  with_Residual_RMS (<[iVar := (Residual_RMS s !!! iVar + val)%R]> (Residual_RMS s)) s.
Definition SetRes_Max (iVar : nat) (val : R) (point : nat) (s : CAdjEulerSolution) : CAdjEulerSolution :=
  with_Residual_Max (<[iVar := val]> (Residual_Max s)) (<[iVar := point]> (Point_Max s)) s.
Definition AddRes_Max (iVar : nat) (val : R) (point : nat) (s : CAdjEulerSolution) : CAdjEulerSolution :=
  if Rlt_dec (Residual_Max s !!! iVar) val then SetRes_Max iVar val point s else s.

#[global] Instance ENUM_BOUNDARY_inhabited : Inhabited ENUM_BOUNDARY :=
  populate OTHER_BOUNDARY.

(** The linear-solve strategy that a call of the linear solver names. *)
Inductive LinearSolve :=
  | Call_SGSSolution
  | Call_LU_SGSIteration
  | Call_BCGSTAB (precond : ENUM_LINEAR_SOLVER_PREC)
  | Call_FlexibleGMRES (precond : ENUM_LINEAR_SOLVER_PREC).

Section Solver.

(** ** Collaborators defined in other files *)

(** The data that [MPI::COMM_WORLD.Recv] delivers for a marker; [None] when
    the code is compiled with NO_MPI. *)
Variable MPI_Recv : option (nat -> list R).

(** [CSolution::SetResidual_RMS]: the reduction of the squared residual sums. *)
Variable SetResidual_RMS : CGeometry -> CConfig -> list R -> list R.

(** The linear solvers of [CSparseMatrix] and [CSysSolve]: from the matrix,
    the right-hand side, the initial guess, the tolerance, the iteration cap
    and the monitoring flag to the content of the solution array. *)
Variable SGSSolution :
  CSparseMatrix -> list R -> list R -> R -> nat -> bool -> CGeometry -> CConfig -> list R.
Variable LU_SGSIteration :
  CSparseMatrix -> list R -> list R -> CGeometry -> CConfig -> list R.
Variable BCGSTAB_solve :
  ENUM_LINEAR_SOLVER_PREC -> CSparseMatrix -> CGeometry -> CConfig ->
  list R -> list R -> R -> nat -> bool -> list R.
Variable FlexibleGMRES_solve :
  ENUM_LINEAR_SOLVER_PREC -> CSparseMatrix -> CGeometry -> CConfig ->
  list R -> list R -> R -> nat -> bool -> list R.

(** ** SetSolution_MPI (lines 319-436) *)

Definition rotMatrix (angles : list R) : list (list R) :=
  let theta := angles !!! 0 in
  let phi := angles !!! 1 in
  let psi := angles !!! 2 in
  let cosTheta := cos theta in let cosPhi := cos phi in let cosPsi := cos psi in
  let sinTheta := sin theta in let sinPhi := sin phi in let sinPsi := sin psi in
  [ [ cosPhi*cosPsi; cosPhi*sinPsi; -sinPhi ];
    [ sinTheta*sinPhi*cosPsi - cosTheta*sinPsi;
      sinTheta*sinPhi*sinPsi + cosTheta*cosPsi; sinTheta*cosPhi ];
    [ cosTheta*sinPhi*cosPsi + sinTheta*sinPsi;
      cosTheta*sinPhi*sinPsi - sinTheta*cosPsi; cosTheta*cosPhi ] ]%R.

(** The loop that fills the receive buffer when there is no MPI. *)
Definition receive_without_MPI (geometry : CGeometry) (iMarker : nat)
    (s : CAdjEulerSolution) (Buffer : list R) : list R :=
  let nVertex := nVertex geometry iMarker in
  snd (for_loop 0 nVertex (fun iVertex Buffer =>
    let iPoint := vertex_Node ((geo_vertex geometry !!! iMarker) !!! iVertex) in
    snd (for_loop 0 (nVar s) (fun iVar Buffer =>
      <[iVar*nVertex+iVertex := Solution (node s !!! iPoint) !!! iVar]> Buffer)
      Buffer)) Buffer).

(** One pass of the coordinate-transformation loop: the scratch array
    [newSolution], the buffer and the solver. *)
Definition transform_vertex (geometry : CGeometry) (config : CConfig)
    (iMarker iVertex : nat)
    (st : list R * list R * CAdjEulerSolution) : list R * list R * CAdjEulerSolution :=
  let '(newSolution, Buffer, s) := st in
  let nVertex := nVertex geometry iMarker in
  let vertex := (geo_vertex geometry !!! iMarker) !!! iVertex in
  let iPoint := vertex_Node vertex in
  let iPeriodic_Index := Rotation_Type vertex in
  let rot := rotMatrix (PeriodicRotation config iPeriodic_Index) in
  let B := fun k => Buffer !!! (k*nVertex+iVertex) in
  let rot := fun a b => block_get rot a b in
  let newSolution :=
    snd (for_loop 0 (nVar s) (fun iVar nS => <[iVar := B iVar]> nS) newSolution) in
  let newSolution :=
    if nDim s =? 2 then
      let nS := <[1 := Rplus (Rmult (rot 0 0) (B 1)) (Rmult (rot 0 1) (B 2))]>
                  newSolution in
      <[2 := Rplus (Rmult (rot 1 0) (B 1)) (Rmult (rot 1 1) (B 2))]> nS
    else
      let nS := <[1 := Rplus (Rplus (Rmult (rot 0 0) (B 1)) (Rmult (rot 0 1) (B 2)))
                         (Rmult (rot 0 2) (B 3))]> newSolution in
      let nS := <[2 := Rplus (Rplus (Rmult (rot 1 0) (B 1)) (Rmult (rot 1 1) (B 2)))
                         (Rmult (rot 1 2) (B 3))]> nS in
      <[3 := Rplus (Rplus (Rmult (rot 2 0) (B 1)) (Rmult (rot 2 1) (B 2)))
               (Rmult (rot 2 2) (B 3))]> nS in
  let Buffer :=
    snd (for_loop 0 (nVar s) (fun iVar Buffer =>
      <[iVar*nVertex+iVertex := newSolution !!! iVar]> Buffer) Buffer) in
  let s :=
    snd (for_loop 0 (nVar s) (fun iVar s =>
      at_node iPoint (SetSolution iVar (Buffer !!! (iVar*nVertex+iVertex))) s) s) in
  (newSolution, Buffer, s).

Definition SetSolution_MPI (geometry : CGeometry) (config : CConfig)
    (s : CAdjEulerSolution) : CAdjEulerSolution :=
  let newSolution := replicate (nVar s) 0%R in
  snd (snd (for_loop 0 (nMarker_All config) (fun iMarker st =>
    let '(newSolution, s) := st in
    if is_SEND_RECEIVE (Marker_All_Boundary config !!! iMarker) then
      let SendRecv := Marker_All_SendRecv config !!! iMarker in
      let nVertex := nVertex geometry iMarker in
      let nBuffer_Vector := nVertex * nVar s in
      if (SendRecv <? 0)%Z then
        let Buffer_Receive_U :=
          match MPI_Recv with
          | None => receive_without_MPI geometry iMarker s
                      (replicate nBuffer_Vector 0%R)
          | Some Recv => Recv iMarker
          end in
        let '(newSolution, _, s) :=
          snd (for_loop 0 nVertex (transform_vertex geometry config iMarker)
                 (newSolution, Buffer_Receive_U, s)) in
        (newSolution, s)
      else (newSolution, s)
    else (newSolution, s)) (newSolution, s))).

(** ** Preprocessing (lines 936-982): the residual initialisation

    The gradient, limiter, sensor and Laplacian passes that follow the
    initialisation do not write the residual accumulators or the adjoint
    state; they are left out, the loop and the zeroing of the Jacobian are
    as in the source. *)

Definition Preprocessing_residuals (geometry : CGeometry) (config : CConfig)
    (iRKStep : nat) (s : CAdjEulerSolution) : CAdjEulerSolution :=
  let implicit := is_EULER_IMPLICIT (Kind_TimeIntScheme_AdjFlow config) in
  let s :=
    snd (for_loop 0 (nPoint geometry) (fun iPoint s =>
      let s := at_node iPoint (Set_ResConv_Zero (nVar s)) s in
      let s := at_node iPoint (Set_ResSour_Zero (nVar s)) s in
      if (if Req_EM_T (Beta_RKStep config iRKStep) 0 then false else true)
         || implicit
      then at_node iPoint (Set_ResVisc_Zero (nVar s)) s
      else s) s) in
  if implicit || is_DISCRETE (Kind_Adjoint config)
  then with_Jacobian (SetValZero (Jacobian s)) s
  else s.

(** ** ExplicitRK_Iteration (lines 1727-1763) *)

Definition reset_residual_norms (s : CAdjEulerSolution) : CAdjEulerSolution :=
  snd (for_loop 0 (nVar s) (fun iVar s =>
    SetRes_Max iVar 0 0 (SetRes_RMS iVar 0 s)) s).

Definition finish_iteration (geometry : CGeometry) (config : CConfig)
    (s : CAdjEulerSolution) : CAdjEulerSolution :=
  let s := SetSolution_MPI geometry config s in
  with_Residual_RMS (SetResidual_RMS geometry config (Residual_RMS s)) s.

Definition ExplicitRK_update (geometry : CGeometry) (flow : CFlowSolution)
    (config : CConfig) (iRKStep : nat) (s : CAdjEulerSolution) : CAdjEulerSolution :=
  let RK_AlphaCoeff := Alpha_RKStep config iRKStep in
  let s := reset_residual_norms s in
  snd (for_loop 0 (nPointDomain geometry) (fun iPoint s =>
    let Vol := Volume (geo_node geometry !!! iPoint) in
    let Delta := (Delta_Time (flow_node flow !!! iPoint) / Vol)%R in
    snd (for_loop 0 (nVar s) (fun iVar s =>
      let Res := (Residual (node s !!! iPoint) !!! iVar
                  + Res_TruncError (node s !!! iPoint) !!! iVar)%R in
      let s := at_node iPoint (AddSolution iVar (-Res*Delta*RK_AlphaCoeff)%R) s in
      let s := AddRes_RMS iVar (Res*Res)%R s in
      AddRes_Max iVar (Rabs Res) (GlobalIndex (geo_node geometry !!! iPoint)) s)
      s)) s).

Definition ExplicitRK_Iteration (geometry : CGeometry) (flow : CFlowSolution)
    (config : CConfig) (iRKStep : nat) (s : CAdjEulerSolution) : CAdjEulerSolution :=
  finish_iteration geometry config (ExplicitRK_update geometry flow config iRKStep s).

(** ** ExplicitEuler_Iteration (lines 1765-1800) *)

(** [Res] of the explicit and implicit Euler drivers. *)
Definition total_residual (v : CVariable) (iVar : nat) : R :=
  (Res_Conv v !!! iVar + Res_Visc v !!! iVar + Res_Sour v !!! iVar
   + Res_TruncError v !!! iVar)%R.

Definition ExplicitEuler_update (geometry : CGeometry) (flow : CFlowSolution)
    (config : CConfig) (s : CAdjEulerSolution) : CAdjEulerSolution :=
  let s := reset_residual_norms s in
  snd (for_loop 0 (nPointDomain geometry) (fun iPoint s =>
    let Vol := Volume (geo_node geometry !!! iPoint) in
    let Delta := (Delta_Time (flow_node flow !!! iPoint) / Vol)%R in
    snd (for_loop 0 (nVar s) (fun iVar s =>
      let Res := total_residual (node s !!! iPoint) iVar in
      let s := at_node iPoint (AddSolution iVar (-Res*Delta)%R) s in
      let s := AddRes_RMS iVar (Res*Res)%R s in
      AddRes_Max iVar (Rabs Res) (GlobalIndex (geo_node geometry !!! iPoint)) s)
      s)) s).

Definition ExplicitEuler_Iteration (geometry : CGeometry) (flow : CFlowSolution)
    (config : CConfig) (s : CAdjEulerSolution) : CAdjEulerSolution :=
  finish_iteration geometry config (ExplicitEuler_update geometry flow config s).

(** ** ImplicitEuler_Iteration (lines 1802-1907) *)

(** "Build implicit system" and "Initialize residual and solution at the
    ghost points" (lines 1807-1848). *)
Definition ImplicitEuler_system (geometry : CGeometry) (flow : CFlowSolution)
    (config : CConfig) (s : CAdjEulerSolution) : CAdjEulerSolution :=
  let s := reset_residual_norms s in
  let s :=
    snd (for_loop 0 (nPointDomain geometry) (fun iPoint s =>
      let Vol := Volume (geo_node geometry !!! iPoint) in
      let Delta := (Vol / Delta_Time (flow_node flow !!! iPoint))%R in
      let s := with_Jacobian (AddVal2Diag iPoint Delta (Jacobian s)) s in
      snd (for_loop 0 (nVar s) (fun iVar s =>
        let total_index := iPoint * nVar s + iVar in
        let Res := total_residual (node s !!! iPoint) iVar in
        let s := with_rhs (<[total_index := (-Res)%R]> (rhs s)) s in
        let s := with_xsol (<[total_index := 0%R]> (xsol s)) s in
        let s := AddRes_RMS iVar (Res*Res)%R s in
        AddRes_Max iVar (Rabs Res) (GlobalIndex (geo_node geometry !!! iPoint)) s)
        s)) s) in
  snd (for_loop (nPointDomain geometry) (nPoint geometry) (fun iPoint s =>
    snd (for_loop 0 (nVar s) (fun iVar s =>
      let total_index := iPoint * nVar s + iVar in
      let s := with_rhs (<[total_index := 0%R]> (rhs s)) s in
      with_xsol (<[total_index := 0%R]> (xsol s)) s) s)) s).

(** The dispatch to the linear solvers, shared (up to the monitoring flag)
    by ImplicitEuler_Iteration (lines 1850-1894) and Solve_LinearSystem
    (lines 2001-2044): three consecutive [if] statements. The log records
    which strategies were called. *)
Definition linear_solve_dispatch (monitoring : bool) (geometry : CGeometry)
    (config : CConfig) (st : list LinearSolve * CAdjEulerSolution)
    : list LinearSolve * CAdjEulerSolution :=
  let kind := Kind_Linear_Solver config in
  let tol := Linear_Solver_Error config in
  let iter := Linear_Solver_Iter config in
  let st :=
    if linear_solver_eqb kind SYM_GAUSS_SEIDEL then
      let '(log, s) := st in
      (log ++ [Call_SGSSolution],
       with_xsol (SGSSolution (Jacobian s) (rhs s) (xsol s) tol iter monitoring
                    geometry config) s)
    else st in
  let st :=
    if linear_solver_eqb kind LU_SGS then
      let '(log, s) := st in
      (log ++ [Call_LU_SGSIteration],
       with_xsol (LU_SGSIteration (Jacobian s) (rhs s) (xsol s) geometry config) s)
    else st in
  if linear_solver_eqb kind BCGSTAB || linear_solver_eqb kind GMRES then
    let '(log, s) := st in
    let precond := Kind_Linear_Solver_Prec config in
    if linear_solver_eqb kind BCGSTAB then
      (log ++ [Call_BCGSTAB precond],
       with_xsol (BCGSTAB_solve precond (Jacobian s) geometry config
                    (rhs s) (xsol s) tol iter monitoring) s)
    else if linear_solver_eqb kind GMRES then
      (log ++ [Call_FlexibleGMRES precond],
       with_xsol (FlexibleGMRES_solve precond (Jacobian s) geometry config
                    (rhs s) (xsol s) tol iter monitoring) s)
    else (log, s)
  else st.

(** "Update solution (system written in terms of increments)", lines
    1896-1899. *)
Definition ImplicitEuler_update (geometry : CGeometry) (s : CAdjEulerSolution)
    : CAdjEulerSolution :=
  snd (for_loop 0 (nPointDomain geometry) (fun iPoint s =>
    snd (for_loop 0 (nVar s) (fun iVar s =>
      at_node iPoint (AddSolution iVar (xsol s !!! (iPoint * nVar s + iVar))) s)
      s)) s).

Definition ImplicitEuler_Iteration (geometry : CGeometry) (flow : CFlowSolution)
    (config : CConfig) (s : CAdjEulerSolution) : list LinearSolve * CAdjEulerSolution :=
  let s := ImplicitEuler_system geometry flow config s in
  let '(log, s) := linear_solve_dispatch false geometry config ([], s) in
  let s := ImplicitEuler_update geometry s in
  (log, finish_iteration geometry config s).

(** ** Solve_LinearSystem (lines 1909-2051) *)

Definition Solve_LinearSystem_system (geometry : CGeometry)
    (s : CAdjEulerSolution) : CAdjEulerSolution :=
  snd (for_loop 0 (nPointDomain geometry) (fun iPoint s =>
    snd (for_loop 0 (nVar s) (fun iVar s =>
      let total_index := iPoint * nVar s + iVar in
      let s := with_rhs
                 (<[total_index := ObjFuncSource (node s !!! iPoint) !!! iVar]> (rhs s)) s in
      with_xsol (<[total_index := 0%R]> (xsol s)) s) s)) s).

Definition Solve_LinearSystem_update (geometry : CGeometry)
    (s : CAdjEulerSolution) : CAdjEulerSolution :=
  snd (for_loop 0 (nPointDomain geometry) (fun iPoint s =>
    snd (for_loop 0 (nVar s) (fun iVar s =>
      at_node iPoint (SetSolution iVar (xsol s !!! (iPoint * nVar s + iVar))) s)
      s)) s).

Definition Solve_LinearSystem (geometry : CGeometry) (config : CConfig)
    (s : CAdjEulerSolution) : list LinearSolve * CAdjEulerSolution :=
  let s := Solve_LinearSystem_system geometry s in
  let '(log, s) := linear_solve_dispatch true geometry config ([], s) in
  (log, Solve_LinearSystem_update geometry s).

End Solver.

(** ** A small mesh used to exercise the definitions

    Two points joined by one edge; point 0 is owned by the process, point 1
    is a halo point; one boundary marker whose only vertex sits on the halo
    point. Two space dimensions, compressible flow, hence four variables. *)

Definition ex_point (owned : bool) (x y : R) (g : nat) : CPoint :=
  {| Coord := [x; y]; Volume := 2; Domain := owned; nNeighbor := 1;
     GlobalIndex := g; RotVel := [0; 0]%R; GridVel := [0; 0]%R |}.

Definition ex_geometry : CGeometry :=
  {| geo_nDim := 2;
     geo_node := [ex_point true 0 0 0; ex_point false 1 0 1];
     nPointDomain := 1;
     Global_nPointDomain := 1;
     geo_edge := [ {| edge_Node0 := 0; edge_Node1 := 1;
                      edge_Normal := [1; 0]%R; edge_RotFlux := 0 |} ];
     geo_vertex := [ [ {| vertex_Node := 1; vertex_Normal := [1; 0]%R;
                          Normal_Neighbor := 0; vertex_RotFlux := 0;
                          Rotation_Type := 0 |} ] ];
     FinestMGLevel := true |}.

Definition ex_flow_node : CFlowVariable :=
  {| flow_Solution := [1; 1; 0; 3]%R; DensityInc := 1; BetaInc2 := 1;
     SoundSpeed := 1; Enthalpy := 1; Lambda := 1; flow_Sensor := 0;
     Delta_Time := 1; flow_Velocity := [1; 0]%R; flow_Pressure := 1 |}.

Definition ex_flow : CFlowSolution :=
  {| flow_node := [ex_flow_node; ex_flow_node];
     Density_Inf := 1; Pressure_Inf := 1; Velocity_Inf := [1; 0]%R;
     Density_Velocity_Inf := [1; 0]%R; Density_Energy_Inf := 3 |}.

Definition ex_config (time_int : ENUM_TIME_INT) (adjoint : ENUM_ADJOINT)
    (upwind : ENUM_UPWIND) (limiter : ENUM_LIMITER)
    (linear_solver : ENUM_LINEAR_SOLVER) : CConfig :=
  {| Kind_TimeIntScheme_AdjFlow := time_int;
     Kind_TimeIntScheme_Flow := time_int;
     Kind_Adjoint := adjoint;
     Kind_Upwind := upwind;
     Kind_Centered := JST;
     Kind_ConvNumScheme := SPACE_UPWIND;
     Kind_SlopeLimit := limiter;
     Kind_Gradient_Method := GREEN_GAUSS;
     Kind_Inlet := TOTAL_CONDITIONS;
     Kind_Solver := OTHER_SOLVER;
     Kind_ObjFunc := DRAG_COEFFICIENT;
     Kind_Linear_Solver := linear_solver;
     Kind_Linear_Solver_Prec := JACOBI;
     Linear_Solver_Error := 0;
     Linear_Solver_Iter := 10;
     Restart := true;
     Incompressible := false;
     Rotating_Frame := false;
     Grid_Movement := false;
     Alpha_RKStep := fun _ => 1%R;
     Beta_RKStep := fun _ => 1%R;
     Solution_AdjFileName := "solution_adj.dat";
     Marker_All_Boundary := [OTHER_BOUNDARY];
     Marker_All_SendRecv := [0%Z];
     PeriodicRotation := fun _ => [0; 0; 0]%R;
     Gas_Constant := 1; Gas_Constant_Ref := 1; Pressure_Ref := 1;
     Temperature_Ref := 1; Density_Ref := 1; Velocity_Ref := 1;
     Density_FreeStreamND := 1; FreeSurface_Zero := 0;
     FreeSurface_Thickness := 1; Froude := 1;
     Inlet_Ptotal := 1; Inlet_Ttotal := 1; Inlet_FlowDir := [1; 0]%R;
     Outlet_Pressure := 1 |}.

Definition ex_variable : CVariable :=
  {| Solution := [1; 2; 3; 4]%R; Solution_Old := [0; 0; 0; 0]%R;
     Residual := [1; 1; 1; 1]%R;
     Res_Conv := [1; 0; 0; 0]%R; Res_Visc := [0; 1; 0; 0]%R;
     Res_Sour := [0; 0; 1; 0]%R; Res_TruncError := [0; 0; 0; 1]%R;
     ObjFuncSource := [5; 6; 7; 8]%R; IntBoundary_Jump := [9; 9; 9; 9]%R;
     Gradient := [[1; 0]; [0; 1]; [1; 1]; [2; 0]]%R;
     Limiter := [1; 1; 3; 1]%R;
     Und_Lapl := [0; 0; 0; 0]%R; Sensor := 0 |}.

Definition ex_matrix : CSparseMatrix :=
  {| mat_nVar := 4; mat_val := fun _ _ _ _ => 0%R |}.

Definition ex_solution : CAdjEulerSolution :=
  {| nDim := 2; nVar := 4; Gamma := 2; Gamma_Minus_One := 1;
     node := [ex_variable; ex_variable];
     Jacobian := ex_matrix;
     rhs := replicate 8 7%R; xsol := replicate 8 7%R;
     Residual_RMS := [0; 0; 0; 0]%R; Residual_Max := [0; 0; 0; 0]%R;
     Point_Max := [0; 0; 0; 0];
     CSensitivity := [[0]%R] |}.

(** Stand-ins for the collaborators: no MPI, the identity for the norm
    reduction, and linear solvers that hand back the right-hand side. *)
Definition ex_SetResidual_RMS : CGeometry -> CConfig -> list R -> list R :=
  fun _ _ r => r.
Definition ex_SGSSolution :
  CSparseMatrix -> list R -> list R -> R -> nat -> bool -> CGeometry -> CConfig -> list R :=
  fun _ b _ _ _ _ _ _ => b.
Definition ex_LU_SGSIteration :
  CSparseMatrix -> list R -> list R -> CGeometry -> CConfig -> list R :=
  fun _ b _ _ _ => b.
Definition ex_Krylov :
  ENUM_LINEAR_SOLVER_PREC -> CSparseMatrix -> CGeometry -> CConfig ->
  list R -> list R -> R -> nat -> bool -> list R :=
  fun _ _ _ _ b _ _ _ _ => b.

(** ** The numerics kernels

    [CNumerics] (numerics_structure.hpp, absent) is the object that receives
    the data of an edge through its [Set...] methods and then evaluates the
    flux. The record holds what the setters called in this file store; a
    field that a code path does not set keeps the value of the previous
    use. The three overloads of [SetResidual] that the solver calls are
    parameters of the development. *)

Record CNumerics := {
  num_Normal : list R;
  num_Psi_i : list R;        num_Psi_j : list R;
  num_U_i : list R;          num_U_j : list R;
  num_Neighbor_i : nat;      num_Neighbor_j : nat;
  num_DensityInc_i : R;      num_DensityInc_j : R;
  num_BetaInc2_i : R;        num_BetaInc2_j : R;
  num_Coord_i : list R;      num_Coord_j : list R;
  num_SoundSpeed_i : R;      num_SoundSpeed_j : R;
  num_Enthalpy_i : R;        num_Enthalpy_j : R;
  num_Lambda_i : R;          num_Lambda_j : R;
  num_Und_Lapl_i : list R;   num_Und_Lapl_j : list R;
  num_Sensor_i : R;          num_Sensor_j : R;
  num_RotVel_i : list R;     num_RotVel_j : list R;
  num_RotFlux : R;
  num_GridVel_i : list R;    num_GridVel_j : list R
}.

(** The output arrays of [SetResidual] for the centered scheme. *)
Record CenteredFlux := {
  cf_Res_Conv_i : list R; cf_Res_Visc_i : list R;
  cf_Res_Conv_j : list R; cf_Res_Visc_j : list R;
  cf_Jacobian_ii : Block; cf_Jacobian_ij : Block;
  cf_Jacobian_ji : Block; cf_Jacobian_jj : Block
}.

(** The output arrays of [SetResidual] for the upwind scheme. *)
Record UpwindFlux := {
  uf_Residual_i : list R; uf_Residual_j : list R;
  uf_Jacobian_ii : Block; uf_Jacobian_ij : Block;
  uf_Jacobian_ji : Block; uf_Jacobian_jj : Block
}.

(** The scratch arrays of the solver that Upwind_Residual writes. *)
Record Scratch := {
  Vector_i : list R; Vector_j : list R;
  Solution_i : list R; Solution_j : list R
}.

(** [MESH_0], the finest grid level. *)
Definition MESH_0 : nat := 0.

(** [sum over iDim < n of u[iDim]*v[iDim]], accumulated from 0 in index order. *)
Definition dot_n (n : nat) (u v : list R) : R :=
  fold_left (fun a d => (a + u !!! d * v !!! d)%R) (seq 0 n) 0%R.

Section Assembly.

Variable SetResidual_centered : CNumerics -> CConfig -> CenteredFlux.
Variable SetResidual_upwind : CNumerics -> CConfig -> UpwindFlux.
Variable SetResidual_discrete : CNumerics -> CConfig -> Block * Block.

(** ** Centered_Residual (lines 984-1064) *)

(** The state of the numerics object when [SetResidual] is called for an
    edge (lines 998-1042). *)
Definition Centered_numerics (geometry : CGeometry) (flow : CFlowSolution)
    (config : CConfig) (iMesh iRKStep iEdge : nat)
    (num : CNumerics) (s : CAdjEulerSolution) : CNumerics :=
  let implicit := is_EULER_IMPLICIT (Kind_TimeIntScheme_AdjFlow config) in
  let dissipation :=
    (if Req_EM_T (Beta_RKStep config iRKStep) 0 then false else true) || implicit in
  let high_order_diss := is_JST (Kind_Centered config) && (iMesh =? MESH_0) in
  let rotating_frame := Rotating_Frame config in
  let incompressible := Incompressible config in
  let grid_movement := Grid_Movement config in
  let edge := geo_edge geometry !!! iEdge in
  let iPoint := edge_Node0 edge in
  let jPoint := edge_Node1 edge in
  let gi := geo_node geometry !!! iPoint in
  let gj := geo_node geometry !!! jPoint in
  let fi := flow_node flow !!! iPoint in
  let fj := flow_node flow !!! jPoint in
  let ai := node s !!! iPoint in
  let aj := node s !!! jPoint in
  {| num_Normal := edge_Normal edge;
     num_Neighbor_i := nNeighbor gi; num_Neighbor_j := nNeighbor gj;
     num_Psi_i := Solution ai; num_Psi_j := Solution aj;
     num_U_i := flow_Solution fi; num_U_j := flow_Solution fj;
     num_DensityInc_i := if incompressible then DensityInc fi else num_DensityInc_i num;
     num_DensityInc_j := if incompressible then DensityInc fj else num_DensityInc_j num;
     num_BetaInc2_i := if incompressible then BetaInc2 fi else num_BetaInc2_i num;
     num_BetaInc2_j := if incompressible then BetaInc2 fj else num_BetaInc2_j num;
     num_Coord_i := if incompressible then Coord gi else num_Coord_i num;
     num_Coord_j := if incompressible then Coord gj else num_Coord_j num;
     num_SoundSpeed_i := if incompressible then num_SoundSpeed_i num else SoundSpeed fi;
     num_SoundSpeed_j := if incompressible then num_SoundSpeed_j num else SoundSpeed fj;
     num_Enthalpy_i := if incompressible then num_Enthalpy_i num else Enthalpy fi;
     num_Enthalpy_j := if incompressible then num_Enthalpy_j num else Enthalpy fj;
     num_Lambda_i := Lambda fi; num_Lambda_j := Lambda fj;
     num_Und_Lapl_i := if dissipation && high_order_diss then Und_Lapl ai
                       else num_Und_Lapl_i num;
     num_Und_Lapl_j := if dissipation && high_order_diss then Und_Lapl aj
                       else num_Und_Lapl_j num;
     num_Sensor_i := if rotating_frame then Sensor ai
                     else if dissipation && high_order_diss then flow_Sensor fi
                     else num_Sensor_i num;
     num_Sensor_j := if rotating_frame then Sensor aj
                     else if dissipation && high_order_diss then flow_Sensor fj
                     else num_Sensor_j num;
     num_RotVel_i := if rotating_frame then RotVel gi else num_RotVel_i num;
     num_RotVel_j := if rotating_frame then RotVel gj else num_RotVel_j num;
     num_RotFlux := if rotating_frame then edge_RotFlux edge else num_RotFlux num;
     num_GridVel_i := if grid_movement then GridVel gi else num_GridVel_i num;
     num_GridVel_j := if grid_movement then GridVel gj else num_GridVel_j num |}.

(** The body of the edge loop. *)
Definition Centered_edge (geometry : CGeometry) (flow : CFlowSolution)
    (config : CConfig) (iMesh iRKStep iEdge : nat)
    (st : CNumerics * CAdjEulerSolution) : CNumerics * CAdjEulerSolution :=
  let '(num, s) := st in
  let implicit := is_EULER_IMPLICIT (Kind_TimeIntScheme_AdjFlow config) in
  let dissipation :=
    (if Req_EM_T (Beta_RKStep config iRKStep) 0 then false else true) || implicit in
  let iPoint := edge_Node0 (geo_edge geometry !!! iEdge) in
  let jPoint := edge_Node1 (geo_edge geometry !!! iEdge) in
  let num := Centered_numerics geometry flow config iMesh iRKStep iEdge num s in
  let flux := SetResidual_centered num config in
  let s := at_node iPoint (SubtractRes_Conv (nVar s) (cf_Res_Conv_i flux)) s in
  let s := at_node jPoint (SubtractRes_Conv (nVar s) (cf_Res_Conv_j flux)) s in
  let s :=
    if dissipation then
      let s := at_node iPoint (SubtractRes_Visc (nVar s) (cf_Res_Visc_i flux)) s in
      at_node jPoint (SubtractRes_Visc (nVar s) (cf_Res_Visc_j flux)) s
    else s in
  let s :=
    if implicit then
      let J := SubtractBlock iPoint iPoint (cf_Jacobian_ii flux) (Jacobian s) in
      let J := SubtractBlock iPoint jPoint (cf_Jacobian_ij flux) J in
      let J := SubtractBlock jPoint iPoint (cf_Jacobian_ji flux) J in
      let J := SubtractBlock jPoint jPoint (cf_Jacobian_jj flux) J in
      with_Jacobian J s
    else s in
  (num, s).

Definition Centered_Residual (geometry : CGeometry) (flow : CFlowSolution)
    (config : CConfig) (iMesh iRKStep : nat)
    (st : CNumerics * CAdjEulerSolution) : CNumerics * CAdjEulerSolution :=
  snd (for_loop 0 (nEdge geometry)
         (Centered_edge geometry flow config iMesh iRKStep) st).

(** ** Upwind_Residual (lines 1067-1247) *)

(** The MUSCL reconstruction of lines 1124-1148: the scratch arrays after
    the loops. The counter [iDim] is declared at function level, so the
    value it has when the inner loop exits is the one that indexes the
    limiter. *)
Definition Upwind_reconstruction (geometry : CGeometry) (config : CConfig)
    (iPoint jPoint : nat) (scr : Scratch) (s : CAdjEulerSolution) : Scratch :=
  let limiter := negb (is_NONE (Kind_SlopeLimit config)) in
  let Psi_i := Solution (node s !!! iPoint) in
  let Psi_j := Solution (node s !!! jPoint) in
  let '(V_i, V_j) :=
    snd (for_loop 0 (nDim s) (fun iDim '(V_i, V_j) =>
      (<[iDim := (0.5 * (Coord (geo_node geometry !!! jPoint) !!! iDim
                        - Coord (geo_node geometry !!! iPoint) !!! iDim))%R]> V_i,
       <[iDim := (0.5 * (Coord (geo_node geometry !!! iPoint) !!! iDim
                        - Coord (geo_node geometry !!! jPoint) !!! iDim))%R]> V_j))
      (Vector_i scr, Vector_j scr)) in
  let Gradient_i := Gradient (node s !!! iPoint) in
  let Gradient_j := Gradient (node s !!! jPoint) in
  let Limiter_i := Limiter (node s !!! iPoint) in
  let Limiter_j := Limiter (node s !!! jPoint) in
  let '(S_i, S_j) :=
    snd (for_loop 0 (nVar s) (fun iVar '(S_i, S_j) =>
      let '(iDim, (Project_Grad_i, Project_Grad_j)) :=
        for_loop 0 (nDim s) (fun iDim '(P_i, P_j) =>
          ((P_i + V_i !!! iDim * (Gradient_i !!! iVar) !!! iDim)%R,
           (P_j + V_j !!! iDim * (Gradient_j !!! iVar) !!! iDim)%R))
          (0%R, 0%R) in
      if limiter then
        (<[iVar := (Psi_i !!! iVar + Project_Grad_i * Limiter_i !!! iDim)%R]> S_i,
         <[iVar := (Psi_j !!! iVar + Project_Grad_j * Limiter_j !!! iDim)%R]> S_j)
      else
        (<[iVar := (Psi_i !!! iVar + Project_Grad_i)%R]> S_i,
         <[iVar := (Psi_j !!! iVar + Project_Grad_j)%R]> S_j))
      (Solution_i scr, Solution_j scr)) in
  {| Vector_i := V_i; Vector_j := V_j; Solution_i := S_i; Solution_j := S_j |}.

(** The numerics object and the scratch arrays when [SetResidual] is called
    for an edge (lines 1082-1151). *)
Definition Upwind_numerics (geometry : CGeometry) (flow : CFlowSolution)
    (config : CConfig) (iMesh iEdge : nat)
    (num : CNumerics) (scr : Scratch) (s : CAdjEulerSolution) : CNumerics * Scratch :=
  let high_order_diss :=
    (is_ROE_2ND (Kind_Upwind config) || is_SW_2ND (Kind_Upwind config))
    && (iMesh =? MESH_0) in
  let incompressible := Incompressible config in
  let rotating_frame := Rotating_Frame config in
  let grid_movement := Grid_Movement config in
  let discrete := is_DISCRETE (Kind_Adjoint config) in
  let edge := geo_edge geometry !!! iEdge in
  let iPoint := edge_Node0 edge in
  let jPoint := edge_Node1 edge in
  let gi := geo_node geometry !!! iPoint in
  let gj := geo_node geometry !!! jPoint in
  let fi := flow_node flow !!! iPoint in
  let fj := flow_node flow !!! jPoint in
  let reconstruct := high_order_diss && negb discrete in
  let scr := if reconstruct
             then Upwind_reconstruction geometry config iPoint jPoint scr s
             else scr in
  ({| num_Normal := edge_Normal edge;
      num_Neighbor_i := num_Neighbor_i num; num_Neighbor_j := num_Neighbor_j num;
      num_Psi_i := if reconstruct then Solution_i scr
                   else if discrete then num_Psi_i num
                   else Solution (node s !!! iPoint);
      num_Psi_j := if reconstruct then Solution_j scr
                   else if discrete then num_Psi_j num
                   else Solution (node s !!! jPoint);
      num_U_i := flow_Solution fi; num_U_j := flow_Solution fj;
      num_DensityInc_i := if incompressible then DensityInc fi else num_DensityInc_i num;
      num_DensityInc_j := if incompressible then DensityInc fj else num_DensityInc_j num;
      num_BetaInc2_i := if incompressible then BetaInc2 fi else num_BetaInc2_i num;
      num_BetaInc2_j := if incompressible then BetaInc2 fj else num_BetaInc2_j num;
      num_Coord_i := if incompressible then Coord gi else num_Coord_i num;
      num_Coord_j := if incompressible then Coord gj else num_Coord_j num;
      num_SoundSpeed_i := if incompressible then num_SoundSpeed_i num else SoundSpeed fi;
      num_SoundSpeed_j := if incompressible then num_SoundSpeed_j num else SoundSpeed fj;
      num_Enthalpy_i := if incompressible then num_Enthalpy_i num else Enthalpy fi;
      num_Enthalpy_j := if incompressible then num_Enthalpy_j num else Enthalpy fj;
      num_Lambda_i := num_Lambda_i num; num_Lambda_j := num_Lambda_j num;
      num_Und_Lapl_i := num_Und_Lapl_i num; num_Und_Lapl_j := num_Und_Lapl_j num;
      num_Sensor_i := num_Sensor_i num; num_Sensor_j := num_Sensor_j num;
      num_RotVel_i := if rotating_frame then RotVel gi else num_RotVel_i num;
      num_RotVel_j := if rotating_frame then RotVel gj else num_RotVel_j num;
      num_RotFlux := if rotating_frame then edge_RotFlux edge else num_RotFlux num;
      num_GridVel_i := if grid_movement then GridVel gi else num_GridVel_i num;
      num_GridVel_j := if grid_movement then GridVel gj else num_GridVel_j num |},
   scr).

(** The body of the edge loop (lines 1080-1246). In discrete mode with
    reconstruction the source has only commented-out code: nothing is
    assembled. *)
Definition Upwind_edge (geometry : CGeometry) (flow : CFlowSolution)
    (config : CConfig) (iMesh iEdge : nat)
    (st : CNumerics * Scratch * CAdjEulerSolution)
    : CNumerics * Scratch * CAdjEulerSolution :=
  let '(num, scr, s) := st in
  let implicit := is_EULER_IMPLICIT (Kind_TimeIntScheme_AdjFlow config) in
  let high_order_diss :=
    (is_ROE_2ND (Kind_Upwind config) || is_SW_2ND (Kind_Upwind config))
    && (iMesh =? MESH_0) in
  let discrete := is_DISCRETE (Kind_Adjoint config) in
  let iPoint := edge_Node0 (geo_edge geometry !!! iEdge) in
  let jPoint := edge_Node1 (geo_edge geometry !!! iEdge) in
  let '(num, scr) := Upwind_numerics geometry flow config iMesh iEdge num scr s in
  if discrete then
    let '(Jacobian_i, Jacobian_j) := SetResidual_discrete num config in
    if negb high_order_diss then
      let J := AddBlock iPoint iPoint Jacobian_i (Jacobian s) in
      let J := SubtractBlock iPoint jPoint Jacobian_i J in
      let J := AddBlock jPoint iPoint Jacobian_j J in
      let J := SubtractBlock jPoint jPoint Jacobian_j J in
      (num, scr, with_Jacobian J s)
    else (num, scr, s)
  else
    let flux := SetResidual_upwind num config in
    let s := at_node iPoint (SubtractRes_Conv (nVar s) (uf_Residual_i flux)) s in
    let s := at_node jPoint (SubtractRes_Conv (nVar s) (uf_Residual_j flux)) s in
    let s :=
      if implicit && negb discrete then
        let J := SubtractBlock iPoint iPoint (uf_Jacobian_ii flux) (Jacobian s) in
        let J := SubtractBlock iPoint jPoint (uf_Jacobian_ij flux) J in
        let J := SubtractBlock jPoint iPoint (uf_Jacobian_ji flux) J in
        let J := SubtractBlock jPoint jPoint (uf_Jacobian_jj flux) J in
        with_Jacobian J s
      else s in
    (num, scr, s).

Definition Upwind_Residual (geometry : CGeometry) (flow : CFlowSolution)
    (config : CConfig) (iMesh : nat)
    (st : CNumerics * Scratch * CAdjEulerSolution)
    : CNumerics * Scratch * CAdjEulerSolution :=
  snd (for_loop 0 (nEdge geometry) (Upwind_edge geometry flow config iMesh) st).

End Assembly.

(** Stand-ins for the numerics object, the scratch arrays and the flux
    kernels on the small mesh. *)
Definition ex_numerics : CNumerics :=
  {| num_Normal := []; num_Psi_i := []; num_Psi_j := [];
     num_U_i := []; num_U_j := []; num_Neighbor_i := 0; num_Neighbor_j := 0;
     num_DensityInc_i := 0; num_DensityInc_j := 0;
     num_BetaInc2_i := 0; num_BetaInc2_j := 0;
     num_Coord_i := []; num_Coord_j := [];
     num_SoundSpeed_i := 0; num_SoundSpeed_j := 0;
     num_Enthalpy_i := 0; num_Enthalpy_j := 0;
     num_Lambda_i := 0; num_Lambda_j := 0;
     num_Und_Lapl_i := []; num_Und_Lapl_j := [];
     num_Sensor_i := 0; num_Sensor_j := 0;
     num_RotVel_i := []; num_RotVel_j := []; num_RotFlux := 0;
     num_GridVel_i := []; num_GridVel_j := [] |}.

Definition ex_scratch : Scratch :=
  {| Vector_i := [0; 0]%R; Vector_j := [0; 0]%R;
     Solution_i := [0; 0; 0; 0]%R; Solution_j := [0; 0; 0; 0]%R |}.

Definition ex_block : Block :=
  [[1; 0; 0; 0]; [0; 1; 0; 0]; [0; 0; 1; 0]; [0; 0; 0; 1]]%R.

Definition ex_SetResidual_centered : CNumerics -> CConfig -> CenteredFlux :=
  fun _ _ =>
    {| cf_Res_Conv_i := [1; 1; 1; 1]%R; cf_Res_Visc_i := [1; 1; 1; 1]%R;
       cf_Res_Conv_j := [1; 1; 1; 1]%R; cf_Res_Visc_j := [1; 1; 1; 1]%R;
       cf_Jacobian_ii := ex_block; cf_Jacobian_ij := ex_block;
       cf_Jacobian_ji := ex_block; cf_Jacobian_jj := ex_block |}.

Definition ex_SetResidual_upwind : CNumerics -> CConfig -> UpwindFlux :=
  fun _ _ =>
    {| uf_Residual_i := [1; 1; 1; 1]%R; uf_Residual_j := [1; 1; 1; 1]%R;
       uf_Jacobian_ii := ex_block; uf_Jacobian_ij := ex_block;
       uf_Jacobian_ji := ex_block; uf_Jacobian_jj := ex_block |}.

Definition ex_SetResidual_discrete : CNumerics -> CConfig -> Block * Block :=
  fun _ _ => (ex_block, ex_block).

(** A block operation of the assembly: [AddBlock] when [add] holds,
    [SubtractBlock] otherwise. *)
Definition block_op (add : bool) : nat -> nat -> Block -> CSparseMatrix -> CSparseMatrix :=
  if add then AddBlock else SubtractBlock.

(** ** Boundary handlers *)

(** The arrays that a boundary handler allocates with [new double[...]] or
    declares as locals: their initial content is whatever the memory holds,
    and is an input of the handler. *)
Record BCArrays := {
  bc_Normal : list R;
  bc_UnitaryNormal : list R;
  bc_Velocity : list R;
  bc_U_domain : list R;
  bc_U_ext : list R;
  bc_Psi_domain : list R;
  bc_Psi_ext : list R
}.

Section Boundary.

Variable SetResidual_upwind : CNumerics -> CConfig -> UpwindFlux.
Variable SetResidual_discrete : CNumerics -> CConfig -> Block * Block.

(** The setters that every handler calls before the flux evaluation: normal,
    conservative and (optionally) adjoint states, and the flow quantities of
    the boundary node on both sides. *)
Definition boundary_numerics (geometry : CGeometry) (flow : CFlowSolution)
    (config : CConfig) (iPoint : nat) (vertex : CVertex)
    (Normal U_i U_j : list R) (adjoint : option (list R * list R))
    (DensityInc_i DensityInc_j : R) (num : CNumerics) : CNumerics :=
  let incompressible := Incompressible config in
  let rotating_frame := Rotating_Frame config in
  let grid_movement := Grid_Movement config in
  let g := geo_node geometry !!! iPoint in
  let f := flow_node flow !!! iPoint in
  {| num_Normal := Normal;
     num_Neighbor_i := num_Neighbor_i num; num_Neighbor_j := num_Neighbor_j num;
     num_Psi_i := match adjoint with Some (a, _) => a | None => num_Psi_i num end;
     num_Psi_j := match adjoint with Some (_, b) => b | None => num_Psi_j num end;
     num_U_i := U_i; num_U_j := U_j;
     num_DensityInc_i := if incompressible then DensityInc_i else num_DensityInc_i num;
     num_DensityInc_j := if incompressible then DensityInc_j else num_DensityInc_j num;
     num_BetaInc2_i := if incompressible then BetaInc2 f else num_BetaInc2_i num;
     num_BetaInc2_j := if incompressible then BetaInc2 f else num_BetaInc2_j num;
     num_Coord_i := if incompressible then Coord g else num_Coord_i num;
     num_Coord_j := if incompressible then Coord g else num_Coord_j num;
     num_SoundSpeed_i := if incompressible then num_SoundSpeed_i num else SoundSpeed f;
     num_SoundSpeed_j := if incompressible then num_SoundSpeed_j num else SoundSpeed f;
     num_Enthalpy_i := if incompressible then num_Enthalpy_i num else Enthalpy f;
     num_Enthalpy_j := if incompressible then num_Enthalpy_j num else Enthalpy f;
     num_Lambda_i := num_Lambda_i num; num_Lambda_j := num_Lambda_j num;
     num_Und_Lapl_i := num_Und_Lapl_i num; num_Und_Lapl_j := num_Und_Lapl_j num;
     num_Sensor_i := num_Sensor_i num; num_Sensor_j := num_Sensor_j num;
     num_RotVel_i := if rotating_frame then RotVel g else num_RotVel_i num;
     num_RotVel_j := if rotating_frame then RotVel g else num_RotVel_j num;
     num_RotFlux := if rotating_frame then (- vertex_RotFlux vertex)%R
                    else num_RotFlux num;
     num_GridVel_i := if grid_movement then GridVel g else num_GridVel_i num;
     num_GridVel_j := if grid_movement then GridVel g else num_GridVel_j num |}.

(** [GetNormal(Normal)] followed by the negation loop. *)
Definition outward_Normal (n : nat) (vertex : CVertex) (Normal : list R) : list R :=
  let Normal := vec_set_all n (fun k _ => vertex_Normal vertex !!! k) Normal in
  vec_set_all n (fun k x => (- x)%R) Normal.

(** ** BC_Far_Field (lines 3542-3651) *)

Definition BC_Far_Field_vertex (geometry : CGeometry) (flow : CFlowSolution)
    (config : CConfig) (val_marker iVertex : nat)
    (st : BCArrays * CNumerics * CAdjEulerSolution)
    : BCArrays * CNumerics * CAdjEulerSolution :=
  let '(mem, num, s) := st in
  let implicit := is_EULER_IMPLICIT (Kind_TimeIntScheme_AdjFlow config) in
  let incompressible := Incompressible config in
  let discrete := is_DISCRETE (Kind_Adjoint config) in
  let vertex := (geo_vertex geometry !!! val_marker) !!! iVertex in
  let iPoint := vertex_Node vertex in
  if Domain (geo_node geometry !!! iPoint) then
    let Normal := outward_Normal (nDim s) vertex (bc_Normal mem) in
    let U_domain :=
      vec_set_all (nVar s)
        (fun k _ => flow_Solution (flow_node flow !!! iPoint) !!! k) (bc_U_domain mem) in
    let U_infty :=
      if incompressible then
        let U := <[0 := Pressure_Inf flow]> (bc_U_ext mem) in
        let U := <[1 := (Velocity_Inf flow !!! 0%nat * Density_FreeStreamND config)%R]> U in
        let U := <[2 := (Velocity_Inf flow !!! 1%nat * Density_FreeStreamND config)%R]> U in
        if nDim s =? 3
        then <[3 := (Velocity_Inf flow !!! 2%nat * Density_FreeStreamND config)%R]> U
        else U
      else
        let U := <[0 := Density_Inf flow]> (bc_U_ext mem) in
        let U := <[1 := Density_Velocity_Inf flow !!! 0]> U in
        let U := <[2 := Density_Velocity_Inf flow !!! 1]> U in
        let U := <[3 := Density_Energy_Inf flow]> U in
        if nDim s =? 3
        then <[4 := Density_Energy_Inf flow]> (<[3 := Density_Velocity_Inf flow !!! 2]> U)
        else U in
    let '(Psi_domain, Psi_infty) :=
      if discrete then (bc_Psi_domain mem, bc_Psi_ext mem)
      else
        snd (for_loop 0 (nVar s) (fun iVar '(Pd, Pi) =>
          (<[iVar := Solution (node s !!! iPoint) !!! iVar]> Pd, <[iVar := 0%R]> Pi))
          (bc_Psi_domain mem, bc_Psi_ext mem)) in
    let mem :=
      {| bc_Normal := Normal; bc_UnitaryNormal := bc_UnitaryNormal mem;
         bc_Velocity := bc_Velocity mem; bc_U_domain := U_domain;
         bc_U_ext := U_infty; bc_Psi_domain := Psi_domain;
         bc_Psi_ext := Psi_infty |} in
    let num :=
      boundary_numerics geometry flow config iPoint vertex Normal U_domain U_infty
        (if discrete then None else Some (Psi_domain, Psi_infty))
        (Density_FreeStreamND config) (Density_FreeStreamND config) num in
    if discrete then
      let '(Jacobian_i, Jacobian_j) := SetResidual_discrete num config in
      (mem, num, with_Jacobian (SubtractBlock iPoint iPoint Jacobian_i (Jacobian s)) s)
    else
      let flux := SetResidual_upwind num config in
      let s := at_node iPoint (SubtractRes_Conv (nVar s) (uf_Residual_i flux)) s in
      let s :=
        if implicit && negb discrete
        then with_Jacobian
               (SubtractBlock iPoint iPoint (uf_Jacobian_ii flux) (Jacobian s)) s
        else s in
      (mem, num, s)
  else (mem, num, s).

Definition BC_Far_Field (geometry : CGeometry) (flow : CFlowSolution)
    (config : CConfig) (val_marker : nat)
    (st : BCArrays * CNumerics * CAdjEulerSolution)
    : BCArrays * CNumerics * CAdjEulerSolution :=
  snd (for_loop 0 (nVertex geometry val_marker)
         (BC_Far_Field_vertex geometry flow config val_marker) st).

End Boundary.

(** ** BC_FWH (lines 4551-4577) *)

Definition BC_FWH_vertex (geometry : CGeometry) (config : CConfig)
    (val_marker iVertex : nat) (s : CAdjEulerSolution) : CAdjEulerSolution :=
  let implicit := is_EULER_IMPLICIT (Kind_TimeIntScheme_AdjFlow config) in
  let iPoint := vertex_Node ((geo_vertex geometry !!! val_marker) !!! iVertex) in
  let s := at_node iPoint
             (fun c => SetSolution_vec (nVar s) (IntBoundary_Jump c) c) s in
  let s := at_node iPoint
             (fun c => SetSolution_Old (nVar s) (IntBoundary_Jump c) c) s in
  let s := at_node iPoint (Set_ResConv_Zero (nVar s)) s in
  let s := at_node iPoint (Set_ResSour_Zero (nVar s)) s in
  let s := at_node iPoint (Set_ResVisc_Zero (nVar s)) s in
  let s := at_node iPoint (SetRes_TruncErrorZero (nVar s)) s in
  if implicit then
    snd (for_loop 0 (nVar s) (fun iVar s =>
      let total_index := iPoint * nVar s + iVar in
      with_Jacobian (DeleteValsRowi total_index (Jacobian s)) s) s)
  else s.

Definition BC_FWH (geometry : CGeometry) (config : CConfig) (val_marker : nat)
    (s : CAdjEulerSolution) : CAdjEulerSolution :=
  snd (for_loop 0 (nVertex geometry val_marker)
         (BC_FWH_vertex geometry config val_marker) s).

(** What BC_FWH does to the node of a vertex (lines 4562-4567). *)
Definition FWH_node (n : nat) (c : CVariable) : CVariable :=
  SetRes_TruncErrorZero n (Set_ResVisc_Zero n (Set_ResSour_Zero n (Set_ResConv_Zero n
    (SetSolution_Old n (IntBoundary_Jump c) (SetSolution_vec n (IntBoundary_Jump c) c))))).

(** The nodes of the first [k] vertices of a marker. *)
Definition marker_nodes (geometry : CGeometry) (val_marker k : nat) : list nat :=
  map (fun iVertex => vertex_Node ((geo_vertex geometry !!! val_marker) !!! iVertex))
      (seq 0 k).

Section InletOutlet.

Variable SetResidual_upwind : CNumerics -> CConfig -> UpwindFlux.

(** [Area] and [UnitaryNormal] of a boundary vertex (lines 3691-3696 and
    4014-4020). *)
Definition vertex_Area (n : nat) (Normal : list R) : R :=
  sqrt (snd (for_loop 0 n (fun iDim Area =>
    (Area + Normal !!! iDim * Normal !!! iDim)%R) 0%R)).

Definition vertex_UnitaryNormal (n : nat) (Normal UnitaryNormal : list R) : list R :=
  let Area := vertex_Area n Normal in
  snd (for_loop 0 n (fun iDim UN => <[iDim := (Normal !!! iDim / Area)%R]> UN)
         UnitaryNormal).

(** The tail shared by BC_Inlet and BC_Outlet: the states are handed to the
    flux routine, its residual is subtracted at the boundary node and, in an
    implicit run, its block ii is subtracted on the diagonal. *)
Definition boundary_flux (geometry : CGeometry) (flow : CFlowSolution)
    (config : CConfig) (implicit : bool) (iPoint : nat) (vertex : CVertex)
    (mem : BCArrays) (Density_ext : R) (num : CNumerics) (s : CAdjEulerSolution)
    : CNumerics * CAdjEulerSolution :=
  let num :=
    boundary_numerics geometry flow config iPoint vertex (bc_Normal mem)
      (bc_U_domain mem) (bc_U_ext mem) (Some (bc_Psi_domain mem, bc_Psi_ext mem))
      (DensityInc (flow_node flow !!! iPoint)) Density_ext num in
  let flux := SetResidual_upwind num config in
  let s := at_node iPoint (SubtractRes_Conv (nVar s) (uf_Residual_i flux)) s in
  let s :=
    if implicit
    then with_Jacobian (SubtractBlock iPoint iPoint (uf_Jacobian_ii flux) (Jacobian s)) s
    else s in
  (num, s).

(** ** BC_Inlet (lines 3653-3970) *)

(** The locals of the TOTAL_CONDITIONS case that the specification talks
    about, and the arrays it leaves behind. *)
Record InletTotal := {
  it_Riemann : R; it_alpha : R;
  it_aa : R; it_bb : R; it_cc : R;
  it_SoundSpeed_Total2 : R;
  it_Vel_Mag_quadratic : R;     (* Vel_Mag after line 3790 *)
  it_Mach2 : R;                 (* Mach2 after line 3798 *)
  it_Velocity2 : R;             (* Velocity2 after line 3799 *)
  it_Vel_Mag : R;               (* Vel_Mag after line 3800 *)
  it_SoundSpeed2 : R;           (* SoundSpeed2 after line 3801 *)
  it_Density : R; it_Energy : R;
  it_Velocity : list R;
  it_U_inlet : list R;
  it_Psi_inlet : list R
}.

(** "Store primitives" (lines 3752-3757): the velocity of the interior
    state and its square. *)
Definition domain_velocity (n : nat) (U_domain Velocity : list R) : list R * R :=
  let Density := U_domain !!! 0 in
  snd (for_loop 0 n (fun iDim '(Velocity, Velocity2) =>
    let Velocity := <[iDim := (U_domain !!! (iDim+1)%nat / Density)%R]> Velocity in
    (Velocity, (Velocity2 + Velocity !!! iDim * Velocity !!! iDim)%R))
    (Velocity, 0.0%R)).

Definition Inlet_total_conditions (config : CConfig) (s : CAdjEulerSolution)
    (UnitaryNormal U_domain Velocity U_inlet Psi_inlet : list R) : InletTotal :=
  let Gas_Constant := (Gas_Constant config / Gas_Constant_Ref config)%R in
  let Gamma := Gamma s in
  let Gamma_Minus_One := Gamma_Minus_One s in
  let P_Total := Inlet_Ptotal config in
  let T_Total := Inlet_Ttotal config in
  let Flow_Dir := Inlet_FlowDir config in
  let P_Total := (P_Total / Pressure_Ref config)%R in
  let T_Total := (T_Total / Temperature_Ref config)%R in
  let Density := U_domain !!! 0 in
  let primitives := domain_velocity (nDim s) U_domain Velocity in
  let Velocity := fst primitives in
  let Velocity2 := snd primitives in
  let Energy := (U_domain !!! (nVar s - 1)%nat / Density)%R in
  let Pressure := (Gamma_Minus_One * Density * (Energy - 0.5 * Velocity2))%R in
  let H_Total := ((Gamma * Gas_Constant / Gamma_Minus_One) * T_Total)%R in
  let SoundSpeed2 := (Gamma * Pressure / Density)%R in
  let Riemann :=
    snd (for_loop 0 (nDim s) (fun iDim Riemann =>
      (Riemann + Velocity !!! iDim * UnitaryNormal !!! iDim)%R)
      (2.0 * sqrt SoundSpeed2 / Gamma_Minus_One)%R) in
  let SoundSpeed_Total2 :=
    (Gamma_Minus_One * (H_Total - (Energy + Pressure / Density) + 0.5 * Velocity2)
     + SoundSpeed2)%R in
  let alpha :=
    snd (for_loop 0 (nDim s) (fun iDim alpha =>
      (alpha + UnitaryNormal !!! iDim * Flow_Dir !!! iDim)%R) 0%R) in
  let aa := (1.0 + 0.5 * Gamma_Minus_One * alpha * alpha)%R in
  let bb := (-1.0 * Gamma_Minus_One * alpha * Riemann)%R in
  let cc := (0.5 * Gamma_Minus_One * Riemann * Riemann
             - 2.0 * SoundSpeed_Total2 / Gamma_Minus_One)%R in
  let dd := (bb * bb - 4.0 * aa * cc)%R in
  let dd := sqrt (max_d 0.0 dd) in
  let Vel_Mag := ((- bb + dd) / (2.0 * aa))%R in
  let Vel_Mag := max_d 0.0 Vel_Mag in
  let Vel_Mag_quadratic := Vel_Mag in
  let Velocity2 := (Vel_Mag * Vel_Mag)%R in
  let SoundSpeed2 := (SoundSpeed_Total2 - 0.5 * Gamma_Minus_One * Velocity2)%R in
  let Mach2 := (Velocity2 / SoundSpeed2)%R in
  let Mach2 := min_d 1.0 Mach2 in
  let Velocity2 := (Mach2 * SoundSpeed2)%R in
  let Vel_Mag := sqrt Velocity2 in
  let SoundSpeed2 := (SoundSpeed_Total2 - 0.5 * Gamma_Minus_One * Velocity2)%R in
  let Velocity :=
    snd (for_loop 0 (nDim s) (fun iDim Velocity =>
      <[iDim := (Vel_Mag * Flow_Dir !!! iDim)%R]> Velocity) Velocity) in
  let Temperature := (SoundSpeed2 / (Gamma * Gas_Constant))%R in
  let Pressure := (P_Total * Rpower (Temperature / T_Total) (Gamma / Gamma_Minus_One))%R in
  let Density := (Pressure / (Gas_Constant * Temperature))%R in
  let Energy := (Pressure / (Density * Gamma_Minus_One) + 0.5 * Velocity2)%R in
  let U := <[0 := Density]> U_inlet in
  let U := <[1 := (Velocity !!! 0%nat * Density)%R]> U in
  let U := <[2 := (Velocity !!! 1%nat * Density)%R]> U in
  let U := <[3 := (Energy * Density)%R]> U in
  let U :=
    if nDim s =? 3
    then <[4 := (Energy * Density)%R]> (<[3 := (Velocity !!! 2%nat * Density)%R]> U)
    else U in
  let Psi := vec_set_all (nVar s) (fun _ _ => 0.0%R) Psi_inlet in
  {| it_Riemann := Riemann; it_alpha := alpha;
     it_aa := aa; it_bb := bb; it_cc := cc;
     it_SoundSpeed_Total2 := SoundSpeed_Total2;
     it_Vel_Mag_quadratic := Vel_Mag_quadratic;
     it_Mach2 := Mach2; it_Velocity2 := Velocity2; it_Vel_Mag := Vel_Mag;
     it_SoundSpeed2 := SoundSpeed2; it_Density := Density; it_Energy := Energy;
     it_Velocity := Velocity; it_U_inlet := U; it_Psi_inlet := Psi |}.

(** The MASS_FLOW case (lines 3838-3919): the velocity array, [U_inlet] and
    [Psi_inlet]. *)
Definition Inlet_mass_flow (geometry : CGeometry) (flow : CFlowSolution)
    (config : CConfig) (s : CAdjEulerSolution) (iPoint : nat) (vertex : CVertex)
    (Area : R) (UnitaryNormal U_domain Psi_domain Velocity U_inlet Psi_inlet : list R)
    : list R * list R * list R :=
  let Gamma := Gamma s in
  let Gamma_Minus_One := Gamma_Minus_One s in
  let Two_Gamma_M1 := (2.0 / Gamma_Minus_One)%R in
  let Density := Inlet_Ttotal config in
  let Vel_Mag := Inlet_Ptotal config in
  let Flow_Dir := Inlet_FlowDir config in
  let Density := (Density / Density_Ref config)%R in
  let Vel_Mag := (Vel_Mag / Velocity_Ref config)%R in
  let Velocity :=
    snd (for_loop 0 (nDim s) (fun iDim Velocity =>
      <[iDim := flow_Velocity (flow_node flow !!! iPoint) !!! iDim]> Velocity)
      Velocity) in
  let Pressure := flow_Pressure (flow_node flow !!! iPoint) in
  let SoundSpeed2 := (Gamma * Pressure / U_domain !!! 0%nat)%R in
  let Riemann :=
    snd (for_loop 0 (nDim s) (fun iDim Riemann =>
      (Riemann + Velocity !!! iDim * UnitaryNormal !!! iDim)%R)
      (Two_Gamma_M1 * sqrt SoundSpeed2)%R) in
  let SoundSpeed2 :=
    snd (for_loop 0 (nDim s) (fun iDim SoundSpeed2 =>
      (SoundSpeed2 - Vel_Mag * Flow_Dir !!! iDim * UnitaryNormal !!! iDim)%R)
      Riemann) in
  let SoundSpeed2 := max_d 0.0 (0.5 * Gamma_Minus_One * SoundSpeed2)%R in
  let SoundSpeed2 := (SoundSpeed2 * SoundSpeed2)%R in
  let Pressure := (SoundSpeed2 * Density / Gamma)%R in
  let Energy := (Pressure / (Density * Gamma_Minus_One) + 0.5 * Vel_Mag * Vel_Mag)%R in
  let U := <[0 := Density]> U_inlet in
  let U := <[1 := (Vel_Mag * Flow_Dir !!! 0%nat * Density)%R]> U in
  let U := <[2 := (Vel_Mag * Flow_Dir !!! 1%nat * Density)%R]> U in
  let U := <[3 := (Energy * Density)%R]> U in
  let U :=
    if nDim s =? 3
    then <[4 := (Energy * Density)%R]>
           (<[3 := (Vel_Mag * Flow_Dir !!! 2%nat * Density)%R]> U)
    else U in
  let Psi :=
    vec_set_all (nVar s) (fun k _ => Solution (node s !!! iPoint) !!! k) Psi_inlet in
  let terms :=
    snd (for_loop 0 (nDim s) (fun iDim '(bcn, phin) =>
      ((bcn - (Gamma / Gamma_Minus_One) * Velocity !!! iDim * UnitaryNormal !!! iDim)%R,
       (phin + Psi_domain !!! (iDim+1)%nat * UnitaryNormal !!! iDim)%R))
      (0.0%R, 0.0%R)) in
  let bcn := fst terms in
  let phin := snd terms in
  let bcn :=
    if Rotating_Frame config then
      let ProjRotVel := (- vertex_RotFlux vertex / Area)%R in
      (bcn - (1.0 / Gamma_Minus_One) * ProjRotVel)%R
    else bcn in
  let bcn :=
    if Grid_Movement config then
      let ProjGridVel :=
        snd (for_loop 0 (nDim s) (fun iDim P =>
          (P + GridVel (geo_node geometry !!! iPoint) !!! iDim
               * UnitaryNormal !!! iDim)%R) 0.0%R) in
      (bcn - (1.0 / Gamma_Minus_One) * ProjGridVel)%R
    else bcn in
  let Psi := <[nVar s - 1 := (- phin * (1.0 / bcn))%R]> Psi in
  (Velocity, U, Psi).

(** The incompressible inlet state (lines 3710-3728) and the density it
    hands to the flux routine. *)
Definition Inlet_incompressible (flow : CFlowSolution) (config : CConfig)
    (s : CAdjEulerSolution) (iPoint : nat) (U_inlet Psi_inlet : list R)
    : list R * list R * R :=
  let levelset := is_levelset (Kind_Solver config) in
  let U := <[0 := flow_Solution (flow_node flow !!! iPoint) !!! 0]> U_inlet in
  let Density_Inlet := DensityInc (flow_node flow !!! iPoint) in
  let U :=
    snd (for_loop 0 (nDim s) (fun iDim U =>
      <[iDim+1 := (Velocity_Inf flow !!! iDim * Density_Inlet)%R]> U) U) in
  let U :=
    if levelset
    then <[nDim s := flow_Solution (flow_node flow !!! iPoint) !!! (nDim s)]> U
    else U in
  let Psi := <[0 := Solution (node s !!! iPoint) !!! 0]> Psi_inlet in
  let Psi := snd (for_loop 0 (nDim s) (fun iDim Psi => <[iDim+1 := 0.0%R]> Psi) Psi) in
  (U, Psi, Density_Inlet).

(** One vertex of the inlet marker. [Density_Inlet] is a local of the
    function that only the incompressible branch assigns; it travels with
    the loop state. *)
Definition BC_Inlet_vertex (geometry : CGeometry) (flow : CFlowSolution)
    (config : CConfig) (val_marker iVertex : nat)
    (st : BCArrays * R * CNumerics * CAdjEulerSolution)
    : BCArrays * R * CNumerics * CAdjEulerSolution :=
  let '(mem, Density_Inlet, num, s) := st in
  let implicit := is_EULER_IMPLICIT (Kind_TimeIntScheme_AdjFlow config) in
  let vertex := (geo_vertex geometry !!! val_marker) !!! iVertex in
  let iPoint := vertex_Node vertex in
  if Domain (geo_node geometry !!! iPoint) then
    let Normal := outward_Normal (nDim s) vertex (bc_Normal mem) in
    let Area := vertex_Area (nDim s) Normal in
    let UnitaryNormal := vertex_UnitaryNormal (nDim s) Normal (bc_UnitaryNormal mem) in
    let U_domain :=
      vec_set_all (nVar s)
        (fun k _ => flow_Solution (flow_node flow !!! iPoint) !!! k) (bc_U_domain mem) in
    let Psi_domain :=
      vec_set_all (nVar s)
        (fun k _ => Solution (node s !!! iPoint) !!! k) (bc_Psi_domain mem) in
    let '(Velocity, U_inlet, Psi_inlet, Density_Inlet) :=
      if Incompressible config then
        let '(U, Psi, D) :=
          Inlet_incompressible flow config s iPoint (bc_U_ext mem) (bc_Psi_ext mem) in
        (bc_Velocity mem, U, Psi, D)
      else
        match Kind_Inlet config with
        | TOTAL_CONDITIONS =>
            let r := Inlet_total_conditions config s UnitaryNormal U_domain
                       (bc_Velocity mem) (bc_U_ext mem) (bc_Psi_ext mem) in
            (it_Velocity r, it_U_inlet r, it_Psi_inlet r, Density_Inlet)
        | MASS_FLOW =>
            let '(V, U, Psi) :=
              Inlet_mass_flow geometry flow config s iPoint vertex Area UnitaryNormal
                U_domain Psi_domain (bc_Velocity mem) (bc_U_ext mem) (bc_Psi_ext mem) in
            (V, U, Psi, Density_Inlet)
        end in
    let mem :=
      {| bc_Normal := Normal; bc_UnitaryNormal := UnitaryNormal;
         bc_Velocity := Velocity; bc_U_domain := U_domain; bc_U_ext := U_inlet;
         bc_Psi_domain := Psi_domain; bc_Psi_ext := Psi_inlet |} in
    let '(num, s) :=
      boundary_flux geometry flow config implicit iPoint vertex mem Density_Inlet num s in
    (mem, Density_Inlet, num, s)
  else (mem, Density_Inlet, num, s).

Definition BC_Inlet (geometry : CGeometry) (flow : CFlowSolution)
    (config : CConfig) (val_marker : nat)
    (st : BCArrays * R * CNumerics * CAdjEulerSolution)
    : BCArrays * R * CNumerics * CAdjEulerSolution :=
  snd (for_loop 0 (nVertex geometry val_marker)
         (BC_Inlet_vertex geometry flow config val_marker) st).

(** ** BC_Outlet (lines 3972-4245) *)

(** The incompressible outlet state (lines 4034-4069). [RatioDensity] is
    declared at line 3980 and never assigned: its value is whatever the
    stack holds, an input of the model. [Density_Outlet] is declared at line
    3981 without a value; with a level set it is assigned only off the
    interface band or inside it, so its previous value is an input too. *)
Definition Outlet_incompressible (geometry : CGeometry) (flow : CFlowSolution)
    (config : CConfig) (s : CAdjEulerSolution) (iPoint Point_Normal : nat)
    (RatioDensity Density_Outlet : R) (U_domain U_outlet Psi_outlet : list R)
    : list R * list R * R :=
  let FreeSurface_Zero := FreeSurface_Zero config in
  let PressFreeSurface := Pressure_Inf flow in
  let epsilon := FreeSurface_Thickness config in
  let Froude := Froude config in
  let levelset := is_levelset (Kind_Solver config) in
  let '(U, Density_Outlet) :=
    if levelset then
      let Height := Coord (geo_node geometry !!! iPoint) !!! (nDim s - 1) in
      let LevelSet := (Height - FreeSurface_Zero)%R in
      let Density_Outlet :=
        if Rlt_dec LevelSet (- epsilon) then Density_FreeStreamND config
        else Density_Outlet in
      let Density_Outlet :=
        if Rgt_dec LevelSet epsilon
        then (RatioDensity * Density_FreeStreamND config)%R
        else Density_Outlet in
      let U :=
        <[0 := (PressFreeSurface
                + Density_Outlet * ((FreeSurface_Zero - Height) / (Froude * Froude)))%R]>
          U_outlet in
      if Rle_dec (Rabs LevelSet) epsilon
      then (<[0 := flow_Solution (flow_node flow !!! Point_Normal) !!! 0]> U,
            DensityInc (flow_node flow !!! Point_Normal))
      else (U, Density_Outlet)
    else (<[0 := Pressure_Inf flow]> U_outlet, Density_Inf flow) in
  let U :=
    snd (for_loop 0 (nDim s) (fun iDim U =>
      <[iDim+1 := Solution (node s !!! Point_Normal) !!! (iDim+1)]> U) U) in
  let Psi := <[2 := 0.0%R]> Psi_outlet in
  let coeff :=
    ((2.0 * U_domain !!! 1%nat) / BetaInc2 (flow_node flow !!! Point_Normal))%R in
  let Psi := <[1 := Solution (node s !!! Point_Normal) !!! 1]> Psi in
  let Psi := <[0 := (- coeff * Psi !!! 1%nat)%R]> Psi in
  (U, Psi, Density_Outlet).

(** The interior velocity, its square and its normal component (lines
    4080-4086). *)
Definition domain_velocity_normal (n : nat) (U_domain UnitaryNormal Velocity : list R)
    : list R * R * R :=
  let Density := U_domain !!! 0 in
  snd (for_loop 0 n (fun iDim '(Velocity, Velocity2, Vn) =>
    let Velocity := <[iDim := (U_domain !!! (iDim+1)%nat / Density)%R]> Velocity in
    (Velocity,
     (Velocity2 + Velocity !!! iDim * Velocity !!! iDim)%R,
     (Vn + Velocity !!! iDim * UnitaryNormal !!! iDim)%R))
    (Velocity, 0.0%R, 0.0%R)).

(** The compressible outlet state (lines 4070-4193): the velocity array,
    [U_outlet] and [Psi_outlet]. *)
Definition Outlet_compressible (geometry : CGeometry) (config : CConfig)
    (s : CAdjEulerSolution) (iPoint : nat) (vertex : CVertex) (Area : R)
    (UnitaryNormal U_domain Psi_domain Velocity U_outlet Psi_outlet : list R)
    : list R * list R * list R :=
  let Gamma := Gamma s in
  let Gamma_Minus_One := Gamma_Minus_One s in
  let P_Exit := Outlet_Pressure config in
  let P_Exit := (P_Exit / Pressure_Ref config)%R in
  let Density := U_domain !!! 0 in
  let primitives := domain_velocity_normal (nDim s) U_domain UnitaryNormal Velocity in
  let Velocity := fst (fst primitives) in
  let Velocity2 := snd (fst primitives) in
  let Vn := snd primitives in
  let Energy := (U_domain !!! (nVar s - 1)%nat / Density)%R in
  let Pressure := (Gamma_Minus_One * Density * (Energy - 0.5 * Velocity2))%R in
  let SoundSpeed := sqrt (Gamma * Pressure / Density) in
  let Mach_Exit := (sqrt Velocity2 / SoundSpeed)%R in
  if Rge_dec Mach_Exit 1.0 then
    let states :=
      snd (for_loop 0 (nVar s) (fun iVar '(U, Psi) =>
        (<[iVar := U_domain !!! iVar]> U, <[iVar := 0.0%R]> Psi))
        (U_outlet, Psi_outlet)) in
    (Velocity, fst states, snd states)
  else
    let Entropy := (Pressure * Rpower (1.0 / Density) Gamma)%R in
    let Riemann := (Vn + 2.0 * SoundSpeed / Gamma_Minus_One)%R in
    let Density := Rpower (P_Exit / Entropy) (1.0 / Gamma) in
    let SoundSpeed := sqrt (Gamma * P_Exit / Density) in
    let Vn_Exit := (Riemann - 2.0 * SoundSpeed / Gamma_Minus_One)%R in
    let exterior :=
      snd (for_loop 0 (nDim s) (fun iDim '(Velocity, Velocity2) =>
        let Velocity :=
          <[iDim := (Velocity !!! iDim + (Vn_Exit - Vn) * UnitaryNormal !!! iDim)%R]>
            Velocity in
        (Velocity, (Velocity2 + Velocity !!! iDim * Velocity !!! iDim)%R))
        (Velocity, 0.0%R)) in
    let Velocity := fst exterior in
    let Velocity2 := snd exterior in
    let Energy := (P_Exit / (Density * Gamma_Minus_One) + 0.5 * Velocity2)%R in
    let U := <[0 := Density]> U_outlet in
    let U := <[1 := (Velocity !!! 0%nat * Density)%R]> U in
    let U := <[2 := (Velocity !!! 1%nat * Density)%R]> U in
    let U := <[3 := (Energy * Density)%R]> U in
    let U :=
      if nDim s =? 3
      then <[4 := (Energy * Density)%R]> (<[3 := (Velocity !!! 2%nat * Density)%R]> U)
      else U in
    let Vn :=
      snd (for_loop 0 (nDim s) (fun iDim Vn =>
        (Vn + Velocity !!! iDim * UnitaryNormal !!! iDim)%R) 0.0%R) in
    let Ubn := 0.0%R in
    let Ubn :=
      if Rotating_Frame config then (- vertex_RotFlux vertex / Area)%R else Ubn in
    let Ubn :=
      if Grid_Movement config then
        snd (for_loop 0 (nDim s) (fun iDim P =>
          (P + GridVel (geo_node geometry !!! iPoint) !!! iDim
               * UnitaryNormal !!! iDim)%R) 0.0%R)
      else Ubn in
    let a1 := (Gamma * (P_Exit / (Density * Gamma_Minus_One)) / (Vn - Ubn))%R in
    let Psi := <[nVar s - 1 := Psi_domain !!! (nVar s - 1)]> Psi_outlet in
    let Psi := <[0 := (0.5 * Psi !!! (nVar s - 1)%nat * Velocity2)%R]> Psi in
    let Psi :=
      snd (for_loop 0 (nDim s) (fun iDim Psi =>
        let Psi :=
          <[0 := (Psi !!! 0%nat
                  + Psi !!! (nVar s - 1)%nat * a1 * Velocity !!! iDim
                    * UnitaryNormal !!! iDim)%R]> Psi in
        <[iDim+1 := (- Psi !!! (nVar s - 1)%nat
                       * (a1 * UnitaryNormal !!! iDim + Velocity !!! iDim))%R]> Psi)
        Psi) in
    (Velocity, U, Psi).

(** One vertex of the outlet marker. The implicit flag is read from the
    time integration of the direct problem (line 3986). *)
Definition BC_Outlet_vertex (geometry : CGeometry) (flow : CFlowSolution)
    (config : CConfig) (RatioDensity : R) (val_marker iVertex : nat)
    (st : BCArrays * R * CNumerics * CAdjEulerSolution)
    : BCArrays * R * CNumerics * CAdjEulerSolution :=
  let '(mem, Density_Outlet, num, s) := st in
  let implicit := is_EULER_IMPLICIT (Kind_TimeIntScheme_Flow config) in
  let vertex := (geo_vertex geometry !!! val_marker) !!! iVertex in
  let iPoint := vertex_Node vertex in
  if Domain (geo_node geometry !!! iPoint) then
    let Normal := outward_Normal (nDim s) vertex (bc_Normal mem) in
    let Area := vertex_Area (nDim s) Normal in
    let UnitaryNormal := vertex_UnitaryNormal (nDim s) Normal (bc_UnitaryNormal mem) in
    let Point_Normal := Normal_Neighbor vertex in
    let U_domain :=
      vec_set_all (nVar s)
        (fun k _ => flow_Solution (flow_node flow !!! iPoint) !!! k) (bc_U_domain mem) in
    let Psi_domain :=
      vec_set_all (nVar s)
        (fun k _ => Solution (node s !!! iPoint) !!! k) (bc_Psi_domain mem) in
    let '(Velocity, U_outlet, Psi_outlet, Density_Outlet) :=
      if Incompressible config then
        let '(U, Psi, D) :=
          Outlet_incompressible geometry flow config s iPoint Point_Normal
            RatioDensity Density_Outlet U_domain (bc_U_ext mem) (bc_Psi_ext mem) in
        (bc_Velocity mem, U, Psi, D)
      else
        let '(V, U, Psi) :=
          Outlet_compressible geometry config s iPoint vertex Area UnitaryNormal
            U_domain Psi_domain (bc_Velocity mem) (bc_U_ext mem) (bc_Psi_ext mem) in
        (V, U, Psi, Density_Outlet) in
    let mem :=
      {| bc_Normal := Normal; bc_UnitaryNormal := UnitaryNormal;
         bc_Velocity := Velocity; bc_U_domain := U_domain; bc_U_ext := U_outlet;
         bc_Psi_domain := Psi_domain; bc_Psi_ext := Psi_outlet |} in
    let '(num, s) :=
      boundary_flux geometry flow config implicit iPoint vertex mem Density_Outlet num s in
    (mem, Density_Outlet, num, s)
  else (mem, Density_Outlet, num, s).

Definition BC_Outlet (geometry : CGeometry) (flow : CFlowSolution)
    (config : CConfig) (RatioDensity : R) (val_marker : nat)
    (st : BCArrays * R * CNumerics * CAdjEulerSolution)
    : BCArrays * R * CNumerics * CAdjEulerSolution :=
  snd (for_loop 0 (nVertex geometry val_marker)
         (BC_Outlet_vertex geometry flow config RatioDensity val_marker) st).

End InletOutlet.

(** A free-surface outlet: one owned vertex on node 0, which lies at height
    3 above a free surface at height 0 with interface half thickness 1. *)
Definition ex_outlet_geometry : CGeometry :=
  {| geo_nDim := 2;
     geo_node := [ex_point true 0 3 0; ex_point true 1 3 1];
     nPointDomain := 2;
     Global_nPointDomain := 2;
     geo_edge := [ {| edge_Node0 := 0; edge_Node1 := 1;
                      edge_Normal := [1; 0]%R; edge_RotFlux := 0 |} ];
     geo_vertex := [ [ {| vertex_Node := 0; vertex_Normal := [1; 0]%R;
                          Normal_Neighbor := 1; vertex_RotFlux := 0;
                          Rotation_Type := 0 |} ] ];
     FinestMGLevel := true |}.

Definition ex_config_of (solver : ENUM_SOLVER) (incompressible : bool)
    (markers : list ENUM_BOUNDARY) (objective : ENUM_OBJECTIVE) : CConfig :=
  {| Kind_TimeIntScheme_AdjFlow := EULER_IMPLICIT;
     Kind_TimeIntScheme_Flow := EULER_IMPLICIT;
     Kind_Adjoint := CONTINUOUS;
     Kind_Upwind := ROE_1ST;
     Kind_Centered := JST;
     Kind_ConvNumScheme := SPACE_UPWIND;
     Kind_SlopeLimit := NONE;
     Kind_Gradient_Method := GREEN_GAUSS;
     Kind_Inlet := TOTAL_CONDITIONS;
     Kind_Solver := solver;
     Kind_ObjFunc := objective;
     Kind_Linear_Solver := LU_SGS;
     Kind_Linear_Solver_Prec := JACOBI;
     Linear_Solver_Error := 0;
     Linear_Solver_Iter := 10;
     Restart := true;
     Incompressible := incompressible;
     Rotating_Frame := false;
     Grid_Movement := false;
     Alpha_RKStep := fun _ => 1%R;
     Beta_RKStep := fun _ => 1%R;
     Solution_AdjFileName := "solution_adj.dat";
     Marker_All_Boundary := markers;
     Marker_All_SendRecv := [0%Z];
     PeriodicRotation := fun _ => [0; 0; 0]%R;
     Gas_Constant := 1; Gas_Constant_Ref := 1; Pressure_Ref := 1;
     Temperature_Ref := 1; Density_Ref := 1; Velocity_Ref := 1;
     Density_FreeStreamND := 1; FreeSurface_Zero := 0;
     FreeSurface_Thickness := 1; Froude := 1;
     Inlet_Ptotal := 1; Inlet_Ttotal := 1; Inlet_FlowDir := [1; 0]%R;
     Outlet_Pressure := 1 |}.

Definition ex_freesurface_config : CConfig :=
  ex_config_of ADJ_FREE_SURFACE_EULER true [OTHER_BOUNDARY] FREESURFACE.

Definition ex_arrays : BCArrays :=
  {| bc_Normal := [0; 0]%R; bc_UnitaryNormal := [0; 0; 0]%R;
     bc_Velocity := [0; 0; 0]%R; bc_U_domain := [0; 0; 0; 0]%R;
     bc_U_ext := [0; 0; 0; 0]%R; bc_Psi_domain := [0; 0; 0; 0]%R;
     bc_Psi_ext := [0; 0; 0; 0]%R |}.

(** ** Smooth_Sensitivity (lines 2549-2670) *)

(** [A[i][j] = x] on an array of rows. *)
Definition mat_set (i j : nat) (x : R) (A : list (list R)) : list (list R) :=
  alter (fun row => <[j := x]> row) i A.

(** Modelled from the spec: Gauss_Elimination is a member of the base class
    and its source is absent; the specification says the smoothing system is
    "solved by full Gaussian elimination". This is the elimination without
    pivoting: the rows below each pivot are reduced, then the unknowns are
    found by back substitution, the solution replacing the right-hand
    side. *)
Definition Gauss_reduce_row (n j : nat) (weight : R) (row_j row_i : list R) : list R :=
  snd (for_loop j n (fun k row =>
    <[k := (row !!! k - weight * row_j !!! k)%R]> row) row_i).

Definition Gauss_forward (n : nat) (st : list (list R) * list R)
    : list (list R) * list R :=
  snd (for_loop 0 n (fun j st =>
    snd (for_loop (j+1) n (fun i '(A, b) =>
      let weight := ((A !!! i) !!! j / (A !!! j) !!! j)%R in
      (<[i := Gauss_reduce_row n j weight (A !!! j) (A !!! i)]> A,
       <[i := (b !!! i - weight * b !!! j)%R]> b)) st)) st).

Definition Gauss_backward (n : nat) (A : list (list R)) (b : list R) : list R :=
  snd (for_loop 0 n (fun d b =>
    let i := n - 1 - d in
    let aux :=
      snd (for_loop (i+1) n (fun k aux =>
        (aux + (A !!! i) !!! k * b !!! k)%R) 0%R) in
    <[i := ((b !!! i - aux) / (A !!! i) !!! i)%R]> b) b).

Definition Gauss_Elimination (A : list (list R)) (b : list R) (n : nat)
    : list (list R) * list R :=
  let '(A, b) := Gauss_forward n (A, b) in
  (A, Gauss_backward n A b).

(** "Set the arch length" (lines 2573-2582). *)
Definition Smooth_ArchLength (geometry : CGeometry) (iMarker : nat) : list R :=
  let nVertex := nVertex geometry iMarker in
  let ArchLength := replicate nVertex 0.0%R in
  let ArchLength := <[0 := 0.0%R]> ArchLength in
  snd (for_loop 1 nVertex (fun iVertex ArchLength =>
    let iPoint := vertex_Node ((geo_vertex geometry !!! iMarker) !!! (iVertex-1)) in
    let Coord_begin := Coord (geo_node geometry !!! iPoint) in
    let iPoint := vertex_Node ((geo_vertex geometry !!! iMarker) !!! iVertex) in
    let Coord_end := Coord (geo_node geometry !!! iPoint) in
    let dist :=
      sqrt ((Coord_end !!! 0%nat - Coord_begin !!! 0%nat) ^ 2
            + (Coord_end !!! 1%nat - Coord_begin !!! 1%nat) ^ 2) in
    <[iVertex := (ArchLength !!! (iVertex-1)%nat + dist)%R]> ArchLength) ArchLength).

(** The two searches with [break] (lines 2585-2594): the sensitivity of the
    first vertex whose arc length exceeds the given fraction of the total
    length, 0.0 when there is none. *)
Definition Smooth_first_beyond (nVertex : nat) (ArchLength Sens : list R)
    (fraction : R) : R :=
  snd (snd (for_loop 0 nVertex (fun iVertex '(found, Min) =>
    if (found : bool) then (found, Min)
    else if Rgt_dec (ArchLength !!! iVertex)
                    (ArchLength !!! (nVertex-1)%nat * fraction)
         then (true, Sens !!! iVertex)
         else (found, Min)) (false, 0.0%R))).

(** "Remove the trailing edge effect" (lines 2584-2601): the sensitivities
    of the marker after the first and last hundredth of the arc length have
    been flattened. *)
Definition Smooth_flatten (geometry : CGeometry) (iMarker : nat) (Sens : list R)
    : list R :=
  let nVertex := nVertex geometry iMarker in
  let ArchLength := Smooth_ArchLength geometry iMarker in
  let MinNegSens := Smooth_first_beyond nVertex ArchLength Sens 0.01 in
  let MinPosSens := Smooth_first_beyond nVertex ArchLength Sens 0.99 in
  snd (for_loop 0 nVertex (fun iVertex Sens =>
    let Sens :=
      if Rlt_dec (ArchLength !!! iVertex) (ArchLength !!! (nVertex-1)%nat * 0.01)
      then <[iVertex := MinNegSens]> Sens else Sens in
    if Rgt_dec (ArchLength !!! iVertex) (ArchLength !!! (nVertex-1)%nat * 0.99)
    then <[iVertex := MinPosSens]> Sens else Sens) Sens).

(** "Set the mass matrix", the unit added to the diagonal and the Dirichlet
    condition at the middle vertex (lines 2608-2650). *)
Definition Smooth_mass_matrix (nVertex : nat) (ArchLength : list R)
    (A : list (list R)) : list (list R) :=
  let epsilon := 5E-5%R in
  fst (snd (for_loop 0 nVertex (fun iVertex '(A, (BackDiff, ForwDiff, CentDiff)) =>
    let '(BackDiff, ForwDiff, CentDiff) :=
      if negb (iVertex =? nVertex-1) && negb (iVertex =? 0) then
        ((ArchLength !!! iVertex - ArchLength !!! (iVertex-1)%nat)%R,
         (ArchLength !!! (iVertex+1)%nat - ArchLength !!! iVertex)%R,
         (ArchLength !!! (iVertex+1)%nat - ArchLength !!! (iVertex-1)%nat)%R)
      else (BackDiff, ForwDiff, CentDiff) in
    let '(BackDiff, ForwDiff, CentDiff) :=
      if iVertex =? nVertex-1 then
        ((ArchLength !!! (nVertex-1)%nat - ArchLength !!! (nVertex-2)%nat)%R,
         (ArchLength !!! 0%nat - ArchLength !!! (nVertex-1)%nat)%R,
         (ArchLength !!! 0%nat - ArchLength !!! (nVertex-2)%nat)%R)
      else (BackDiff, ForwDiff, CentDiff) in
    let '(BackDiff, ForwDiff, CentDiff) :=
      if iVertex =? 0 then
        ((ArchLength !!! 0%nat - ArchLength !!! (nVertex-1)%nat)%R,
         (ArchLength !!! 1%nat - ArchLength !!! 0%nat)%R,
         (ArchLength !!! 1%nat - ArchLength !!! (nVertex-1)%nat)%R)
      else (BackDiff, ForwDiff, CentDiff) in
    let Coeff := (epsilon * 2.0 / (BackDiff * ForwDiff * CentDiff))%R in
    let A := mat_set iVertex iVertex (Coeff * CentDiff)%R A in
    let A :=
      if negb (iVertex =? 0) then mat_set iVertex (iVertex-1) (- Coeff * ForwDiff)%R A
      else mat_set iVertex (nVertex-1) (- Coeff * ForwDiff)%R A in
    let A :=
      if negb (iVertex =? nVertex-1)
      then mat_set iVertex (iVertex+1) (- Coeff * BackDiff)%R A
      else mat_set iVertex 0 (- Coeff * BackDiff)%R A in
    (A, (BackDiff, ForwDiff, CentDiff))) (A, (0.0%R, 0.0%R, 0.0%R)))).

Definition Smooth_matrix (geometry : CGeometry) (iMarker : nat) : list (list R) :=
  let nVertex := nVertex geometry iMarker in
  let ArchLength := Smooth_ArchLength geometry iMarker in
  let A := replicate nVertex (replicate nVertex 0.0%R) in
  let A := Smooth_mass_matrix nVertex ArchLength A in
  let A :=
    snd (for_loop 0 nVertex (fun iVertex A =>
      mat_set iVertex iVertex ((A !!! iVertex) !!! iVertex + 1.0)%R A) A) in
  let iVertex := nVertex / 2 in
  let A := mat_set iVertex iVertex 1.0%R A in
  let A := mat_set iVertex (iVertex+1) 0.0%R A in
  mat_set iVertex (iVertex-1) 0.0%R A.

(** The right-hand side of the system (lines 2603-2606), from the flattened
    sensitivities. *)
Definition Smooth_rhs (geometry : CGeometry) (iMarker : nat) (Sens : list R)
    : list R :=
  let nVertex := nVertex geometry iMarker in
  let b := replicate nVertex 0.0%R in
  vec_set_all nVertex (fun iVertex _ => Sens !!! iVertex) b.

(** What Smooth_Sensitivity does to the sensitivities of one wall marker. *)
Definition Smooth_marker (geometry : CGeometry) (iMarker : nat) (Sens : list R)
    : list R :=
  let nVertex := nVertex geometry iMarker in
  let Sens := Smooth_flatten geometry iMarker Sens in
  let b := Smooth_rhs geometry iMarker Sens in
  let A := Smooth_matrix geometry iMarker in
  let '(A, b) := Gauss_Elimination A b nVertex in
  vec_set_all nVertex (fun iVertex _ => b !!! iVertex) Sens.

Definition Smooth_Sensitivity (geometry : CGeometry) (config : CConfig)
    (s : CAdjEulerSolution) : CAdjEulerSolution :=
  snd (for_loop 0 (nMarker_All config) (fun iMarker s =>
    if is_EULER_WALL (Marker_All_Boundary config !!! iMarker)
    then with_CSensitivity
           (alter (Smooth_marker geometry iMarker) iMarker (CSensitivity s)) s
    else s) s).

(** A wall marker of four vertices along the x axis. *)
Definition ex_wall_geometry : CGeometry :=
  {| geo_nDim := 2;
     geo_node := [ex_point true 0 0 0; ex_point true 1 0 1;
                  ex_point true 2 0 2; ex_point true 3 0 3];
     nPointDomain := 4;
     Global_nPointDomain := 4;
     geo_edge := [];
     geo_vertex :=
       [ map (fun k => {| vertex_Node := k; vertex_Normal := [0; 1]%R;
                          Normal_Neighbor := k; vertex_RotFlux := 0;
                          Rotation_Type := 0 |}) [0; 1; 2; 3] ];
     FinestMGLevel := true |}.

Definition ex_wall_config : CConfig :=
  ex_config_of OTHER_SOLVER false [EULER_WALL] DRAG_COEFFICIENT.

(** A row of the identity: 1 at [m], 0 at the other columns below [n]. *)
Definition unit_row (n m : nat) (row : list R) : Prop :=
  row !!! m = 1%R /\ forall k, k < n -> k <> m -> row !!! k = 0%R.

(** Row [m] of the smoothing matrix is zero away from the three diagonals. *)
Definition banded_row (n m : nat) (A : list (list R)) : Prop :=
  length A = n /\ length (A !!! m) = n /\
  forall k, k < n -> k <> m -> k <> m - 1 -> k <> m + 1 -> (A !!! m) !!! k = 0%R.

(** ** The constructor: instantiation of the nodes (lines 153-255) *)

(** CAdjEulerVariable is declared elsewhere; a node is recorded by the
    arguments of the constructor that instantiated it. *)
Inductive NodeInit :=
  | FromInfinity (PsiRho : R) (Phi : list R) (PsiE : R)
  | FromSolution (Solution : list R).

(** The two ways the constructor ends: [exit(1)] after the messages written
    to [cout] (and a key read from [cin]), or the array of nodes, an entry
    being [None] while the pointer has not been assigned. *)
Inductive Outcome :=
  | Exit (code : Z) (cout : list string)
  | Constructed (node : list (option NodeInit)).

(** The [switch] of lines 172-191. *)
Definition AdjExt (objective : ENUM_OBJECTIVE) : string :=
  match objective with
  | DRAG_COEFFICIENT => "_cd.dat"
  | LIFT_COEFFICIENT => "_cl.dat"
  | SIDEFORCE_COEFFICIENT => "_csf.dat"
  | PRESSURE_COEFFICIENT => "_cp.dat"
  | MOMENT_X_COEFFICIENT => "_cmx.dat"
  | MOMENT_Y_COEFFICIENT => "_cmy.dat"
  | MOMENT_Z_COEFFICIENT => "_cmz.dat"
  | EFFICIENCY => "_eff.dat"
  | EQUIVALENT_AREA => "_ea.dat"
  | NEARFIELD_PRESSURE => "_nfp.dat"
  | FORCE_X_COEFFICIENT => "_cfx.dat"
  | FORCE_Y_COEFFICIENT => "_cfy.dat"
  | FORCE_Z_COEFFICIENT => "_cfz.dat"
  | THRUST_COEFFICIENT => "_ct.dat"
  | TORQUE_COEFFICIENT => "_cq.dat"
  | FIGURE_OF_MERIT => "_merit.dat"
  | FREESURFACE => "_fs.dat"
  | NOISE => "_fwh.dat"
  end%string.

Definition all_objectives : list ENUM_OBJECTIVE :=
  [DRAG_COEFFICIENT; LIFT_COEFFICIENT; SIDEFORCE_COEFFICIENT; PRESSURE_COEFFICIENT;
   MOMENT_X_COEFFICIENT; MOMENT_Y_COEFFICIENT; MOMENT_Z_COEFFICIENT; EFFICIENCY;
   EQUIVALENT_AREA; NEARFIELD_PRESSURE; FORCE_X_COEFFICIENT; FORCE_Y_COEFFICIENT;
   FORCE_Z_COEFFICIENT; THRUST_COEFFICIENT; TORQUE_COEFFICIENT; FIGURE_OF_MERIT;
   FREESURFACE; NOISE].

(** [filename.assign(mesh_filename); filename.erase(end-4, end);
    filename.append(AdjExt)] (lines 167-192). *)
Definition restart_filename (config : CConfig) : string :=
  let mesh_filename := Solution_AdjFileName config in
  let filename := mesh_filename in
  let filename := String.substring 0 (String.length filename - 4) filename in
  String.append filename (AdjExt (Kind_ObjFunc config)).

(** The index transformation of lines 204-213. *)
Definition Global2Local (geometry : CGeometry) : list Z :=
  let G := replicate (Global_nPointDomain geometry) (-1)%Z in
  snd (for_loop 0 (nPointDomain geometry) (fun iPoint G =>
    <[GlobalIndex (geo_node geometry !!! iPoint) := Z.of_nat iPoint]> G) G).

(** [point_line >> Solution[k]]: the next number of the line, [tokens]
    being the numbers of the line in order (the first one is the index).
    When the line has no such number the extraction fails and the entry is
    left as it was. *)
Definition extract (k : nat) (tokens Solution : list R) : list R :=
  match tokens !! (k + 1) with
  | Some x => <[k := x]> Solution
  | None => Solution
  end.

(** Lines 230-237. *)
Definition read_solution (incompressible : bool) (nDim : nat)
    (tokens Solution : list R) : list R :=
  if incompressible then
    let Solution :=
      if nDim =? 2
      then extract 2 tokens (extract 1 tokens (extract 0 tokens Solution))
      else Solution in
    if nDim =? 3
    then extract 3 tokens (extract 2 tokens (extract 1 tokens (extract 0 tokens Solution)))
    else Solution
  else
    let Solution :=
      if nDim =? 2
      then extract 3 tokens (extract 2 tokens (extract 1 tokens (extract 0 tokens Solution)))
      else Solution in
    if nDim =? 3
    then extract 4 tokens (extract 3 tokens (extract 2 tokens
           (extract 1 tokens (extract 0 tokens Solution))))
    else Solution.

Section Restart.

(** The file system: the lines of the file of a given name, if it can be
    opened; and the numbers that the stream extractions find in a line. *)
Variable open : string -> option (list string).
Variable numbers : string -> list R.

(** The body of the [while (getline ...)] loop (lines 221-241). A line
    beyond the end of [Global2Local] would read past the array, which C++
    leaves undefined; the model skips it. *)
Definition restart_line (incompressible : bool) (nDim : nat) (G2L : list Z)
    (st : nat * list (option NodeInit) * list R) (text_line : string)
    : nat * list (option NodeInit) * list R :=
  let '(iPoint_Global, node, Solution) := st in
  let iPoint_Local :=
    match G2L !! iPoint_Global with Some l => l | None => (-1)%Z end in
  if (0 <=? iPoint_Local)%Z then
    let Solution := read_solution incompressible nDim (numbers text_line) Solution in
    (iPoint_Global + 1,
     <[Z.to_nat iPoint_Local := Some (FromSolution Solution)]> node,
     Solution)
  else (iPoint_Global + 1, node, Solution).

(** Lines 204-248 on the lines of an opened file: the header is read and
    dropped, every further line is handed to [restart_line], and the halo
    nodes are instantiated from the last content of [Solution]. *)
Definition restart_from_lines (geometry : CGeometry) (config : CConfig)
    (lines : list string) (node : list (option NodeInit)) (Solution : list R)
    : list (option NodeInit) :=
  let incompressible := Incompressible config in
  let nDim := geo_nDim geometry in
  let G2L := Global2Local geometry in
  let data := tail lines in
  let '(iPoint_Global, node, Solution) :=
    fold_left (restart_line incompressible nDim G2L) data (0, node, Solution) in
  snd (for_loop (nPointDomain geometry) (nPoint geometry) (fun iPoint node =>
    <[iPoint := Some (FromSolution Solution)]> node) node).

(** The instantiation of the nodes by the constructor. [node], [Solution]
    and [Phi_Inf] are the arrays as allocated at lines 47, 58 and 155. *)
Definition Constructor_nodes (geometry : CGeometry) (config : CConfig)
    (node : list (option NodeInit)) (Solution Phi_Inf : list R) : Outcome :=
  let restart := Restart config in
  let nDim := geo_nDim geometry in
  let PsiRho_Inf := 0.0%R in
  let PsiE_Inf := 0.0%R in
  let Phi_Inf := <[1 := 0.0%R]> (<[0 := 0.0%R]> Phi_Inf) in
  let Phi_Inf := if nDim =? 3 then <[2 := 0.0%R]> Phi_Inf else Phi_Inf in
  if negb restart || negb (FinestMGLevel geometry) then
    Constructed
      (snd (for_loop 0 (nPoint geometry) (fun iPoint node =>
         <[iPoint := Some (FromInfinity PsiRho_Inf Phi_Inf PsiE_Inf)]> node) node))
  else
    match open (restart_filename config) with
    | None =>
        Exit 1 ["There is no adjoint restart file!!"%string;
                "Press any key to exit..."%string]
    | Some lines =>
        Constructed (restart_from_lines geometry config lines node Solution)
    end.

End Restart.

(** A restart file for the drag objective on the two-point mesh: a header
    and one line for the point of global index 0. *)
Definition ex_open (name : string) : option (list string) :=
  if String.eqb name "solution_adj_cd.dat"
  then Some ["header"; "0 1 2 3 4"]%string
  else None.

Definition ex_numbers (line : string) : list R :=
  if String.eqb line "0 1 2 3 4" then [0; 1; 2; 3; 4]%R else [].

(** A primal flow that is supersonic at every node (velocity 3, speed of
    sound 1 with Gamma = 2). *)
Definition ex_supersonic_flow : CFlowSolution :=
  {| flow_node :=
       replicate 2
         {| flow_Solution := [1; 3; 0; 5]%R; DensityInc := 1; BetaInc2 := 1;
            SoundSpeed := 1; Enthalpy := 1; Lambda := 1; flow_Sensor := 0;
            Delta_Time := 1; flow_Velocity := [3; 0]%R; flow_Pressure := 1 |};
     Density_Inf := 1; Pressure_Inf := 1; Velocity_Inf := [3; 0]%R;
     Density_Velocity_Inf := [3; 0]%R; Density_Energy_Inf := 5 |}.

(** * Properties *)

(** ** Loops *)

Lemma for_count_fst {S : Type} (n i : nat) (body : nat -> S -> S) (s : S) :
  fst (for_count n i body s) = i + n.
Proof.
  revert i s. induction n as [|n IH]; intros i s; simpl.
  - lia.
  - rewrite IH. lia.
Qed.

Lemma for_loop_exit {S : Type} (lo hi : nat) (body : nat -> S -> S) (s : S) :
  lo <= hi -> fst (for_loop lo hi body s) = hi.
Proof. intros H. unfold for_loop. rewrite for_count_fst. lia. Qed.

Lemma for_count_inv {S : Type} (P : nat -> S -> Prop) (n i : nat)
    (body : nat -> S -> S) (s : S) :
  P i s ->
  (forall k st, i <= k < i + n -> P k st -> P (Datatypes.S k) (body k st)) ->
  P (i + n) (snd (for_count n i body s)).
Proof.
  revert i s. induction n as [|n IH]; intros i s H0 Hstep; simpl.
  - replace (i + 0) with i by lia. exact H0.
  - replace (i + Datatypes.S n) with (Datatypes.S i + n) by lia.
    apply IH.
    + apply Hstep; [lia | exact H0].
    + intros k st Hk. apply Hstep. lia.
Qed.

(** The invariant rule of a [for] loop whose range is not empty or is
    entered with [lo <= hi]. *)
Lemma for_loop_inv {S : Type} (P : nat -> S -> Prop) (lo hi : nat)
    (body : nat -> S -> S) (s : S) :
  lo <= hi ->
  P lo s ->
  (forall k st, lo <= k < hi -> P k st -> P (Datatypes.S k) (body k st)) ->
  P hi (snd (for_loop lo hi body s)).
Proof.
  intros Hle H0 Hstep. unfold for_loop.
  replace hi with (lo + (hi - lo)) at 1 by lia.
  apply for_count_inv; [exact H0 |].
  intros k st Hk. apply Hstep. lia.
Qed.

(** An invariant that does not mention the counter. *)
Lemma for_loop_preserves {S : Type} (P : S -> Prop) (lo hi : nat)
    (body : nat -> S -> S) (s : S) :
  P s ->
  (forall k st, lo <= k < hi -> P st -> P (body k st)) ->
  P (snd (for_loop lo hi body s)).
Proof.
  intros H0 Hstep. unfold for_loop.
  apply (for_count_inv (fun _ st => P st) (hi - lo) lo body s H0).
  intros k st Hk. apply Hstep. lia.
Qed.

Lemma for_loop_empty {S : Type} (lo hi : nat) (body : nat -> S -> S) (s : S) :
  hi <= lo -> for_loop lo hi body s = (lo, s).
Proof. intros H. unfold for_loop. replace (hi - lo) with 0 by lia. reflexivity. Qed.

Lemma for_count_fold {S : Type} (n i : nat) (body : nat -> S -> S) (s : S) :
  snd (for_count n i body s) = fold_left (fun s k => body k s) (seq i n) s.
Proof.
  revert i s. induction n as [|n IH]; intros i s; simpl; [reflexivity | apply IH].
Qed.

Lemma for_loop_fold {S : Type} (n : nat) (body : nat -> S -> S) (s : S) :
  snd (for_loop 0 n body s) = fold_left (fun s k => body k s) (seq 0 n) s.
Proof. unfold for_loop. rewrite Nat.sub_0_r. apply for_count_fold. Qed.

Lemma fold_left_seq_ext {S : Type} (f g : S -> nat -> S) (n : nat) (a : S) :
  (forall d acc, d < n -> f acc d = g acc d) ->
  fold_left f (seq 0 n) a = fold_left g (seq 0 n) a.
Proof.
  intros H. induction n as [|n IH]; [reflexivity |].
  rewrite seq_S, !fold_left_app. simpl.
  rewrite IH by (intros d acc Hd; apply H; lia). apply H. lia.
Qed.

Lemma for_loop_last {S : Type} (n : nat) (body : nat -> S -> S) (s : S) :
  snd (for_loop 0 (Datatypes.S n) body s) = body n (snd (for_loop 0 n body s)).
Proof. rewrite !for_loop_fold, seq_S, fold_left_app. reflexivity. Qed.

(** ** Arrays *)

Lemma vec_set_all_spec (n : nat) (g : nat -> R -> R) (x : list R) :
  length (vec_set_all n g x) = length x /\
  forall k, k < length x ->
    vec_set_all n g x !! k = Some (if k <? n then g k (x !!! k) else x !!! k).
Proof.
  unfold vec_set_all.
  apply (for_loop_inv (fun i y =>
    length y = length x /\
    forall k, k < length x ->
      y !! k = Some (if k <? i then g k (x !!! k) else x !!! k))).
  - lia.
  - split; [reflexivity |]. intros k Hk. simpl.
    rewrite list_lookup_total_alt.
    destruct (lookup_lt_is_Some_2 x k Hk) as [v Hv]. rewrite Hv. reflexivity.
  - intros i y Hi [Hlen Hy]. split.
    + rewrite length_insert. exact Hlen.
    + intros k Hk. destruct (decide (k = i)) as [->|Hne].
      * rewrite list_lookup_insert_eq by lia.
        replace (i <? Datatypes.S i) with true by (symmetry; apply Nat.ltb_lt; lia).
        f_equal. f_equal.
        rewrite (list_lookup_total_alt y), (Hy i Hk).
        replace (i <? i) with false by (symmetry; apply Nat.ltb_ge; lia).
        reflexivity.
      * rewrite list_lookup_insert_ne by congruence.
        rewrite (Hy k Hk).
        destruct (Nat.ltb_spec k i), (Nat.ltb_spec k (Datatypes.S i));
          try reflexivity; lia.
Qed.

Lemma vec_set_all_length (n : nat) (g : nat -> R -> R) (x : list R) :
  length (vec_set_all n g x) = length x.
Proof. apply vec_set_all_spec. Qed.

Lemma vec_set_all_lookup (n : nat) (g : nat -> R -> R) (x : list R) (k : nat) :
  k < n -> k < length x -> vec_set_all n g x !! k = Some (g k (x !!! k)).
Proof.
  intros Hn Hk. rewrite (proj2 (vec_set_all_spec n g x) k Hk).
  replace (k <? n) with true by (symmetry; apply Nat.ltb_lt; lia). reflexivity.
Qed.

Lemma vec_set_all_lookup_total (n : nat) (g : nat -> R -> R) (x : list R) (k : nat) :
  k < n -> k < length x -> vec_set_all n g x !!! k = g k (x !!! k).
Proof.
  intros Hn Hk. rewrite list_lookup_total_alt, vec_set_all_lookup by assumption.
  reflexivity.
Qed.

(** ** The residual accumulators under the time-integration drivers *)

Lemma at_node_accumulators (i : nat) (f : CVariable -> CVariable)
    (s : CAdjEulerSolution) :
  (forall v, accumulators (f v) = accumulators v) ->
  accumulators <$> node (at_node i f s) = accumulators <$> node s.
Proof.
  intros Hf. simpl. apply list_eq. intros k.
  rewrite !list_lookup_fmap.
  destruct (decide (k = i)) as [->|Hne].
  - rewrite list_lookup_alter_eq. destruct (node s !! i); simpl; [|reflexivity].
    rewrite Hf. reflexivity.
  - rewrite list_lookup_alter_ne by congruence. reflexivity.
Qed.

Lemma nVar_at_node (i : nat) (f : CVariable -> CVariable) (s : CAdjEulerSolution) :
  nVar (at_node i f s) = nVar s.
Proof. reflexivity. Qed.

Lemma AddRes_Max_fields (iVar : nat) (val : R) (point : nat) (s : CAdjEulerSolution) :
  node (AddRes_Max iVar val point s) = node s /\
  nVar (AddRes_Max iVar val point s) = nVar s /\
  rhs (AddRes_Max iVar val point s) = rhs s /\
  xsol (AddRes_Max iVar val point s) = xsol s /\
  Jacobian (AddRes_Max iVar val point s) = Jacobian s.
Proof. unfold AddRes_Max. destruct (Rlt_dec _ _); auto. Qed.

Lemma reset_residual_norms_fields (s : CAdjEulerSolution) :
  node (reset_residual_norms s) = node s /\
  nVar (reset_residual_norms s) = nVar s /\
  rhs (reset_residual_norms s) = rhs s /\
  xsol (reset_residual_norms s) = xsol s /\
  Jacobian (reset_residual_norms s) = Jacobian s.
Proof.
  unfold reset_residual_norms.
  apply (for_loop_preserves (fun st =>
    node st = node s /\ nVar st = nVar s /\ rhs st = rhs s /\
    xsol st = xsol s /\ Jacobian st = Jacobian s)).
  - auto.
  - intros k st _ H. exact H.
Qed.

Section TimeIntegrationFacts.

Variable MPI_Recv : option (nat -> list R).
Variable SetResidual_RMS : CGeometry -> CConfig -> list R -> list R.

Lemma transform_vertex_accumulators geometry config iMarker iVertex st :
  accumulators <$> node (snd (transform_vertex geometry config iMarker iVertex st))
  = accumulators <$> node (snd st).
Proof.
  destruct st as [[nS B] s]. unfold transform_vertex. cbv zeta. simpl snd.
  apply (for_loop_preserves (fun st =>
    accumulators <$> node st = accumulators <$> node s)).
  - reflexivity.
  - intros k st _ H. rewrite at_node_accumulators; [exact H |].
    intros v. reflexivity.
Qed.

Lemma SetSolution_MPI_accumulators geometry config s :
  accumulators <$> node (SetSolution_MPI MPI_Recv geometry config s)
  = accumulators <$> node s.
Proof.
  unfold SetSolution_MPI.
  apply (for_loop_preserves (fun st : list R * CAdjEulerSolution =>
    accumulators <$> node (snd st) = accumulators <$> node s)).
  - reflexivity.
  - intros iMarker [nS st] _ H. simpl in H.
    destruct (is_SEND_RECEIVE _); [|exact H].
    destruct (_ <? _)%Z; [|exact H].
    match goal with
    | |- context [for_loop 0 ?n ?body ?init] =>
        pose proof (for_loop_preserves (fun t : list R * list R * CAdjEulerSolution =>
          accumulators <$> node (snd t) = accumulators <$> node s) 0 n body init) as HP;
        destruct (snd (for_loop 0 n body init)) as [[nS' B'] s']
    end.
    simpl in *. apply HP.
    + exact H.
    + intros k t _ Ht. rewrite transform_vertex_accumulators. exact Ht.
Qed.

Lemma finish_iteration_accumulators geometry config s :
  accumulators <$> node (finish_iteration MPI_Recv SetResidual_RMS geometry config s)
  = accumulators <$> node s.
Proof. unfold finish_iteration. simpl. apply SetSolution_MPI_accumulators. Qed.

Lemma ExplicitRK_update_accumulators geometry flow config iRKStep s :
  accumulators <$> node (ExplicitRK_update geometry flow config iRKStep s)
  = accumulators <$> node s.
Proof.
  unfold ExplicitRK_update.
  apply (for_loop_preserves (fun st =>
    accumulators <$> node st = accumulators <$> node s)).
  - rewrite (proj1 (reset_residual_norms_fields s)). reflexivity.
  - intros iPoint st _ H.
    apply (for_loop_preserves (fun st =>
      accumulators <$> node st = accumulators <$> node s)); [exact H |].
    intros iVar st' _ H'.
    rewrite (proj1 (AddRes_Max_fields _ _ _ _)). simpl.
    rewrite <- H'. apply (at_node_accumulators _ _ st'). intros v. reflexivity.
Qed.

Lemma ExplicitEuler_update_accumulators geometry flow config s :
  accumulators <$> node (ExplicitEuler_update geometry flow config s)
  = accumulators <$> node s.
Proof.
  unfold ExplicitEuler_update.
  apply (for_loop_preserves (fun st =>
    accumulators <$> node st = accumulators <$> node s)).
  - rewrite (proj1 (reset_residual_norms_fields s)). reflexivity.
  - intros iPoint st _ H.
    apply (for_loop_preserves (fun st =>
      accumulators <$> node st = accumulators <$> node s)); [exact H |].
    intros iVar st' _ H'.
    rewrite (proj1 (AddRes_Max_fields _ _ _ _)). simpl.
    rewrite <- H'. apply (at_node_accumulators _ _ st'). intros v. reflexivity.
Qed.

End TimeIntegrationFacts.

(** ** Nested loops over the flat arrays [rhs] and [xsol] *)

(** A double loop [for p in [lo,hi): pre; for v in [0,nVar): x[p*nVar+v] = F p v],
    seen through a projection [get] of the state. *)
Lemma flat_fill_inv {S : Type} (I : S -> Prop) (get : S -> list R)
    (nV : S -> nat) (n : nat) (F : nat -> nat -> R)
    (pre : nat -> S -> S) (body : nat -> nat -> S -> S) (lo hi : nat) (s : S) :
  lo <= hi ->
  I s ->
  (forall st, I st -> nV st = n) ->
  (forall p st, I st -> I (pre p st) /\ get (pre p st) = get st) ->
  (forall p v st, I st ->
     I (body p v st) /\ get (body p v st) = <[p*n+v := F p v]> (get st)) ->
  let st' := snd (for_loop lo hi (fun p st =>
                snd (for_loop 0 (nV (pre p st)) (fun v st => body p v st) (pre p st))) s) in
  I st' /\ length (get st') = length (get s) /\
  forall p v, v < n -> p*n+v < length (get s) ->
    get st' !! (p*n+v)
    = Some (if (lo <=? p) && (p <? hi) then F p v else get s !!! (p*n+v)).
Proof.
  intros Hle HI HnV Hpre Hbody. cbv zeta.
  apply (for_loop_inv (fun k st =>
    I st /\ length (get st) = length (get s) /\
    forall p v, v < n -> p*n+v < length (get s) ->
      get st !! (p*n+v)
      = Some (if (lo <=? p) && (p <? k) then F p v else get s !!! (p*n+v))));
    [exact Hle | |].
  - split; [exact HI |]. split; [reflexivity |]. intros p v Hv Hq.
    replace ((lo <=? p) && (p <? lo)) with false.
    + rewrite list_lookup_total_alt.
      destruct (lookup_lt_is_Some_2 (get s) _ Hq) as [x Hx]. rewrite Hx. reflexivity.
    + symmetry. apply andb_false_iff.
      destruct (Nat.leb_spec lo p); [right; apply Nat.ltb_ge; lia | left; reflexivity].
  - intros k st Hk (HIst & Hlen & Hval).
    destruct (Hpre k st HIst) as [HIp Hgp].
    rewrite (HnV _ HIp).
    set (Pin := fun (j : nat) (st1 : S) =>
      I st1 /\ length (get st1) = length (get s) /\
      forall p v, v < n -> p*n+v < length (get s) ->
        get st1 !! (p*n+v)
        = Some (if ((lo <=? p) && (p <? k)) || ((p =? k) && (v <? j))
                then F p v else get s !!! (p*n+v))).
    assert (HP : Pin n (snd (for_loop 0 n (fun v st => body k v st) (pre k st)))).
    { apply (for_loop_inv Pin); [lia | |]; unfold Pin.
      - split; [exact HIp |]. rewrite Hgp. split; [exact Hlen |].
        intros p v Hv Hq. rewrite (Hval p v Hv Hq).
        replace (v <? 0) with false by reflexivity.
        rewrite andb_false_r, orb_false_r. reflexivity.
      - intros j st1 Hj (HI1 & Hlen1 & Hval1).
        destruct (Hbody k j st1 HI1) as [HIb Hgb]. split; [exact HIb |].
        rewrite Hgb. split; [rewrite length_insert; exact Hlen1 |].
        intros p v Hv Hq.
        destruct (decide (p = k /\ v = j)) as [[-> ->]|Hne].
        + rewrite list_lookup_insert_eq by lia.
          rewrite Nat.eqb_refl.
          replace (j <? Datatypes.S j) with true by (symmetry; apply Nat.ltb_lt; lia).
          rewrite orb_true_r. reflexivity.
        + rewrite list_lookup_insert_ne.
          2:{ intros Heq. apply Hne.
              destruct (Nat.lt_trichotomy p k) as [Hlt|[Heq'|Hgt]].
              - exfalso. assert (Datatypes.S p * n <= k * n) by (apply Nat.mul_le_mono_r; lia). lia.
              - subst p. split; [reflexivity | lia].
              - exfalso. assert (Datatypes.S k * n <= p * n) by (apply Nat.mul_le_mono_r; lia). lia. }
          rewrite (Hval1 p v Hv Hq). f_equal.
          assert (Hb : (p =? k) && (v <? Datatypes.S j) = (p =? k) && (v <? j)).
          { destruct (Nat.eqb_spec p k) as [->|]; [|reflexivity]. simpl.
            destruct (Nat.ltb_spec v (Datatypes.S j)), (Nat.ltb_spec v j);
              try reflexivity; exfalso; apply Hne; (split; [reflexivity | lia]). }
          rewrite Hb. reflexivity. }
    destruct HP as (HI1 & Hlen1 & Hval1).
    split; [exact HI1 |]. split; [exact Hlen1 |].
    intros p v Hv Hq. rewrite (Hval1 p v Hv Hq). f_equal.
    assert (Hb : (lo <=? p) && (p <? k) || (p =? k) && (v <? n)
                 = (lo <=? p) && (p <? Datatypes.S k)).
    { apply Nat.ltb_lt in Hv. rewrite Hv, andb_true_r.
      destruct (Nat.leb_spec lo p), (Nat.ltb_spec p k), (Nat.eqb_spec p k),
        (Nat.ltb_spec p (Datatypes.S k)); simpl; try reflexivity; lia. }
    rewrite Hb. reflexivity.
Qed.

(** ** The linear system of the implicit Euler driver *)

Lemma lookup_total_Some (l : list R) (i : nat) (x : R) :
  l !! i = Some x -> l !!! i = x.
Proof. intros H. rewrite list_lookup_total_alt, H. reflexivity. Qed.

Lemma ImplicitEuler_system_arrays geometry flow config s :
  nPointDomain geometry <= nPoint geometry ->
  let s1 := ImplicitEuler_system geometry flow config s in
  (node s1 = node s /\ nVar s1 = nVar s) /\
  (length (rhs s1) = length (rhs s) /\
   forall p v, v < nVar s -> p * nVar s + v < length (rhs s) ->
     rhs s1 !! (p * nVar s + v)
     = Some (if p <? nPointDomain geometry
             then (- total_residual (node s !!! p) v)%R
             else if p <? nPoint geometry then 0%R
             else rhs s !!! (p * nVar s + v))) /\
  (length (xsol s1) = length (xsol s) /\
   forall p v, v < nVar s -> p * nVar s + v < length (xsol s) ->
     xsol s1 !! (p * nVar s + v)
     = Some (if p <? nPoint geometry then 0%R
             else xsol s !!! (p * nVar s + v))).
Proof.
  intros Hdom.
  destruct (reset_residual_norms_fields s) as (Hn0 & Hv0 & Hr0 & Hx0 & _).
  set (s0 := reset_residual_norms s) in *.
  set (I := fun st => node st = node s /\ nVar st = nVar s).
  set (pre := fun (iPoint : nat) (st : CAdjEulerSolution) =>
    with_Jacobian (AddVal2Diag iPoint
      (Volume (geo_node geometry !!! iPoint)
       / Delta_Time (flow_node flow !!! iPoint))%R (Jacobian st)) st).
  set (body := fun (iPoint iVar : nat) (st : CAdjEulerSolution) =>
    AddRes_Max iVar (Rabs (total_residual (node st !!! iPoint) iVar))
      (GlobalIndex (geo_node geometry !!! iPoint))
      (AddRes_RMS iVar (total_residual (node st !!! iPoint) iVar
                        * total_residual (node st !!! iPoint) iVar)%R
         (with_xsol (<[iPoint * nVar st + iVar := 0%R]> (xsol st))
            (with_rhs (<[iPoint * nVar st + iVar :=
                          (- total_residual (node st !!! iPoint) iVar)%R]> (rhs st)) st)))).
  set (halo := fun (iPoint iVar : nat) (st : CAdjEulerSolution) =>
    with_xsol (<[iPoint * nVar st + iVar := 0%R]> (xsol st))
      (with_rhs (<[iPoint * nVar st + iVar := 0%R]> (rhs st)) st)).
  assert (HI0 : I s0) by (split; assumption).
  assert (HnV : forall st, I st -> nVar st = nVar s) by (intros st [_ H]; exact H).
  assert (Hpre : forall (get : CAdjEulerSolution -> list R),
             (forall x st, get (with_Jacobian x st) = get st) ->
             forall p st, I st -> I (pre p st) /\ get (pre p st) = get st).
  { intros get Hget p st HIst. split; [exact HIst | apply Hget]. }
  set (skip := fun (_ : nat) (st : CAdjEulerSolution) => st).
  assert (Hid : forall (get : CAdjEulerSolution -> list R) p st,
             I st -> I (skip p st) /\ get (skip p st) = get st).
  { intros get p st HIst. split; [exact HIst | reflexivity]. }
  assert (HbodyI : forall p v st, I st -> I (body p v st)).
  { intros p v st [H1 H2]. unfold body, I.
    destruct (AddRes_Max_fields v
      (Rabs (total_residual (node st !!! p) v))
      (GlobalIndex (geo_node geometry !!! p))
      (AddRes_RMS v (total_residual (node st !!! p) v
                        * total_residual (node st !!! p) v)%R
         (with_xsol (<[p * nVar st + v := 0%R]> (xsol st))
            (with_rhs (<[p * nVar st + v :=
                          (- total_residual (node st !!! p) v)%R]> (rhs st)) st))))
      as (-> & -> & _). simpl. split; assumption. }
  assert (Hbody_rhs : forall p v st, I st ->
    I (body p v st) /\
    rhs (body p v st)
    = <[p * nVar s + v := (- total_residual (node s !!! p) v)%R]> (rhs st)).
  { intros p v st HIst. split; [apply HbodyI; exact HIst |].
    destruct HIst as [H1 H2]. unfold body.
    rewrite (proj1 (proj2 (proj2 (AddRes_Max_fields _ _ _ _)))). simpl.
    rewrite H1, H2. reflexivity. }
  assert (Hbody_xsol : forall p v st, I st ->
    I (body p v st) /\
    xsol (body p v st) = <[p * nVar s + v := 0%R]> (xsol st)).
  { intros p v st HIst. split; [apply HbodyI; exact HIst |].
    destruct HIst as [H1 H2]. unfold body.
    rewrite (proj1 (proj2 (proj2 (proj2 (AddRes_Max_fields _ _ _ _))))). simpl.
    rewrite H2. reflexivity. }
  assert (Hhalo_rhs : forall p v st, I st ->
    I (halo p v st) /\ rhs (halo p v st) = <[p * nVar s + v := 0%R]> (rhs st)).
  { intros p v st [H1 H2]. unfold halo, I. simpl. rewrite H2. auto. }
  assert (Hhalo_xsol : forall p v st, I st ->
    I (halo p v st) /\ xsol (halo p v st) = <[p * nVar s + v := 0%R]> (xsol st)).
  { intros p v st [H1 H2]. unfold halo, I. simpl. rewrite H2. auto. }
  pose proof (flat_fill_inv I rhs nVar (nVar s)
    (fun p v => (- total_residual (node s !!! p) v)%R) pre body
    0 (nPointDomain geometry) s0 (Nat.le_0_l _) HI0 HnV
    (Hpre rhs (fun _ _ => eq_refl)) Hbody_rhs) as (HI1 & Hlr1 & Hr1).
  pose proof (flat_fill_inv I xsol nVar (nVar s)
    (fun p v => 0%R) pre body
    0 (nPointDomain geometry) s0 (Nat.le_0_l _) HI0 HnV
    (Hpre xsol (fun _ _ => eq_refl)) Hbody_xsol) as (_ & Hlx1 & Hx1).
  set (s1 := snd (for_loop 0 (nPointDomain geometry)
    (fun p st => snd (for_loop 0 (nVar (pre p st))
       (fun v st0 => body p v st0) (pre p st))) s0)) in *.
  pose proof (flat_fill_inv I rhs nVar (nVar s) (fun p v => 0%R)
    skip halo (nPointDomain geometry) (nPoint geometry) s1
    Hdom HI1 HnV (Hid rhs) Hhalo_rhs) as (HI2 & Hlr2 & Hr2).
  pose proof (flat_fill_inv I xsol nVar (nVar s) (fun p v => 0%R)
    skip halo (nPointDomain geometry) (nPoint geometry) s1
    Hdom HI1 HnV (Hid xsol) Hhalo_xsol) as (_ & Hlx2 & Hx2).
  set (s2 := snd (for_loop (nPointDomain geometry) (nPoint geometry)
    (fun p st => snd (for_loop 0 (nVar (skip p st))
       (fun v st0 => halo p v st0) (skip p st))) s1)) in *.
  change (ImplicitEuler_system geometry flow config s) with s2. cbv zeta.
  rewrite Hr0 in Hr1, Hlr1. rewrite Hx0 in Hx1, Hlx1.
  rewrite Hlr1 in Hr2, Hlr2. rewrite Hlx1 in Hx2, Hlx2.
  split; [exact HI2 |]. split.
  - split; [exact Hlr2 |]. intros p v Hv Hq.
    rewrite (Hr2 p v Hv Hq).
    rewrite (lookup_total_Some _ _ _ (Hr1 p v Hv Hq)). f_equal. simpl.
    destruct (Nat.leb_spec (nPointDomain geometry) p),
      (Nat.ltb_spec p (nPointDomain geometry)),
      (Nat.ltb_spec p (nPoint geometry)); simpl; try reflexivity; lia.
  - split; [exact Hlx2 |]. intros p v Hv Hq.
    rewrite (Hx2 p v Hv Hq).
    rewrite (lookup_total_Some _ _ _ (Hx1 p v Hv Hq)). f_equal. simpl.
    destruct (Nat.leb_spec (nPointDomain geometry) p),
      (Nat.ltb_spec p (nPointDomain geometry)),
      (Nat.ltb_spec p (nPoint geometry)); simpl; try reflexivity; lia.
Qed.

Ltac case_nat_tests :=
  repeat match goal with
  | |- context [Nat.ltb ?x ?y] => destruct (Nat.ltb_spec x y)
  | |- context [Nat.leb ?x ?y] => destruct (Nat.leb_spec x y)
  | |- context [Nat.eqb ?x ?y] => destruct (Nat.eqb_spec x y)
  end.

Lemma ImplicitEuler_system_Jacobian geometry flow config s :
  let s1 := ImplicitEuler_system geometry flow config s in
  mat_nVar (Jacobian s1) = mat_nVar (Jacobian s) /\
  forall i j a b,
    mat_val (Jacobian s1) i j a b
    = if (i <? nPointDomain geometry) && (j =? i) && (a =? b)
         && (a <? mat_nVar (Jacobian s))
      then (mat_val (Jacobian s) i j a b
            + Volume (geo_node geometry !!! i) / Delta_Time (flow_node flow !!! i))%R
      else mat_val (Jacobian s) i j a b.
Proof.
  cbv zeta. unfold ImplicitEuler_system. cbv zeta.
  set (P := fun (k : nat) (st : CAdjEulerSolution) =>
    mat_nVar (Jacobian st) = mat_nVar (Jacobian s) /\
    forall i j a b,
      mat_val (Jacobian st) i j a b
      = if (i <? k) && (j =? i) && (a =? b) && (a <? mat_nVar (Jacobian s))
        then (mat_val (Jacobian s) i j a b
              + Volume (geo_node geometry !!! i) / Delta_Time (flow_node flow !!! i))%R
        else mat_val (Jacobian s) i j a b).
  apply (for_loop_preserves (P (nPointDomain geometry))).
  - apply (for_loop_inv P); [lia | |].
    + unfold P. rewrite (proj2 (proj2 (proj2 (proj2 (reset_residual_norms_fields s))))).
      split; [reflexivity |]. intros i j a b. reflexivity.
    + intros k st _ [Hn Hval].
      match goal with
      | |- P _ (snd (for_loop 0 ?n ?body ?init)) =>
          assert (HJ : Jacobian (snd (for_loop 0 n body init)) = Jacobian init)
      end.
      { apply (for_loop_preserves (fun st' => Jacobian st' = _)); [reflexivity |].
        intros v st' _ H'.
        rewrite (proj2 (proj2 (proj2 (proj2 (AddRes_Max_fields _ _ _ _))))).
        simpl. exact H'. }
      unfold P. rewrite HJ. simpl. split; [exact Hn |].
      intros i j a b. unfold in_block. simpl. rewrite Hn, Hval.
      case_nat_tests; simpl; subst; try reflexivity; try lia.
  - intros k st _ HP.
    match goal with
    | |- P _ (snd (for_loop 0 ?n ?body ?init)) =>
        assert (HJ : Jacobian (snd (for_loop 0 n body init)) = Jacobian init)
    end.
    { apply (for_loop_preserves (fun st' => Jacobian st' = _)); [reflexivity |].
      intros v st' _ H'. simpl. exact H'. }
    unfold P in *. rewrite HJ. exact HP.
Qed.

(** ** The update loops of the implicit drivers *)

(** [for p in [0,n): for v in [0,nVar): node[p]->upd(v, xsol[p*nVar+v])] where
    [upd] writes component [v] of the adjoint state. *)
Lemma solution_update_loop (upd : nat -> R -> CVariable -> CVariable)
    (g : R -> R -> R) (n : nat) (s : CAdjEulerSolution) :
  (forall v x c, Solution (upd v x c) = <[v := g (Solution c !!! v) x]> (Solution c)) ->
  (forall v x c, accumulators (upd v x c) = accumulators c) ->
  let s' := snd (for_loop 0 n (fun p st =>
              snd (for_loop 0 (nVar st) (fun v st =>
                at_node p (upd v (xsol st !!! (p * nVar st + v))) st) st)) s) in
  xsol s' = xsol s /\ nVar s' = nVar s /\
  length (node s') = length (node s) /\
  accumulators <$> node s' = accumulators <$> node s /\
  forall p, p < length (node s) ->
    length (Solution (node s' !!! p)) = length (Solution (node s !!! p)) /\
    forall v, v < length (Solution (node s !!! p)) ->
      Solution (node s' !!! p) !!! v
      = if (p <? n) && (v <? nVar s)
        then g (Solution (node s !!! p) !!! v) (xsol s !!! (p * nVar s + v))
        else Solution (node s !!! p) !!! v.
Proof.
  intros Hupd Hacc. cbv zeta.
  set (Q := fun (c : nat -> nat -> bool) (st : CAdjEulerSolution) =>
    xsol st = xsol s /\ nVar st = nVar s /\
    length (node st) = length (node s) /\
    accumulators <$> node st = accumulators <$> node s /\
    forall p, p < length (node s) ->
      length (Solution (node st !!! p)) = length (Solution (node s !!! p)) /\
      forall v, v < length (Solution (node s !!! p)) ->
        Solution (node st !!! p) !!! v
        = if c p v
          then g (Solution (node s !!! p) !!! v) (xsol s !!! (p * nVar s + v))
          else Solution (node s !!! p) !!! v).
  assert (Hext : forall c c' st, (forall p v, c p v = c' p v) -> Q c st -> Q c' st).
  { intros c c' st Hc (H1 & H2 & H3 & H4 & H5). unfold Q.
    do 4 (split; [assumption |]). intros p Hp. destruct (H5 p Hp) as [Hl Hv].
    split; [exact Hl |]. intros v Hlt. rewrite <- Hc. apply Hv. exact Hlt. }
  change (Q (fun p v => (p <? n) && (v <? nVar s))
            (snd (for_loop 0 n (fun p st =>
              snd (for_loop 0 (nVar st) (fun v st =>
                at_node p (upd v (xsol st !!! (p * nVar st + v))) st) st)) s))).
  apply (for_loop_inv (fun k st => Q (fun p v => (p <? k) && (v <? nVar s)) st));
    [lia | |].
  - unfold Q. do 4 (split; [reflexivity |]). intros p Hp.
    split; [reflexivity |]. intros v Hv.
    replace (p <? 0) with false by (symmetry; apply Nat.ltb_ge; lia).
    reflexivity.
  - intros k st Hk HQ.
    assert (HnV : nVar st = nVar s) by apply HQ. rewrite HnV.
    apply (Hext (fun p v => ((p <? k) && (v <? nVar s)) || ((p =? k) && (v <? nVar s)))).
    { intros p v. case_nat_tests; simpl; try reflexivity; lia. }
    apply (for_loop_inv (fun j st1 =>
      Q (fun p v => ((p <? k) && (v <? nVar s)) || ((p =? k) && (v <? j))) st1));
      [lia | |].
    + apply (Hext (fun p v => (p <? k) && (v <? nVar s))); [|exact HQ].
      intros p v. case_nat_tests; simpl; try reflexivity; lia.
    + intros j st1 Hj (H1 & H2 & H3 & H4 & H5). unfold Q.
      split; [exact H1 |]. split; [exact H2 |].
      split; [simpl; rewrite length_alter; exact H3 |].
      split; [rewrite at_node_accumulators by (intros c; apply Hacc); exact H4 |].
      intros p Hp. destruct (H5 p Hp) as [Hl Hv]. simpl.
      destruct (decide (p = k)) as [->|Hne].
      * rewrite list_lookup_total_alter_eq by lia.
        rewrite Hupd, length_insert. split; [exact Hl |].
        intros v Hlt. rewrite H1, H2.
        destruct (decide (v = j)) as [->|Hvj].
        -- rewrite list_lookup_total_insert_eq by lia.
           rewrite (Hv j Hlt).
           replace (k <? k) with false by (symmetry; apply Nat.ltb_ge; lia).
           replace (j <? j) with false by (symmetry; apply Nat.ltb_ge; lia).
           rewrite Nat.eqb_refl. simpl.
           replace (j <? Datatypes.S j) with true by (symmetry; apply Nat.ltb_lt; lia).
           reflexivity.
        -- rewrite list_lookup_total_insert_ne by congruence.
           rewrite (Hv v Hlt).
           case_nat_tests; simpl; try reflexivity; lia.
      * rewrite list_lookup_total_alter_ne by congruence.
        split; [exact Hl |]. intros v Hlt. rewrite (Hv v Hlt).
        case_nat_tests; simpl; try reflexivity; lia.
Qed.

Lemma ImplicitEuler_update_spec geometry s :
  let s' := ImplicitEuler_update geometry s in
  xsol s' = xsol s /\ nVar s' = nVar s /\
  length (node s') = length (node s) /\
  accumulators <$> node s' = accumulators <$> node s /\
  forall p, p < length (node s) ->
    length (Solution (node s' !!! p)) = length (Solution (node s !!! p)) /\
    forall v, v < length (Solution (node s !!! p)) ->
      Solution (node s' !!! p) !!! v
      = if (p <? nPointDomain geometry) && (v <? nVar s)
        then (Solution (node s !!! p) !!! v + xsol s !!! (p * nVar s + v)%nat)%R
        else Solution (node s !!! p) !!! v.
Proof.
  apply (solution_update_loop AddSolution Rplus (nPointDomain geometry) s).
  - intros v x c. reflexivity.
  - intros v x c. reflexivity.
Qed.

Lemma Solve_LinearSystem_update_spec geometry s :
  let s' := Solve_LinearSystem_update geometry s in
  xsol s' = xsol s /\ nVar s' = nVar s /\
  length (node s') = length (node s) /\
  accumulators <$> node s' = accumulators <$> node s /\
  forall p, p < length (node s) ->
    length (Solution (node s' !!! p)) = length (Solution (node s !!! p)) /\
    forall v, v < length (Solution (node s !!! p)) ->
      Solution (node s' !!! p) !!! v
      = if (p <? nPointDomain geometry) && (v <? nVar s)
        then xsol s !!! (p * nVar s + v)
        else Solution (node s !!! p) !!! v.
Proof.
  apply (solution_update_loop SetSolution (fun _ x => x) (nPointDomain geometry) s).
  - intros v x c. reflexivity.
  - intros v x c. reflexivity.
Qed.

Lemma Solve_LinearSystem_system_spec geometry s :
  let s1 := Solve_LinearSystem_system geometry s in
  (node s1 = node s /\ nVar s1 = nVar s) /\
  Jacobian s1 = Jacobian s /\
  (length (rhs s1) = length (rhs s) /\
   forall p v, v < nVar s -> p * nVar s + v < length (rhs s) ->
     rhs s1 !! (p * nVar s + v)
     = Some (if p <? nPointDomain geometry
             then ObjFuncSource (node s !!! p) !!! v
             else rhs s !!! (p * nVar s + v))) /\
  (length (xsol s1) = length (xsol s) /\
   forall p v, v < nVar s -> p * nVar s + v < length (xsol s) ->
     xsol s1 !! (p * nVar s + v)
     = Some (if p <? nPointDomain geometry then 0%R
             else xsol s !!! (p * nVar s + v))).
Proof.
  set (I := fun st => (node st = node s /\ nVar st = nVar s) /\ Jacobian st = Jacobian s).
  set (skip := fun (_ : nat) (st : CAdjEulerSolution) => st).
  set (body := fun (iPoint iVar : nat) (st : CAdjEulerSolution) =>
    with_xsol (<[iPoint * nVar st + iVar := 0%R]> (xsol st))
      (with_rhs (<[iPoint * nVar st + iVar :=
                    ObjFuncSource (node st !!! iPoint) !!! iVar]> (rhs st)) st)).
  assert (HI0 : I s) by (repeat split).
  assert (HnV : forall st, I st -> nVar st = nVar s) by (intros st [[_ H] _]; exact H).
  assert (Hid : forall (get : CAdjEulerSolution -> list R) p st,
             I st -> I (skip p st) /\ get (skip p st) = get st).
  { intros get p st HIst. split; [exact HIst | reflexivity]. }
  assert (Hb_rhs : forall p v st, I st ->
    I (body p v st) /\
    rhs (body p v st) = <[p * nVar s + v := ObjFuncSource (node s !!! p) !!! v]> (rhs st)).
  { intros p v st [[H1 H2] H3]. unfold body, I. simpl. rewrite H1, H2. auto. }
  assert (Hb_xsol : forall p v st, I st ->
    I (body p v st) /\ xsol (body p v st) = <[p * nVar s + v := 0%R]> (xsol st)).
  { intros p v st [[H1 H2] H3]. unfold body, I. simpl. rewrite H2. auto. }
  pose proof (flat_fill_inv I rhs nVar (nVar s)
    (fun p v => ObjFuncSource (node s !!! p) !!! v) skip body
    0 (nPointDomain geometry) s (Nat.le_0_l _) HI0 HnV (Hid rhs) Hb_rhs)
    as (HI1 & Hlr1 & Hr1).
  pose proof (flat_fill_inv I xsol nVar (nVar s) (fun p v => 0%R) skip body
    0 (nPointDomain geometry) s (Nat.le_0_l _) HI0 HnV (Hid xsol) Hb_xsol)
    as (_ & Hlx1 & Hx1).
  set (s1 := snd (for_loop 0 (nPointDomain geometry)
    (fun p st => snd (for_loop 0 (nVar (skip p st))
       (fun v st0 => body p v st0) (skip p st))) s)) in *.
  change (Solve_LinearSystem_system geometry s) with s1. cbv zeta.
  destruct HI1 as [HI1 HJ1].
  split; [exact HI1 |]. split; [exact HJ1 |]. split.
  - split; [exact Hlr1 |]. exact Hr1.
  - split; [exact Hlx1 |]. exact Hx1.
Qed.

(** ** The dispatch to the linear solvers *)

Section LinearSolveFacts.

Variable SGSSolution :
  CSparseMatrix -> list R -> list R -> R -> nat -> bool -> CGeometry -> CConfig -> list R.
Variable LU_SGSIteration :
  CSparseMatrix -> list R -> list R -> CGeometry -> CConfig -> list R.
Variable BCGSTAB_solve :
  ENUM_LINEAR_SOLVER_PREC -> CSparseMatrix -> CGeometry -> CConfig ->
  list R -> list R -> R -> nat -> bool -> list R.
Variable FlexibleGMRES_solve :
  ENUM_LINEAR_SOLVER_PREC -> CSparseMatrix -> CGeometry -> CConfig ->
  list R -> list R -> R -> nat -> bool -> list R.

Lemma linear_solve_dispatch_spec monitoring geometry config s :
  let r := linear_solve_dispatch SGSSolution LU_SGSIteration BCGSTAB_solve
             FlexibleGMRES_solve monitoring geometry config ([], s) in
  let tol := Linear_Solver_Error config in
  let iter := Linear_Solver_Iter config in
  let precond := Kind_Linear_Solver_Prec config in
  (node (snd r) = node s /\ nVar (snd r) = nVar s /\ rhs (snd r) = rhs s /\
   Jacobian (snd r) = Jacobian s) /\
  length (fst r) = 1 /\
  match Kind_Linear_Solver config with
  | SYM_GAUSS_SEIDEL =>
      fst r = [Call_SGSSolution] /\
      xsol (snd r) = SGSSolution (Jacobian s) (rhs s) (xsol s) tol iter monitoring
                       geometry config
  | LU_SGS =>
      fst r = [Call_LU_SGSIteration] /\
      xsol (snd r) = LU_SGSIteration (Jacobian s) (rhs s) (xsol s) geometry config
  | BCGSTAB =>
      fst r = [Call_BCGSTAB precond] /\
      xsol (snd r) = BCGSTAB_solve precond (Jacobian s) geometry config
                       (rhs s) (xsol s) tol iter monitoring
  | GMRES =>
      fst r = [Call_FlexibleGMRES precond] /\
      xsol (snd r) = FlexibleGMRES_solve precond (Jacobian s) geometry config
                       (rhs s) (xsol s) tol iter monitoring
  end.
Proof.
  cbv zeta. unfold linear_solve_dispatch.
  destruct (Kind_Linear_Solver config); simpl; auto.
Qed.

End LinearSolveFacts.

(** ** Preprocessing *)

Lemma node_loop_inv (G : CVariable -> CVariable) (body : nat -> CAdjEulerSolution -> CAdjEulerSolution)
    (n : nat) (s : CAdjEulerSolution) :
  (forall p st, nVar st = nVar s ->
     nVar (body p st) = nVar s /\ node (body p st) = alter G p (node st)) ->
  let s' := snd (for_loop 0 n body s) in
  nVar s' = nVar s /\ length (node s') = length (node s) /\
  forall p, p < length (node s) ->
    node s' !!! p = if p <? n then G (node s !!! p) else node s !!! p.
Proof.
  intros Hbody. cbv zeta.
  apply (for_loop_inv (fun k st =>
    nVar st = nVar s /\ length (node st) = length (node s) /\
    forall p, p < length (node s) ->
      node st !!! p = if p <? k then G (node s !!! p) else node s !!! p));
    [lia | |].
  - split; [reflexivity |]. split; [reflexivity |]. intros p Hp. reflexivity.
  - intros k st Hk (H1 & H2 & H3). destruct (Hbody k st H1) as [Hb1 Hb2].
    split; [exact Hb1 |]. rewrite Hb2, length_alter. split; [exact H2 |].
    intros p Hp. destruct (decide (p = k)) as [->|Hne].
    + rewrite list_lookup_total_alter_eq by lia. rewrite (H3 k Hp).
      case_nat_tests; try reflexivity; lia.
    + rewrite list_lookup_total_alter_ne by congruence. rewrite (H3 p Hp).
      case_nat_tests; try reflexivity; lia.
Qed.

Lemma alter_alter_same {A : Type} (f g : A -> A) (i : nat) (l : list A) :
  alter f i (alter g i l) = alter (fun x => f (g x)) i l.
Proof.
  apply list_eq. intros k. destruct (decide (k = i)) as [->|Hne].
  - rewrite !list_lookup_alter_eq. destruct (l !! i); reflexivity.
  - rewrite !list_lookup_alter_ne by congruence. reflexivity.
Qed.

(** What Preprocessing does to a node. *)
Lemma Preprocessing_residuals_node geometry config iRKStep s :
  let implicit := is_EULER_IMPLICIT (Kind_TimeIntScheme_AdjFlow config) in
  let s' := Preprocessing_residuals geometry config iRKStep s in
  nVar s' = nVar s /\ length (node s') = length (node s) /\
  forall p, p < length (node s) -> p < nPoint geometry ->
    Solution (node s' !!! p) = Solution (node s !!! p) /\
    Res_Conv (node s' !!! p) = vec_set_all (nVar s) (fun _ _ => 0%R) (Res_Conv (node s !!! p)) /\
    Res_Sour (node s' !!! p) = vec_set_all (nVar s) (fun _ _ => 0%R) (Res_Sour (node s !!! p)) /\
    Res_Visc (node s' !!! p)
    = if (if Req_EM_T (Beta_RKStep config iRKStep) 0 then false else true) || implicit
      then vec_set_all (nVar s) (fun _ _ => 0%R) (Res_Visc (node s !!! p))
      else Res_Visc (node s !!! p).
Proof.
  cbv zeta. unfold Preprocessing_residuals. cbv zeta.
  set (visc := (if Req_EM_T (Beta_RKStep config iRKStep) 0 then false else true)
               || is_EULER_IMPLICIT (Kind_TimeIntScheme_AdjFlow config)).
  set (G := fun c : CVariable =>
    (if visc then Set_ResVisc_Zero (nVar s) else fun c => c)
      (Set_ResSour_Zero (nVar s) (Set_ResConv_Zero (nVar s) c))).
  match goal with
  | |- context [for_loop 0 ?n ?body s] =>
      pose proof (node_loop_inv G body n s) as HL; set (s1 := snd (for_loop 0 n body s)) in *
  end.
  cbv zeta in HL.
  destruct HL as (H1 & H2 & H3).
  { intros p st Hst. unfold G. clearbody visc.
    destruct visc; simpl; rewrite ?Hst, ?alter_alter_same; split; reflexivity. }
  assert (Hfin : forall sf, nVar sf = nVar s1 -> node sf = node s1 ->
    nVar sf = nVar s /\ length (node sf) = length (node s) /\
    forall p, p < length (node s) -> p < nPoint geometry ->
      Solution (node sf !!! p) = Solution (node s !!! p) /\
      Res_Conv (node sf !!! p) = vec_set_all (nVar s) (fun _ _ => 0%R) (Res_Conv (node s !!! p)) /\
      Res_Sour (node sf !!! p) = vec_set_all (nVar s) (fun _ _ => 0%R) (Res_Sour (node s !!! p)) /\
      Res_Visc (node sf !!! p)
      = if visc
        then vec_set_all (nVar s) (fun _ _ => 0%R) (Res_Visc (node s !!! p))
        else Res_Visc (node s !!! p)).
  { intros sf Hn Hnode. rewrite Hn, Hnode.
    split; [exact H1 |]. split; [exact H2 |].
    intros p Hp Hpn. rewrite (H3 p Hp).
    replace (p <? nPoint geometry) with true by (symmetry; apply Nat.ltb_lt; lia).
    unfold G. destruct visc; simpl; auto. }
  destruct (_ || is_DISCRETE _); apply Hfin; reflexivity.
Qed.

(** ** Time integration: the claims *)

Section TimeIntegrationClaims.

Variable MPI_Recv : option (nat -> list R).
Variable SetResidual_RMS : CGeometry -> CConfig -> list R -> list R.
Variable SGSSolution :
  CSparseMatrix -> list R -> list R -> R -> nat -> bool -> CGeometry -> CConfig -> list R.
Variable LU_SGSIteration :
  CSparseMatrix -> list R -> list R -> CGeometry -> CConfig -> list R.
Variable BCGSTAB_solve :
  ENUM_LINEAR_SOLVER_PREC -> CSparseMatrix -> CGeometry -> CConfig ->
  list R -> list R -> R -> nat -> bool -> list R.
Variable FlexibleGMRES_solve :
  ENUM_LINEAR_SOLVER_PREC -> CSparseMatrix -> CGeometry -> CConfig ->
  list R -> list R -> R -> nat -> bool -> list R.

Lemma ImplicitEuler_Iteration_stages geometry flow config s :
  let s1 := ImplicitEuler_system geometry flow config s in
  let r := linear_solve_dispatch SGSSolution LU_SGSIteration BCGSTAB_solve
             FlexibleGMRES_solve false geometry config ([], s1) in
  let s3 := ImplicitEuler_update geometry (snd r) in
  ImplicitEuler_Iteration MPI_Recv SetResidual_RMS SGSSolution LU_SGSIteration
    BCGSTAB_solve FlexibleGMRES_solve geometry flow config s
  = (fst r, finish_iteration MPI_Recv SetResidual_RMS geometry config s3).
Proof.
  cbv zeta. unfold ImplicitEuler_Iteration.
  destruct (linear_solve_dispatch _ _ _ _ _ _ _ _) as [log s2]. reflexivity.
Qed.

Lemma ImplicitEuler_Iteration_accumulators geometry flow config s :
  nPointDomain geometry <= nPoint geometry ->
  accumulators <$> node (snd (ImplicitEuler_Iteration MPI_Recv SetResidual_RMS
     SGSSolution LU_SGSIteration BCGSTAB_solve FlexibleGMRES_solve
     geometry flow config s))
  = accumulators <$> node s.
Proof.
  intros Hdom. rewrite ImplicitEuler_Iteration_stages. simpl snd.
  rewrite finish_iteration_accumulators.
  destruct (ImplicitEuler_update_spec geometry
    (snd (linear_solve_dispatch SGSSolution LU_SGSIteration BCGSTAB_solve
       FlexibleGMRES_solve false geometry config
       ([], ImplicitEuler_system geometry flow config s)))) as (_ & _ & _ & -> & _).
  destruct (linear_solve_dispatch_spec SGSSolution LU_SGSIteration BCGSTAB_solve
    FlexibleGMRES_solve false geometry config
    (ImplicitEuler_system geometry flow config s)) as ((-> & _) & _).
  destruct (ImplicitEuler_system_arrays geometry flow config s Hdom) as ((-> & _) & _).
  reflexivity.
Qed.

Lemma flat_index_in_range (p v n m len : nat) :
  p < m -> v < n -> m * n <= len -> p * n + v < len.
Proof.
  intros Hp Hv Hlen.
  assert (Datatypes.S p * n <= m * n) by (apply Nat.mul_le_mono_r; lia). lia.
Qed.

(** C2: one implicit-Euler iteration adds Volume/Delta_Time to the diagonal
    of the Jacobian block of every owned node (and changes no other entry),
    sets the right-hand side of every owned node to minus the sum of the
    convective, viscous, source and truncation-error residuals with a zero
    initial guess, zeroes both buffers at every halo node, calls exactly one
    linear-solve strategy, the one the configuration selects, on that
    system, and then adds the increment it returns to the adjoint state of
    every owned node. *)
Theorem C2_ImplicitEuler_Iteration geometry flow config s :
  nPointDomain geometry <= nPoint geometry ->
  nPoint geometry * nVar s <= length (rhs s) ->
  nPoint geometry * nVar s <= length (xsol s) ->
  let s1 := ImplicitEuler_system geometry flow config s in
  let r := linear_solve_dispatch SGSSolution LU_SGSIteration BCGSTAB_solve
             FlexibleGMRES_solve false geometry config ([], s1) in
  let s3 := ImplicitEuler_update geometry (snd r) in
  let tol := Linear_Solver_Error config in
  let iter := Linear_Solver_Iter config in
  let precond := Kind_Linear_Solver_Prec config in
  ImplicitEuler_Iteration MPI_Recv SetResidual_RMS SGSSolution LU_SGSIteration
    BCGSTAB_solve FlexibleGMRES_solve geometry flow config s
  = (fst r, finish_iteration MPI_Recv SetResidual_RMS geometry config s3) /\
  (forall i a, i < nPointDomain geometry -> a < mat_nVar (Jacobian s) ->
     mat_val (Jacobian s1) i i a a
     = (mat_val (Jacobian s) i i a a
        + Volume (geo_node geometry !!! i) / Delta_Time (flow_node flow !!! i))%R) /\
  (forall i j a b,
     ~ (i < nPointDomain geometry /\ j = i /\ a = b /\ a < mat_nVar (Jacobian s)) ->
     mat_val (Jacobian s1) i j a b = mat_val (Jacobian s) i j a b) /\
  (forall p v, p < nPointDomain geometry -> v < nVar s ->
     rhs s1 !! (p * nVar s + v)
     = Some (- (Res_Conv (node s !!! p) !!! v + Res_Visc (node s !!! p) !!! v
                + Res_Sour (node s !!! p) !!! v
                + Res_TruncError (node s !!! p) !!! v))%R /\
     xsol s1 !! (p * nVar s + v) = Some 0%R) /\
  (forall p v, nPointDomain geometry <= p < nPoint geometry -> v < nVar s ->
     rhs s1 !! (p * nVar s + v) = Some 0%R /\
     xsol s1 !! (p * nVar s + v) = Some 0%R) /\
  (exists strategy, fst r = [strategy]) /\
  match Kind_Linear_Solver config with
  | SYM_GAUSS_SEIDEL =>
      fst r = [Call_SGSSolution] /\
      xsol (snd r) = SGSSolution (Jacobian s1) (rhs s1) (xsol s1) tol iter false
                       geometry config
  | LU_SGS =>
      fst r = [Call_LU_SGSIteration] /\
      xsol (snd r) = LU_SGSIteration (Jacobian s1) (rhs s1) (xsol s1) geometry config
  | BCGSTAB =>
      fst r = [Call_BCGSTAB precond] /\
      xsol (snd r) = BCGSTAB_solve precond (Jacobian s1) geometry config
                       (rhs s1) (xsol s1) tol iter false
  | GMRES =>
      fst r = [Call_FlexibleGMRES precond] /\
      xsol (snd r) = FlexibleGMRES_solve precond (Jacobian s1) geometry config
                       (rhs s1) (xsol s1) tol iter false
  end /\
  (forall p v, p < nPointDomain geometry -> p < length (node s) ->
     v < nVar s -> v < length (Solution (node s !!! p)) ->
     Solution (node s3 !!! p) !!! v
     = (Solution (node s !!! p) !!! v + xsol (snd r) !!! (p * nVar s + v)%nat)%R).
Proof.
  intros Hdom Hrhs Hxsol. cbv zeta.
  pose proof (ImplicitEuler_Iteration_stages geometry flow config s) as Hst.
  cbv zeta in Hst.
  destruct (ImplicitEuler_system_arrays geometry flow config s Hdom)
    as ((Hnode1 & HnVar1) & (Hlr & Hr) & (Hlx & Hx)).
  destruct (ImplicitEuler_system_Jacobian geometry flow config s) as (HJn & HJ).
  pose proof (linear_solve_dispatch_spec SGSSolution LU_SGSIteration BCGSTAB_solve
    FlexibleGMRES_solve false geometry config
    (ImplicitEuler_system geometry flow config s)) as Hd.
  cbv zeta in Hd. destruct Hd as ((Hnode2 & HnVar2 & _ & _) & Hlen & Hkind).
  set (s1 := ImplicitEuler_system geometry flow config s) in *.
  set (r := linear_solve_dispatch SGSSolution LU_SGSIteration BCGSTAB_solve
              FlexibleGMRES_solve false geometry config ([], s1)) in *.
  destruct (ImplicitEuler_update_spec geometry (snd r)) as (_ & _ & _ & _ & Hupd).
  split; [exact Hst |].
  split.
  { intros i a Hi Ha. rewrite HJ.
    replace (i <? nPointDomain geometry) with true by (symmetry; apply Nat.ltb_lt; lia).
    replace (a <? mat_nVar (Jacobian s)) with true by (symmetry; apply Nat.ltb_lt; lia).
    rewrite !Nat.eqb_refl. reflexivity. }
  split.
  { intros i j a b Hn. rewrite HJ.
    case_nat_tests; simpl; try reflexivity. exfalso. apply Hn. auto. }
  split.
  { intros p v Hp Hv.
    assert (Hq1 : p * nVar s + v < length (rhs s))
      by (apply (flat_index_in_range p v (nVar s) (nPoint geometry)); lia).
    assert (Hq2 : p * nVar s + v < length (xsol s))
      by (apply (flat_index_in_range p v (nVar s) (nPoint geometry)); lia).
    rewrite (Hr p v Hv Hq1), (Hx p v Hv Hq2).
    replace (p <? nPointDomain geometry) with true by (symmetry; apply Nat.ltb_lt; lia).
    replace (p <? nPoint geometry) with true by (symmetry; apply Nat.ltb_lt; lia).
    split; reflexivity. }
  split.
  { intros p v Hp Hv.
    assert (Hq1 : p * nVar s + v < length (rhs s))
      by (apply (flat_index_in_range p v (nVar s) (nPoint geometry)); lia).
    assert (Hq2 : p * nVar s + v < length (xsol s))
      by (apply (flat_index_in_range p v (nVar s) (nPoint geometry)); lia).
    rewrite (Hr p v Hv Hq1), (Hx p v Hv Hq2).
    replace (p <? nPointDomain geometry) with false by (symmetry; apply Nat.ltb_ge; lia).
    replace (p <? nPoint geometry) with true by (symmetry; apply Nat.ltb_lt; lia).
    split; reflexivity. }
  split.
  { destruct (fst r) as [|x [|y l]]; simpl in Hlen; try discriminate.
    exists x. reflexivity. }
  split; [exact Hkind |].
  intros p v Hp Hpn Hv Hvl.
  rewrite Hnode2, Hnode1 in Hupd. rewrite HnVar2, HnVar1 in Hupd.
  destruct (Hupd p Hpn) as [_ Hval]. rewrite (Hval v Hvl).
  replace (p <? nPointDomain geometry) with true by (symmetry; apply Nat.ltb_lt; lia).
  replace (v <? nVar s) with true by (symmetry; apply Nat.ltb_lt; lia).
  reflexivity.
Qed.

Lemma Solve_LinearSystem_stages geometry config s :
  let s1 := Solve_LinearSystem_system geometry s in
  let r := linear_solve_dispatch SGSSolution LU_SGSIteration BCGSTAB_solve
             FlexibleGMRES_solve true geometry config ([], s1) in
  Solve_LinearSystem SGSSolution LU_SGSIteration BCGSTAB_solve FlexibleGMRES_solve
    geometry config s
  = (fst r, Solve_LinearSystem_update geometry (snd r)).
Proof.
  cbv zeta. unfold Solve_LinearSystem.
  destruct (linear_solve_dispatch _ _ _ _ _ _ _ _) as [log s2]. reflexivity.
Qed.

(** C3: Solve_LinearSystem puts the stored objective-function source of each
    owned node on the right-hand side (with a zero initial guess, the
    Jacobian being left as assembled and no residual accumulator being
    read or written), runs the linear solver that the configuration selects
    on that Jacobian, right-hand side and initial guess, and then overwrites
    the adjoint state of each owned node with the solution the solver
    returned; the implicit-Euler update adds the same entries to the state
    instead. *)
Theorem C3_Solve_LinearSystem geometry config s :
  nPointDomain geometry * nVar s <= length (rhs s) ->
  nPointDomain geometry * nVar s <= length (xsol s) ->
  let s1 := Solve_LinearSystem_system geometry s in
  let r := linear_solve_dispatch SGSSolution LU_SGSIteration BCGSTAB_solve
             FlexibleGMRES_solve true geometry config ([], s1) in
  let s3 := Solve_LinearSystem_update geometry (snd r) in
  let tol := Linear_Solver_Error config in
  let iter := Linear_Solver_Iter config in
  let precond := Kind_Linear_Solver_Prec config in
  Solve_LinearSystem SGSSolution LU_SGSIteration BCGSTAB_solve FlexibleGMRES_solve
    geometry config s = (fst r, s3) /\
  Jacobian s1 = Jacobian s /\
  (forall p v, p < nPointDomain geometry -> v < nVar s ->
     rhs s1 !! (p * nVar s + v) = Some (ObjFuncSource (node s !!! p) !!! v) /\
     xsol s1 !! (p * nVar s + v) = Some 0%R) /\
  (exists strategy, fst r = [strategy]) /\
  match Kind_Linear_Solver config with
  | SYM_GAUSS_SEIDEL =>
      fst r = [Call_SGSSolution] /\
      xsol (snd r) = SGSSolution (Jacobian s) (rhs s1) (xsol s1) tol iter true
                       geometry config
  | LU_SGS =>
      fst r = [Call_LU_SGSIteration] /\
      xsol (snd r) = LU_SGSIteration (Jacobian s) (rhs s1) (xsol s1) geometry config
  | BCGSTAB =>
      fst r = [Call_BCGSTAB precond] /\
      xsol (snd r) = BCGSTAB_solve precond (Jacobian s) geometry config
                       (rhs s1) (xsol s1) tol iter true
  | GMRES =>
      fst r = [Call_FlexibleGMRES precond] /\
      xsol (snd r) = FlexibleGMRES_solve precond (Jacobian s) geometry config
                       (rhs s1) (xsol s1) tol iter true
  end /\
  accumulators <$> node s3 = accumulators <$> node s /\
  (forall p v, p < nPointDomain geometry -> p < length (node s) ->
     v < nVar s -> v < length (Solution (node s !!! p)) ->
     Solution (node s3 !!! p) !!! v = xsol (snd r) !!! (p * nVar s + v) /\
     Solution (node (ImplicitEuler_update geometry (snd r)) !!! p) !!! v
     = (Solution (node s !!! p) !!! v + xsol (snd r) !!! (p * nVar s + v)%nat)%R).
Proof.
  intros Hrhs Hxsol. cbv zeta.
  pose proof (Solve_LinearSystem_stages geometry config s) as Hst. cbv zeta in Hst.
  destruct (Solve_LinearSystem_system_spec geometry s)
    as ((Hnode1 & HnVar1) & HJ & (Hlr & Hr) & (Hlx & Hx)).
  pose proof (linear_solve_dispatch_spec SGSSolution LU_SGSIteration BCGSTAB_solve
    FlexibleGMRES_solve true geometry config
    (Solve_LinearSystem_system geometry s)) as Hd.
  cbv zeta in Hd. destruct Hd as ((Hnode2 & HnVar2 & _ & _) & Hlen & Hkind).
  set (s1 := Solve_LinearSystem_system geometry s) in *.
  set (r := linear_solve_dispatch SGSSolution LU_SGSIteration BCGSTAB_solve
              FlexibleGMRES_solve true geometry config ([], s1)) in *.
  destruct (Solve_LinearSystem_update_spec geometry (snd r))
    as (_ & _ & _ & Hacc & Hset).
  destruct (ImplicitEuler_update_spec geometry (snd r)) as (_ & _ & _ & _ & Hadd).
  rewrite Hnode2, Hnode1 in Hset, Hadd, Hacc. rewrite HnVar2, HnVar1 in Hset, Hadd.
  split; [exact Hst |]. split; [exact HJ |].
  split.
  { intros p v Hp Hv.
    assert (Hq1 : p * nVar s + v < length (rhs s))
      by (apply (flat_index_in_range p v (nVar s) (nPointDomain geometry)); lia).
    assert (Hq2 : p * nVar s + v < length (xsol s))
      by (apply (flat_index_in_range p v (nVar s) (nPointDomain geometry)); lia).
    rewrite (Hr p v Hv Hq1), (Hx p v Hv Hq2).
    replace (p <? nPointDomain geometry) with true by (symmetry; apply Nat.ltb_lt; lia).
    split; reflexivity. }
  split.
  { destruct (fst r) as [|x [|y l]]; simpl in Hlen; try discriminate.
    exists x. reflexivity. }
  split; [rewrite <- HJ; exact Hkind |].
  split; [exact Hacc |].
  intros p v Hp Hpn Hv Hvl.
  destruct (Hset p Hpn) as [_ Hs]. destruct (Hadd p Hpn) as [_ Ha].
  rewrite (Hs v Hvl), (Ha v Hvl).
  replace (p <? nPointDomain geometry) with true by (symmetry; apply Nat.ltb_lt; lia).
  replace (v <? nVar s) with true by (symmetry; apply Nat.ltb_lt; lia).
  split; reflexivity.
Qed.

End TimeIntegrationClaims.

Lemma accumulators_lookup (s s' : CAdjEulerSolution) (p : nat) :
  accumulators <$> node s' = accumulators <$> node s ->
  accumulators (node s' !!! p) = accumulators (node s !!! p).
Proof.
  intros H. apply (f_equal (fun l => l !! p)) in H.
  rewrite !list_lookup_fmap in H. rewrite !list_lookup_total_alt.
  destruct (node s' !! p), (node s !! p); simpl in *; try discriminate.
  - congruence.
  - reflexivity.
Qed.

Lemma accumulators_Res_Conv (s s' : CAdjEulerSolution) (p : nat) :
  accumulators <$> node s' = accumulators <$> node s ->
  Res_Conv (node s' !!! p) = Res_Conv (node s !!! p).
Proof.
  intros H. apply (accumulators_lookup s s' p) in H.
  unfold accumulators in H. congruence.
Qed.

Lemma ImplicitEuler_system_node geometry flow config s :
  node (ImplicitEuler_system geometry flow config s) = node s.
Proof.
  unfold ImplicitEuler_system. cbv zeta.
  apply (for_loop_preserves (fun st => node st = node s)).
  - apply (for_loop_preserves (fun st => node st = node s)).
    + apply reset_residual_norms_fields.
    + intros p st _ H.
      apply (for_loop_preserves (fun st => node st = node s)); [exact H |].
      intros v st' _ H'. rewrite (proj1 (AddRes_Max_fields _ _ _ _)). exact H'.
  - intros p st _ H.
    apply (for_loop_preserves (fun st => node st = node s)); [exact H |].
    intros v st' _ H'. exact H'.
Qed.

Section ResidualLifeCycle.

Variable MPI_Recv : option (nat -> list R).
Variable SetResidual_RMS : CGeometry -> CConfig -> list R -> list R.
Variable SGSSolution :
  CSparseMatrix -> list R -> list R -> R -> nat -> bool -> CGeometry -> CConfig -> list R.
Variable LU_SGSIteration :
  CSparseMatrix -> list R -> list R -> CGeometry -> CConfig -> list R.
Variable BCGSTAB_solve :
  ENUM_LINEAR_SOLVER_PREC -> CSparseMatrix -> CGeometry -> CConfig ->
  list R -> list R -> R -> nat -> bool -> list R.
Variable FlexibleGMRES_solve :
  ENUM_LINEAR_SOLVER_PREC -> CSparseMatrix -> CGeometry -> CConfig ->
  list R -> list R -> R -> nat -> bool -> list R.

Lemma ExplicitEuler_Iteration_accumulators geometry flow config s :
  accumulators <$> node (ExplicitEuler_Iteration MPI_Recv SetResidual_RMS
                           geometry flow config s)
  = accumulators <$> node s.
Proof.
  unfold ExplicitEuler_Iteration.
  rewrite finish_iteration_accumulators. apply ExplicitEuler_update_accumulators.
Qed.

Lemma ExplicitRK_Iteration_accumulators geometry flow config iRKStep s :
  accumulators <$> node (ExplicitRK_Iteration MPI_Recv SetResidual_RMS
                           geometry flow config iRKStep s)
  = accumulators <$> node s.
Proof.
  unfold ExplicitRK_Iteration.
  rewrite finish_iteration_accumulators. apply ExplicitRK_update_accumulators.
Qed.

Lemma ImplicitEuler_Iteration_keeps_accumulators geometry flow config s :
  accumulators <$> node (snd (ImplicitEuler_Iteration MPI_Recv SetResidual_RMS
     SGSSolution LU_SGSIteration BCGSTAB_solve FlexibleGMRES_solve
     geometry flow config s))
  = accumulators <$> node s.
Proof.
  rewrite ImplicitEuler_Iteration_stages. simpl snd.
  rewrite finish_iteration_accumulators.
  destruct (ImplicitEuler_update_spec geometry
    (snd (linear_solve_dispatch SGSSolution LU_SGSIteration BCGSTAB_solve
       FlexibleGMRES_solve false geometry config
       ([], ImplicitEuler_system geometry flow config s)))) as (_ & _ & _ & -> & _).
  destruct (linear_solve_dispatch_spec SGSSolution LU_SGSIteration BCGSTAB_solve
    FlexibleGMRES_solve false geometry config
    (ImplicitEuler_system geometry flow config s)) as ((-> & _) & _).
  rewrite ImplicitEuler_system_node. reflexivity.
Qed.

(** C6 (as amended): none of the three time-integration drivers writes a
    residual accumulator: after an explicit-Euler, a Runge-Kutta or an
    implicit-Euler iteration every node still holds the convective, viscous,
    source and truncation-error residuals it held before. The accumulators
    are zeroed by Preprocessing at the start of the next iteration: the
    convective and the source one always, the viscous one when the
    Runge-Kutta stage coefficient is not zero or the scheme is implicit. *)
Theorem C6_accumulators_zeroed_by_Preprocessing geometry flow config iRKStep s :
  accumulators <$> node (ExplicitEuler_Iteration MPI_Recv SetResidual_RMS
                           geometry flow config s)
  = accumulators <$> node s /\
  accumulators <$> node (ExplicitRK_Iteration MPI_Recv SetResidual_RMS
                           geometry flow config iRKStep s)
  = accumulators <$> node s /\
  accumulators <$> node (snd (ImplicitEuler_Iteration MPI_Recv SetResidual_RMS
     SGSSolution LU_SGSIteration BCGSTAB_solve FlexibleGMRES_solve
     geometry flow config s))
  = accumulators <$> node s /\
  forall p v, p < nPoint geometry -> p < length (node s) -> v < nVar s ->
    let c := node s !!! p in
    let c' := node (Preprocessing_residuals geometry config iRKStep s) !!! p in
    (v < length (Res_Conv c) -> Res_Conv c' !!! v = 0%R) /\
    (v < length (Res_Sour c) -> Res_Sour c' !!! v = 0%R) /\
    (v < length (Res_Visc c) ->
     Beta_RKStep config iRKStep <> 0%R \/
     Kind_TimeIntScheme_AdjFlow config = EULER_IMPLICIT ->
     Res_Visc c' !!! v = 0%R) /\
    (Beta_RKStep config iRKStep = 0%R ->
     Kind_TimeIntScheme_AdjFlow config <> EULER_IMPLICIT ->
     Res_Visc c' = Res_Visc c).
Proof.
  split; [apply ExplicitEuler_Iteration_accumulators |].
  split; [apply ExplicitRK_Iteration_accumulators |].
  split; [apply ImplicitEuler_Iteration_keeps_accumulators |].
  intros p v Hp Hpn Hv. cbv zeta.
  destruct (Preprocessing_residuals_node geometry config iRKStep s)
    as (_ & _ & Hnode).
  destruct (Hnode p Hpn Hp) as (_ & HC & HS & HV).
  rewrite HC, HS, HV.
  split; [intros Hl; apply vec_set_all_lookup_total; assumption |].
  split; [intros Hl; apply vec_set_all_lookup_total; assumption |].
  split.
  - intros Hl [Hb | Hi].
    + destruct (Req_EM_T (Beta_RKStep config iRKStep) 0); [contradiction |].
      simpl. apply vec_set_all_lookup_total; assumption.
    + rewrite Hi. rewrite orb_true_r.
      apply vec_set_all_lookup_total; assumption.
  - intros Hb Hi.
    destruct (Req_EM_T (Beta_RKStep config iRKStep) 0); [|contradiction].
    destruct (Kind_TimeIntScheme_AdjFlow config); try reflexivity.
    contradiction.
Qed.

End ResidualLifeCycle.

(** C6, as stated, fails: on the two-point mesh the first convective residual
    of node 0 is 1 before the step and it is not zero after an
    explicit-Euler, a Runge-Kutta or an implicit-Euler iteration. *)
Lemma C6_counterexample :
  let config := ex_config EULER_EXPLICIT CONTINUOUS ROE_1ST NONE LU_SGS in
  Res_Conv (node (ExplicitEuler_Iteration None ex_SetResidual_RMS
                    ex_geometry ex_flow config ex_solution) !!! 0) !!! 0 <> 0%R /\
  Res_Conv (node (ExplicitRK_Iteration None ex_SetResidual_RMS
                    ex_geometry ex_flow config 0 ex_solution) !!! 0) !!! 0 <> 0%R /\
  Res_Conv (node (snd (ImplicitEuler_Iteration None ex_SetResidual_RMS
                    ex_SGSSolution ex_LU_SGSIteration ex_Krylov ex_Krylov
                    ex_geometry ex_flow config ex_solution)) !!! 0) !!! 0 <> 0%R.
Proof.
  cbv zeta.
  rewrite (accumulators_Res_Conv _ _ 0
    (ExplicitEuler_Iteration_accumulators None ex_SetResidual_RMS ex_geometry ex_flow
       (ex_config EULER_EXPLICIT CONTINUOUS ROE_1ST NONE LU_SGS) ex_solution)).
  rewrite (accumulators_Res_Conv _ _ 0
    (ExplicitRK_Iteration_accumulators None ex_SetResidual_RMS ex_geometry ex_flow
       (ex_config EULER_EXPLICIT CONTINUOUS ROE_1ST NONE LU_SGS) 0 ex_solution)).
  rewrite (accumulators_Res_Conv _ _ 0
    (ImplicitEuler_Iteration_keeps_accumulators None ex_SetResidual_RMS
       ex_SGSSolution ex_LU_SGSIteration ex_Krylov ex_Krylov ex_geometry ex_flow
       (ex_config EULER_EXPLICIT CONTINUOUS ROE_1ST NONE LU_SGS) ex_solution)).
  change (Res_Conv (node ex_solution !!! 0) !!! 0) with 1%R.
  repeat split; lra.
Qed.

Lemma C6_witness :
  (0 < nPoint ex_geometry /\ 0 < length (node ex_solution) /\ 0 < nVar ex_solution) /\
  Res_Conv (node (Preprocessing_residuals ex_geometry
    (ex_config EULER_EXPLICIT CONTINUOUS ROE_1ST NONE LU_SGS) 0 ex_solution) !!! 0) !!! 0
  = 0%R.
Proof.
  split; [vm_compute; lia |].
  destruct (C6_accumulators_zeroed_by_Preprocessing None ex_SetResidual_RMS
    ex_SGSSolution ex_LU_SGSIteration ex_Krylov ex_Krylov ex_geometry ex_flow
    (ex_config EULER_EXPLICIT CONTINUOUS ROE_1ST NONE LU_SGS) 0 ex_solution)
    as (_ & _ & _ & H).
  destruct (H 0 0) as (HC & _); [vm_compute; lia | vm_compute; lia | vm_compute; lia |].
  apply HC. vm_compute. lia.
Defined.

Lemma C2_witness :
  let config := ex_config EULER_IMPLICIT CONTINUOUS ROE_1ST NONE LU_SGS in
  (nPointDomain ex_geometry <= nPoint ex_geometry /\
   nPoint ex_geometry * nVar ex_solution <= length (rhs ex_solution) /\
   nPoint ex_geometry * nVar ex_solution <= length (xsol ex_solution)) /\
  rhs (ImplicitEuler_system ex_geometry ex_flow config ex_solution) !! 2
  = Some (- (Res_Conv ex_variable !!! 2%nat + Res_Visc ex_variable !!! 2%nat
             + Res_Sour ex_variable !!! 2%nat
             + Res_TruncError ex_variable !!! 2%nat))%R /\
  rhs (ImplicitEuler_system ex_geometry ex_flow config ex_solution) !! 6
  = Some 0%R.
Proof.
  cbv zeta. split; [vm_compute; lia |].
  destruct (C2_ImplicitEuler_Iteration None ex_SetResidual_RMS ex_SGSSolution
    ex_LU_SGSIteration ex_Krylov ex_Krylov ex_geometry ex_flow
    (ex_config EULER_IMPLICIT CONTINUOUS ROE_1ST NONE LU_SGS) ex_solution)
    as (_ & _ & _ & Howned & Hhalo & _);
    [vm_compute; lia | vm_compute; lia | vm_compute; lia |].
  split; [apply (Howned 0 2); vm_compute; lia |].
  apply (Hhalo 1 2); vm_compute; lia.
Defined.

Lemma C3_witness :
  let config := ex_config EULER_IMPLICIT DISCRETE ROE_1ST NONE SYM_GAUSS_SEIDEL in
  (nPointDomain ex_geometry * nVar ex_solution <= length (rhs ex_solution) /\
   nPointDomain ex_geometry * nVar ex_solution <= length (xsol ex_solution)) /\
  rhs (Solve_LinearSystem_system ex_geometry ex_solution) !! 1
  = Some (ObjFuncSource (node ex_solution !!! 0) !!! 1) /\
  xsol (snd (linear_solve_dispatch ex_SGSSolution ex_LU_SGSIteration ex_Krylov
               ex_Krylov true ex_geometry config
               ([], Solve_LinearSystem_system ex_geometry ex_solution)))
  = ex_SGSSolution (Jacobian ex_solution)
      (rhs (Solve_LinearSystem_system ex_geometry ex_solution))
      (xsol (Solve_LinearSystem_system ex_geometry ex_solution))
      (Linear_Solver_Error config) (Linear_Solver_Iter config) true
      ex_geometry config.
Proof.
  cbv zeta. split; [vm_compute; lia |].
  destruct (C3_Solve_LinearSystem ex_SGSSolution ex_LU_SGSIteration ex_Krylov
    ex_Krylov ex_geometry
    (ex_config EULER_IMPLICIT DISCRETE ROE_1ST NONE SYM_GAUSS_SEIDEL) ex_solution)
    as (_ & _ & Hrhs & _ & Hsolve & _); [vm_compute; lia | vm_compute; lia |].
  split; [apply (Hrhs 0 1); vm_compute; lia |].
  exact (proj2 Hsolve).
Defined.

(** ** Residual assembly: the MUSCL reconstruction *)

Lemma project_grad_count (n i : nat) (a b : R) (u u' g g' : list R) :
  for_count n i (fun iDim '(P_i, P_j) =>
      ((P_i + u !!! iDim * g !!! iDim)%R, (P_j + u' !!! iDim * g' !!! iDim)%R))
    (a, b)
  = (i + n,
     (fold_left (fun a d => (a + u !!! d * g !!! d)%R) (seq i n) a,
      fold_left (fun a d => (a + u' !!! d * g' !!! d)%R) (seq i n) b)).
Proof.
  revert i a b. induction n as [|n IH]; intros i a b; simpl.
  - rewrite Nat.add_0_r. reflexivity.
  - rewrite IH. f_equal. lia.
Qed.

Lemma project_grad_loop (n : nat) (u u' g g' : list R) :
  for_loop 0 n (fun iDim '(P_i, P_j) =>
      ((P_i + u !!! iDim * g !!! iDim)%R, (P_j + u' !!! iDim * g' !!! iDim)%R))
    (0%R, 0%R)
  = (n, (dot_n n u g, dot_n n u' g')).
Proof.
  unfold for_loop, dot_n. rewrite Nat.sub_0_r, project_grad_count. reflexivity.
Qed.

Lemma vector_loop (n : nat) (xi xj V_i V_j : list R) :
  n <= length V_i -> n <= length V_j ->
  let r := snd (for_loop 0 n (fun iDim '(V_i, V_j) =>
      (<[iDim := (0.5 * (xj !!! iDim - xi !!! iDim))%R]> V_i,
       <[iDim := (0.5 * (xi !!! iDim - xj !!! iDim))%R]> V_j)) (V_i, V_j)) in
  length (fst r) = length V_i /\ length (snd r) = length V_j /\
  forall d, d < n ->
    fst r !!! d = (0.5 * (xj !!! d - xi !!! d))%R /\
    snd r !!! d = (0.5 * (xi !!! d - xj !!! d))%R.
Proof.
  intros Hi Hj. cbv zeta.
  apply (for_loop_inv (fun k (st : list R * list R) =>
    length (fst st) = length V_i /\ length (snd st) = length V_j /\
    forall d, d < k ->
      fst st !!! d = (0.5 * (xj !!! d - xi !!! d))%R /\
      snd st !!! d = (0.5 * (xi !!! d - xj !!! d))%R)); [lia | |].
  - simpl. repeat split; try reflexivity; lia.
  - intros k [A B] Hk (HA & HB & Hval). simpl in *.
    rewrite !length_insert. split; [exact HA |]. split; [exact HB |].
    intros d Hd. destruct (decide (d = k)) as [->|Hne].
    + rewrite !list_lookup_total_insert_eq by lia. split; reflexivity.
    + rewrite !list_lookup_total_insert_ne by congruence. apply Hval. lia.
Qed.

Section AssemblyFacts.

Variable SetResidual_centered : CNumerics -> CConfig -> CenteredFlux.
Variable SetResidual_upwind : CNumerics -> CConfig -> UpwindFlux.
Variable SetResidual_discrete : CNumerics -> CConfig -> Block * Block.

(** C9: with a slope limiter enabled, the reconstructed adjoint state that
    second-order upwind assembly hands to the flux routine is, for every
    variable iVar of either end point of the edge, the nodal value plus the
    projected gradient times the limiter component at index nDim (the value
    of the dimension counter when its loop exits), not the limiter component
    of the variable itself. *)
Theorem C9_limiter_index_after_loop geometry flow config iMesh iEdge num scr s iVar :
  Kind_SlopeLimit config <> NONE ->
  Kind_Adjoint config <> DISCRETE ->
  Kind_Upwind config = ROE_2ND \/ Kind_Upwind config = SW_2ND ->
  iMesh = MESH_0 ->
  iVar < nVar s ->
  nVar s <= length (Solution_i scr) -> nVar s <= length (Solution_j scr) ->
  nDim s <= length (Vector_i scr) -> nDim s <= length (Vector_j scr) ->
  let iPoint := edge_Node0 (geo_edge geometry !!! iEdge) in
  let jPoint := edge_Node1 (geo_edge geometry !!! iEdge) in
  let x_i := Coord (geo_node geometry !!! iPoint) in
  let x_j := Coord (geo_node geometry !!! jPoint) in
  let c_i := node s !!! iPoint in
  let c_j := node s !!! jPoint in
  let r := Upwind_numerics geometry flow config iMesh iEdge num scr s in
  (forall d, d < nDim s ->
     Vector_i (snd r) !!! d = (0.5 * (x_j !!! d - x_i !!! d))%R /\
     Vector_j (snd r) !!! d = (0.5 * (x_i !!! d - x_j !!! d))%R) /\
  num_Psi_i (fst r) !!! iVar
  = (Solution c_i !!! iVar
     + dot_n (nDim s) (Vector_i (snd r)) (Gradient c_i !!! iVar)
       * Limiter c_i !!! (nDim s))%R /\
  num_Psi_j (fst r) !!! iVar
  = (Solution c_j !!! iVar
     + dot_n (nDim s) (Vector_j (snd r)) (Gradient c_j !!! iVar)
       * Limiter c_j !!! (nDim s))%R.
Proof.
  intros Hlim Hadj Hup -> HiVar HSi HSj HVi HVj. cbv zeta.
  unfold Upwind_numerics. cbv zeta.
  assert (Hhigh : (is_ROE_2ND (Kind_Upwind config) || is_SW_2ND (Kind_Upwind config))
                  && (MESH_0 =? MESH_0) = true).
  { destruct Hup as [-> | ->]; reflexivity. }
  assert (Hdisc : is_DISCRETE (Kind_Adjoint config) = false).
  { destruct (Kind_Adjoint config); try reflexivity. contradiction. }
  rewrite Hhigh, Hdisc. simpl negb. simpl andb. cbv iota. simpl fst. simpl snd.
  simpl num_Psi_i. simpl num_Psi_j.
  unfold Upwind_reconstruction. cbv zeta.
  assert (Hl : negb (is_NONE (Kind_SlopeLimit config)) = true).
  { destruct (Kind_SlopeLimit config); [contradiction | reflexivity]. }
  rewrite Hl.
  set (iPoint := edge_Node0 (geo_edge geometry !!! iEdge)).
  set (jPoint := edge_Node1 (geo_edge geometry !!! iEdge)).
  pose proof (vector_loop (nDim s) (Coord (geo_node geometry !!! iPoint))
    (Coord (geo_node geometry !!! jPoint)) (Vector_i scr) (Vector_j scr) HVi HVj) as HV.
  cbv zeta in HV.
  match type of HV with
  | context [snd (for_loop 0 ?n ?body ?init)] =>
      change (snd (for_loop 0 n body init)) with (snd (for_loop 0 n body init)) in HV;
      destruct (snd (for_loop 0 n body init)) as [V_i V_j] eqn:EV
  end.
  simpl in HV. destruct HV as (HlVi & HlVj & HVval).
  set (F_i := fun v => (Solution (node s !!! iPoint) !!! v
     + dot_n (nDim s) V_i (Gradient (node s !!! iPoint) !!! v)
       * Limiter (node s !!! iPoint) !!! (nDim s))%R).
  set (F_j := fun v => (Solution (node s !!! jPoint) !!! v
     + dot_n (nDim s) V_j (Gradient (node s !!! jPoint) !!! v)
       * Limiter (node s !!! jPoint) !!! (nDim s))%R).
  match goal with
  | |- context [snd (for_loop 0 (nVar s) ?body (Solution_i scr, Solution_j scr))] =>
      assert (HS : forall k, k <= nVar s ->
        let st := snd (for_loop 0 k body (Solution_i scr, Solution_j scr)) in
        length (fst st) = length (Solution_i scr) /\
        length (snd st) = length (Solution_j scr) /\
        forall v, v < k -> fst st !!! v = F_i v /\ snd st !!! v = F_j v);
      [| destruct (snd (for_loop 0 (nVar s) body (Solution_i scr, Solution_j scr)))
           as [S_i S_j] eqn:ES;
         specialize (HS (nVar s) (Nat.le_refl _)); rewrite ES in HS ]
  end.
  { intros k Hk. cbv zeta.
    apply (for_loop_inv (fun k (st : list R * list R) =>
      length (fst st) = length (Solution_i scr) /\
      length (snd st) = length (Solution_j scr) /\
      forall v, v < k -> fst st !!! v = F_i v /\ snd st !!! v = F_j v)); [lia | |].
    - simpl. repeat split; try reflexivity; lia.
    - intros v [A B] Hv (HA & HB & Hval).
      rewrite project_grad_loop. simpl in *.
      rewrite !length_insert. split; [exact HA |]. split; [exact HB |].
      intros w Hw. destruct (decide (w = v)) as [->|Hne].
      + rewrite !list_lookup_total_insert_eq by lia. split; reflexivity.
      + rewrite !list_lookup_total_insert_ne by congruence. apply Hval. lia. }
  simpl in HS. destruct HS as (_ & _ & HSval). simpl.
  split; [exact HVval |]. apply HSval. exact HiVar.
Qed.

(** ** Residual assembly: what an edge does to its end points *)

Lemma SubtractRes_Conv_lookup (n : nat) (val : list R) (c : CVariable) (v : nat) :
  v < n -> v < length (Res_Conv c) ->
  Res_Conv (SubtractRes_Conv n val c) !!! v = (Res_Conv c !!! v - val !!! v)%R.
Proof. intros Hn Hl. simpl. apply vec_set_all_lookup_total; assumption. Qed.

Lemma SubtractRes_Visc_lookup (n : nat) (val : list R) (c : CVariable) (v : nat) :
  v < n -> v < length (Res_Visc c) ->
  Res_Visc (SubtractRes_Visc n val c) !!! v = (Res_Visc c !!! v - val !!! v)%R.
Proof. intros Hn Hl. simpl. apply vec_set_all_lookup_total; assumption. Qed.

Ltac alter_total :=
  repeat first
    [ rewrite list_lookup_total_alter_eq by (rewrite ?length_alter; lia)
    | rewrite list_lookup_total_alter_ne by congruence ].

Lemma four_blocks (o1 o2 o3 o4 : bool) (i j : nat) (B1 B2 B3 B4 : Block)
    (M : CSparseMatrix) (a b : nat) :
  i <> j -> a < mat_nVar M -> b < mat_nVar M ->
  let M' := block_op o4 j j B4 (block_op o3 j i B3 (block_op o2 i j B2
              (block_op o1 i i B1 M))) in
  let sg := fun (o : bool) (x : R) => if o then x else (- x)%R in
  mat_nVar M' = mat_nVar M /\
  mat_val M' i i a b = (mat_val M i i a b + sg o1 (block_get B1 a b))%R /\
  mat_val M' i j a b = (mat_val M i j a b + sg o2 (block_get B2 a b))%R /\
  mat_val M' j i a b = (mat_val M j i a b + sg o3 (block_get B3 a b))%R /\
  mat_val M' j j a b = (mat_val M j j a b + sg o4 (block_get B4 a b))%R /\
  forall i' j', ~ ((i' = i \/ i' = j) /\ (j' = i \/ j' = j)) ->
    mat_val M' i' j' a b = mat_val M i' j' a b.
Proof.
  intros Hij Ha Hb. cbv zeta.
  split; [destruct o1, o2, o3, o4; reflexivity |].
  repeat split; try (intros i' j' Hn);
    destruct o1, o2, o3, o4; simpl; unfold in_block; simpl;
    case_nat_tests; simpl; try lra; try lia; try reflexivity;
    exfalso; try (apply Hn; lia).
Qed.

Lemma Centered_edge_nodes geometry flow config iMesh iRKStep iEdge num s :
  let iPoint := edge_Node0 (geo_edge geometry !!! iEdge) in
  let jPoint := edge_Node1 (geo_edge geometry !!! iEdge) in
  let flux := SetResidual_centered
                (Centered_numerics geometry flow config iMesh iRKStep iEdge num s)
                config in
  let s' := snd (Centered_edge SetResidual_centered geometry flow config
                   iMesh iRKStep iEdge (num, s)) in
  iPoint <> jPoint -> iPoint < length (node s) -> jPoint < length (node s) ->
  nVar s' = nVar s /\ length (node s') = length (node s) /\
  Res_Conv (node s' !!! iPoint)
  = Res_Conv (SubtractRes_Conv (nVar s) (cf_Res_Conv_i flux) (node s !!! iPoint)) /\
  Res_Conv (node s' !!! jPoint)
  = Res_Conv (SubtractRes_Conv (nVar s) (cf_Res_Conv_j flux) (node s !!! jPoint)) /\
  (forall p, p <> iPoint -> p <> jPoint -> node s' !!! p = node s !!! p).
Proof.
  cbv zeta. intros Hij Hi Hj. unfold Centered_edge. cbv zeta.
  destruct (_ || is_EULER_IMPLICIT _); destruct (is_EULER_IMPLICIT _); simpl;
    rewrite ?length_alter; (split; [reflexivity |]); (split; [reflexivity |]);
    (split; [alter_total; reflexivity |]); (split; [alter_total; reflexivity |]);
    intros p Hpi Hpj; alter_total; reflexivity.
Qed.

Lemma Centered_edge_Jacobian geometry flow config iMesh iRKStep iEdge num s :
  let flux := SetResidual_centered
                (Centered_numerics geometry flow config iMesh iRKStep iEdge num s)
                config in
  let iPoint := edge_Node0 (geo_edge geometry !!! iEdge) in
  let jPoint := edge_Node1 (geo_edge geometry !!! iEdge) in
  Jacobian (snd (Centered_edge SetResidual_centered geometry flow config
                   iMesh iRKStep iEdge (num, s)))
  = if is_EULER_IMPLICIT (Kind_TimeIntScheme_AdjFlow config)
    then block_op false jPoint jPoint (cf_Jacobian_jj flux)
           (block_op false jPoint iPoint (cf_Jacobian_ji flux)
              (block_op false iPoint jPoint (cf_Jacobian_ij flux)
                 (block_op false iPoint iPoint (cf_Jacobian_ii flux) (Jacobian s))))
    else Jacobian s.
Proof.
  cbv zeta. unfold Centered_edge. cbv zeta.
  destruct (_ || is_EULER_IMPLICIT _); destruct (is_EULER_IMPLICIT _); reflexivity.
Qed.

Lemma Upwind_edge_continuous geometry flow config iMesh iEdge num scr s :
  Kind_Adjoint config <> DISCRETE ->
  let iPoint := edge_Node0 (geo_edge geometry !!! iEdge) in
  let jPoint := edge_Node1 (geo_edge geometry !!! iEdge) in
  let flux := SetResidual_upwind
                (fst (Upwind_numerics geometry flow config iMesh iEdge num scr s))
                config in
  let s' := snd (Upwind_edge SetResidual_upwind SetResidual_discrete geometry flow
                   config iMesh iEdge (num, scr, s)) in
  Jacobian s'
  = (if is_EULER_IMPLICIT (Kind_TimeIntScheme_AdjFlow config)
     then block_op false jPoint jPoint (uf_Jacobian_jj flux)
            (block_op false jPoint iPoint (uf_Jacobian_ji flux)
               (block_op false iPoint jPoint (uf_Jacobian_ij flux)
                  (block_op false iPoint iPoint (uf_Jacobian_ii flux) (Jacobian s))))
     else Jacobian s) /\
  (iPoint <> jPoint -> iPoint < length (node s) -> jPoint < length (node s) ->
   nVar s' = nVar s /\ length (node s') = length (node s) /\
   Res_Conv (node s' !!! iPoint)
   = Res_Conv (SubtractRes_Conv (nVar s) (uf_Residual_i flux) (node s !!! iPoint)) /\
   Res_Conv (node s' !!! jPoint)
   = Res_Conv (SubtractRes_Conv (nVar s) (uf_Residual_j flux) (node s !!! jPoint)) /\
   (forall p, p <> iPoint -> p <> jPoint -> node s' !!! p = node s !!! p)).
Proof.
  intros Hadj. cbv zeta. unfold Upwind_edge. cbv zeta.
  destruct (Upwind_numerics geometry flow config iMesh iEdge num scr s) as [num' scr'].
  assert (Hdisc : is_DISCRETE (Kind_Adjoint config) = false).
  { destruct (Kind_Adjoint config); try reflexivity. contradiction. }
  rewrite Hdisc. simpl fst.
  split.
  - destruct (is_EULER_IMPLICIT _); reflexivity.
  - intros Hij Hi Hj.
    destruct (is_EULER_IMPLICIT _); simpl;
      rewrite ?length_alter; (split; [reflexivity |]); (split; [reflexivity |]);
      (split; [alter_total; reflexivity |]); (split; [alter_total; reflexivity |]);
      intros p Hpi Hpj; alter_total; reflexivity.
Qed.

Lemma Upwind_edge_discrete geometry flow config iMesh iEdge num scr s :
  Kind_Adjoint config = DISCRETE ->
  let iPoint := edge_Node0 (geo_edge geometry !!! iEdge) in
  let jPoint := edge_Node1 (geo_edge geometry !!! iEdge) in
  let J := SetResidual_discrete
             (fst (Upwind_numerics geometry flow config iMesh iEdge num scr s))
             config in
  let high_order_diss :=
    (is_ROE_2ND (Kind_Upwind config) || is_SW_2ND (Kind_Upwind config))
    && (iMesh =? MESH_0) in
  let s' := snd (Upwind_edge SetResidual_upwind SetResidual_discrete geometry flow
                   config iMesh iEdge (num, scr, s)) in
  node s' = node s /\
  Jacobian s'
  = if high_order_diss then Jacobian s
    else block_op false jPoint jPoint (snd J)
           (block_op true jPoint iPoint (snd J)
              (block_op false iPoint jPoint (fst J)
                 (block_op true iPoint iPoint (fst J) (Jacobian s)))).
Proof.
  intros Hadj. cbv zeta. unfold Upwind_edge. cbv zeta.
  destruct (Upwind_numerics geometry flow config iMesh iEdge num scr s) as [num' scr'].
  rewrite Hadj. simpl is_DISCRETE. cbv iota. simpl fst.
  destruct (SetResidual_discrete num' config) as [Ji Jj].
  destruct ((is_ROE_2ND _ || is_SW_2ND _) && _); simpl; split; reflexivity.
Qed.

(** C1 (as amended): for an edge (node0, node1) with distinct end points,
    centered and continuous-adjoint upwind assembly subtract the flux
    routine's residual of node0 from node0 and its residual of node1 from
    node1 (both are subtractions), and an implicit run subtracts the four
    Jacobian blocks ii, ij, ji, jj from the matrix. Discrete-adjoint
    first-order upwind assembly leaves the residuals alone and applies the two
    blocks in transposed positions: Jacobian_i is added to block
    (node0,node0) and subtracted from block (node0,node1), Jacobian_j is added
    to block (node1,node0) and subtracted from block (node1,node1). *)
Theorem C1_edge_assembly_signs geometry flow config iMesh iRKStep iEdge num scr s a b v :
  let iPoint := edge_Node0 (geo_edge geometry !!! iEdge) in
  let jPoint := edge_Node1 (geo_edge geometry !!! iEdge) in
  iPoint <> jPoint -> iPoint < length (node s) -> jPoint < length (node s) ->
  v < nVar s ->
  v < length (Res_Conv (node s !!! iPoint)) ->
  v < length (Res_Conv (node s !!! jPoint)) ->
  a < mat_nVar (Jacobian s) -> b < mat_nVar (Jacobian s) ->
  (let flux := SetResidual_centered
                 (Centered_numerics geometry flow config iMesh iRKStep iEdge num s)
                 config in
   let s' := snd (Centered_edge SetResidual_centered geometry flow config
                    iMesh iRKStep iEdge (num, s)) in
   Res_Conv (node s' !!! iPoint) !!! v
   = (Res_Conv (node s !!! iPoint) !!! v - cf_Res_Conv_i flux !!! v)%R /\
   Res_Conv (node s' !!! jPoint) !!! v
   = (Res_Conv (node s !!! jPoint) !!! v - cf_Res_Conv_j flux !!! v)%R /\
   (Kind_TimeIntScheme_AdjFlow config = EULER_IMPLICIT ->
    mat_val (Jacobian s') iPoint iPoint a b
    = (mat_val (Jacobian s) iPoint iPoint a b - block_get (cf_Jacobian_ii flux) a b)%R /\
    mat_val (Jacobian s') iPoint jPoint a b
    = (mat_val (Jacobian s) iPoint jPoint a b - block_get (cf_Jacobian_ij flux) a b)%R /\
    mat_val (Jacobian s') jPoint iPoint a b
    = (mat_val (Jacobian s) jPoint iPoint a b - block_get (cf_Jacobian_ji flux) a b)%R /\
    mat_val (Jacobian s') jPoint jPoint a b
    = (mat_val (Jacobian s) jPoint jPoint a b - block_get (cf_Jacobian_jj flux) a b)%R)) /\
  (let flux := SetResidual_upwind
                 (fst (Upwind_numerics geometry flow config iMesh iEdge num scr s))
                 config in
   let s' := snd (Upwind_edge SetResidual_upwind SetResidual_discrete geometry flow
                    config iMesh iEdge (num, scr, s)) in
   Kind_Adjoint config <> DISCRETE ->
   Res_Conv (node s' !!! iPoint) !!! v
   = (Res_Conv (node s !!! iPoint) !!! v - uf_Residual_i flux !!! v)%R /\
   Res_Conv (node s' !!! jPoint) !!! v
   = (Res_Conv (node s !!! jPoint) !!! v - uf_Residual_j flux !!! v)%R /\
   (Kind_TimeIntScheme_AdjFlow config = EULER_IMPLICIT ->
    mat_val (Jacobian s') iPoint iPoint a b
    = (mat_val (Jacobian s) iPoint iPoint a b - block_get (uf_Jacobian_ii flux) a b)%R /\
    mat_val (Jacobian s') iPoint jPoint a b
    = (mat_val (Jacobian s) iPoint jPoint a b - block_get (uf_Jacobian_ij flux) a b)%R /\
    mat_val (Jacobian s') jPoint iPoint a b
    = (mat_val (Jacobian s) jPoint iPoint a b - block_get (uf_Jacobian_ji flux) a b)%R /\
    mat_val (Jacobian s') jPoint jPoint a b
    = (mat_val (Jacobian s) jPoint jPoint a b - block_get (uf_Jacobian_jj flux) a b)%R)) /\
  (let J := SetResidual_discrete
              (fst (Upwind_numerics geometry flow config iMesh iEdge num scr s))
              config in
   let s' := snd (Upwind_edge SetResidual_upwind SetResidual_discrete geometry flow
                    config iMesh iEdge (num, scr, s)) in
   Kind_Adjoint config = DISCRETE ->
   (is_ROE_2ND (Kind_Upwind config) || is_SW_2ND (Kind_Upwind config))
   && (iMesh =? MESH_0) = false ->
   node s' = node s /\
   mat_val (Jacobian s') iPoint iPoint a b
   = (mat_val (Jacobian s) iPoint iPoint a b + block_get (fst J) a b)%R /\
   mat_val (Jacobian s') iPoint jPoint a b
   = (mat_val (Jacobian s) iPoint jPoint a b - block_get (fst J) a b)%R /\
   mat_val (Jacobian s') jPoint iPoint a b
   = (mat_val (Jacobian s) jPoint iPoint a b + block_get (snd J) a b)%R /\
   mat_val (Jacobian s') jPoint jPoint a b
   = (mat_val (Jacobian s) jPoint jPoint a b - block_get (snd J) a b)%R).
Proof.
  cbv zeta. intros Hij Hi Hj Hv Hvi Hvj Ha Hb.
  split; [| split].
  - destruct (Centered_edge_nodes geometry flow config iMesh iRKStep iEdge num s
              Hij Hi Hj) as (_ & _ & HCi & HCj & _).
    rewrite HCi, HCj, !SubtractRes_Conv_lookup by assumption.
    split; [reflexivity |]. split; [reflexivity |].
    intros Himp. rewrite Centered_edge_Jacobian, Himp. simpl is_EULER_IMPLICIT. cbv iota.
    match goal with
    | |- context [block_op false _ _ ?B4 (block_op false _ _ ?B3
                    (block_op false _ _ ?B2 (block_op false _ _ ?B1 _)))] =>
        destruct (four_blocks false false false false _ _ B1 B2 B3 B4
                    (Jacobian s) a b Hij Ha Hb) as (_ & H1 & H2 & H3 & H4 & _)
    end.
    rewrite H1, H2, H3, H4. repeat split; lra.
  - intros Hadj.
    destruct (Upwind_edge_continuous geometry flow config iMesh iEdge num scr s Hadj)
      as (HJ & Hn).
    destruct (Hn Hij Hi Hj) as (_ & _ & HCi & HCj & _).
    rewrite HCi, HCj, !SubtractRes_Conv_lookup by assumption.
    split; [reflexivity |]. split; [reflexivity |].
    intros Himp. rewrite HJ, Himp. simpl is_EULER_IMPLICIT. cbv iota.
    match goal with
    | |- context [block_op false _ _ ?B4 (block_op false _ _ ?B3
                    (block_op false _ _ ?B2 (block_op false _ _ ?B1 _)))] =>
        destruct (four_blocks false false false false _ _ B1 B2 B3 B4
                    (Jacobian s) a b Hij Ha Hb) as (_ & H1 & H2 & H3 & H4 & _)
    end.
    rewrite H1, H2, H3, H4. repeat split; lra.
  - intros Hadj Hlow.
    destruct (Upwind_edge_discrete geometry flow config iMesh iEdge num scr s Hadj)
      as (Hnode & HJ).
    split; [exact Hnode |]. rewrite HJ, Hlow.
    match goal with
    | |- context [block_op false _ _ ?B4 (block_op true _ _ ?B3
                    (block_op false _ _ ?B2 (block_op true _ _ ?B1 _)))] =>
        destruct (four_blocks true false true false _ _ B1 B2 B3 B4
                    (Jacobian s) a b Hij Ha Hb) as (_ & H1 & H2 & H3 & H4 & _)
    end.
    rewrite H1, H2, H3, H4. repeat split; lra.
Qed.

End AssemblyFacts.

(** ** The acoustic coupling boundary *)

Lemma vec_set_all_const_idem (n : nat) (h : nat -> R) (x : list R) :
  vec_set_all n (fun k _ => h k) (vec_set_all n (fun k _ => h k) x)
  = vec_set_all n (fun k _ => h k) x.
Proof.
  apply list_eq. intros k.
  destruct (Nat.lt_ge_cases k (length x)) as [Hk | Hk].
  - rewrite (proj2 (vec_set_all_spec n _ (vec_set_all n (fun k _ => h k) x)) k)
      by (rewrite vec_set_all_length; exact Hk).
    rewrite (proj2 (vec_set_all_spec n _ x) k Hk).
    destruct (k <? n) eqn:E; [reflexivity |].
    rewrite (lookup_total_Some _ _ _ (proj2 (vec_set_all_spec n _ x) k Hk)).
    rewrite E. reflexivity.
  - rewrite !lookup_ge_None_2; [reflexivity | |];
      rewrite ?vec_set_all_length; exact Hk.
Qed.

Lemma CVariable_eq (c c' : CVariable) :
  Solution c = Solution c' -> Solution_Old c = Solution_Old c' ->
  Residual c = Residual c' -> Res_Conv c = Res_Conv c' ->
  Res_Visc c = Res_Visc c' -> Res_Sour c = Res_Sour c' ->
  Res_TruncError c = Res_TruncError c' -> ObjFuncSource c = ObjFuncSource c' ->
  IntBoundary_Jump c = IntBoundary_Jump c' -> Gradient c = Gradient c' ->
  Limiter c = Limiter c' -> Und_Lapl c = Und_Lapl c' -> Sensor c = Sensor c' ->
  c = c'.
Proof. destruct c, c'. simpl. intros. subst. reflexivity. Qed.

Lemma FWH_node_fields (n : nat) (c : CVariable) :
  Solution (FWH_node n c)
  = vec_set_all n (fun k _ => IntBoundary_Jump c !!! k) (Solution c) /\
  Solution_Old (FWH_node n c)
  = vec_set_all n (fun k _ => IntBoundary_Jump c !!! k) (Solution_Old c) /\
  Res_Conv (FWH_node n c) = vec_set_all n (fun _ _ => 0%R) (Res_Conv c) /\
  Res_Visc (FWH_node n c) = vec_set_all n (fun _ _ => 0%R) (Res_Visc c) /\
  Res_Sour (FWH_node n c) = vec_set_all n (fun _ _ => 0%R) (Res_Sour c) /\
  Res_TruncError (FWH_node n c) = vec_set_all n (fun _ _ => 0%R) (Res_TruncError c) /\
  (Residual (FWH_node n c) = Residual c /\
   ObjFuncSource (FWH_node n c) = ObjFuncSource c /\
   IntBoundary_Jump (FWH_node n c) = IntBoundary_Jump c /\
   Gradient (FWH_node n c) = Gradient c /\
   Limiter (FWH_node n c) = Limiter c /\
   Und_Lapl (FWH_node n c) = Und_Lapl c /\
   Sensor (FWH_node n c) = Sensor c).
Proof. repeat split. Qed.

Lemma FWH_node_idem (n : nat) (c : CVariable) :
  FWH_node n (FWH_node n c) = FWH_node n c.
Proof.
  destruct (FWH_node_fields n c)
    as (A1 & A2 & A3 & A4 & A5 & A6 & A7 & A8 & A9 & A10 & A11 & A12 & A13).
  destruct (FWH_node_fields n (FWH_node n c))
    as (B1 & B2 & B3 & B4 & B5 & B6 & B7 & B8 & B9 & B10 & B11 & B12 & B13).
  apply CVariable_eq; try congruence.
  - rewrite B1, A9, A1. apply (vec_set_all_const_idem n (fun k => IntBoundary_Jump c !!! k)).
  - rewrite B2, A9, A2. apply (vec_set_all_const_idem n (fun k => IntBoundary_Jump c !!! k)).
  - rewrite B3, A3. apply (vec_set_all_const_idem n (fun _ => 0%R)).
  - rewrite B4, A4. apply (vec_set_all_const_idem n (fun _ => 0%R)).
  - rewrite B5, A5. apply (vec_set_all_const_idem n (fun _ => 0%R)).
  - rewrite B6, A6. apply (vec_set_all_const_idem n (fun _ => 0%R)).
Qed.

Lemma BC_FWH_vertex_fields geometry config val_marker iVertex s :
  let p := vertex_Node ((geo_vertex geometry !!! val_marker) !!! iVertex) in
  let s' := BC_FWH_vertex geometry config val_marker iVertex s in
  nVar s' = nVar s /\ node s' = alter (FWH_node (nVar s)) p (node s) /\
  mat_nVar (Jacobian s') = mat_nVar (Jacobian s) /\
  (Kind_TimeIntScheme_AdjFlow config <> EULER_IMPLICIT -> Jacobian s' = Jacobian s) /\
  forall i' j' a b,
    mat_val (Jacobian s') i' j' a b
    = if is_EULER_IMPLICIT (Kind_TimeIntScheme_AdjFlow config)
         && existsb (fun iVar =>
              (i' =? (p * nVar s + iVar) / mat_nVar (Jacobian s))
              && (a =? (p * nVar s + iVar) mod mat_nVar (Jacobian s)))
              (seq 0 (nVar s))
      then (if (j' =? i') && (b =? a) then 1%R else 0%R)
      else mat_val (Jacobian s) i' j' a b.
Proof.
  cbv zeta. unfold BC_FWH_vertex. cbv zeta.
  set (p := vertex_Node ((geo_vertex geometry !!! val_marker) !!! iVertex)).
  set (s1 := at_node p (SetRes_TruncErrorZero _) _).
  assert (Hs1 : nVar s1 = nVar s /\ node s1 = alter (FWH_node (nVar s)) p (node s) /\
                Jacobian s1 = Jacobian s).
  { unfold s1. simpl. rewrite !alter_alter_same. repeat split. }
  destruct Hs1 as (Hn1 & Hnode1 & HJ1).
  destruct (is_EULER_IMPLICIT (Kind_TimeIntScheme_AdjFlow config)) eqn:Himp.
  - rewrite Hn1.
    assert (HL : forall k, k <= nVar s ->
      let st := snd (for_loop 0 k (fun iVar st =>
                  with_Jacobian (DeleteValsRowi (p * nVar st + iVar) (Jacobian st)) st) s1) in
      nVar st = nVar s /\ node st = node s1 /\
      mat_nVar (Jacobian st) = mat_nVar (Jacobian s) /\
      forall i' j' a b,
        mat_val (Jacobian st) i' j' a b
        = if existsb (fun iVar =>
               (i' =? (p * nVar s + iVar) / mat_nVar (Jacobian s))
               && (a =? (p * nVar s + iVar) mod mat_nVar (Jacobian s))) (seq 0 k)
          then (if (j' =? i') && (b =? a) then 1%R else 0%R)
          else mat_val (Jacobian s) i' j' a b).
    { intros k Hk. cbv zeta.
      apply (for_loop_inv (fun k st =>
        nVar st = nVar s /\ node st = node s1 /\
        mat_nVar (Jacobian st) = mat_nVar (Jacobian s) /\
        forall i' j' a b,
          mat_val (Jacobian st) i' j' a b
          = if existsb (fun iVar =>
                 (i' =? (p * nVar s + iVar) / mat_nVar (Jacobian s))
                 && (a =? (p * nVar s + iVar) mod mat_nVar (Jacobian s))) (seq 0 k)
            then (if (j' =? i') && (b =? a) then 1%R else 0%R)
            else mat_val (Jacobian s) i' j' a b)); [lia | |].
      - rewrite HJ1. repeat split; try assumption. 
      - intros j st Hj (H1 & H2 & H3 & H4).
        cbn [nVar node Jacobian with_Jacobian mat_nVar mat_val DeleteValsRowi].
        split; [exact H1 |]. split; [exact H2 |]. split; [exact H3 |].
        intros i' j' a b. rewrite H1, H3, H4.
        rewrite seq_S, existsb_app. cbn [existsb Nat.add]. rewrite orb_false_r.
        destruct (existsb _ (seq 0 j)); simpl;
          destruct ((i' =? _) && (a =? _)); reflexivity. }
    destruct (HL (nVar s) (Nat.le_refl _)) as (H1 & H2 & H3 & H4).
    split; [exact H1 |]. split; [rewrite H2; exact Hnode1 |].
    split; [exact H3 |]. split; [intros Hne; discriminate || (exfalso; apply Hne;
      destruct (Kind_TimeIntScheme_AdjFlow config); try discriminate; reflexivity) |].
    intros i' j' a b. rewrite H4. reflexivity.
  - split; [exact Hn1 |]. split; [exact Hnode1 |]. rewrite HJ1.
    split; [reflexivity |]. split; [reflexivity |]. intros. reflexivity.
Qed.

Lemma flat_index_div_mod (p n v : nat) :
  v < n -> (p * n + v) / n = p /\ (p * n + v) mod n = v.
Proof.
  intros Hv. split.
  - rewrite Nat.div_add_l by lia. rewrite Nat.div_small by lia. lia.
  - rewrite Nat.add_comm, Nat.Div0.mod_add. apply Nat.mod_small. lia.
Qed.

Lemma BC_FWH_rows_of_node (p n i' a : nat) :
  existsb (fun iVar => (i' =? (p * n + iVar) / n) && (a =? (p * n + iVar) mod n))
          (seq 0 n)
  = (i' =? p) && (a <? n).
Proof.
  apply eq_true_iff_eq. rewrite existsb_exists, andb_true_iff.
  rewrite Nat.eqb_eq, Nat.ltb_lt. split.
  - intros (v & Hin & Hv). apply in_seq in Hin.
    destruct (flat_index_div_mod p n v) as [Hd Hm]; [lia |].
    rewrite Hd, Hm in Hv. apply andb_true_iff in Hv.
    rewrite !Nat.eqb_eq in Hv. lia.
  - intros [-> Ha]. exists a. split; [apply in_seq; lia |].
    destruct (flat_index_div_mod p n a Ha) as [Hd Hm].
    rewrite Hd, Hm, !Nat.eqb_refl. reflexivity.
Qed.

(** The whole vertex loop of BC_FWH: the nodes of the marker's vertices,
    owned or not, are overwritten, all other nodes are kept. *)
Lemma BC_FWH_loop geometry config val_marker s k :
  let s' := snd (for_loop 0 k (BC_FWH_vertex geometry config val_marker) s) in
  nVar s' = nVar s /\ length (node s') = length (node s) /\
  mat_nVar (Jacobian s') = mat_nVar (Jacobian s) /\
  (forall p, p < length (node s) ->
     node s' !!! p = if existsb (Nat.eqb p) (marker_nodes geometry val_marker k)
                     then FWH_node (nVar s) (node s !!! p) else node s !!! p) /\
  (mat_nVar (Jacobian s) = nVar s ->
   forall i' j' a b,
     mat_val (Jacobian s') i' j' a b
     = if is_EULER_IMPLICIT (Kind_TimeIntScheme_AdjFlow config)
          && existsb (Nat.eqb i') (marker_nodes geometry val_marker k)
          && (a <? nVar s)
       then (if (j' =? i') && (b =? a) then 1%R else 0%R)
       else mat_val (Jacobian s) i' j' a b).
Proof.
  cbv zeta.
  apply (for_loop_inv (fun m s' =>
    nVar s' = nVar s /\ length (node s') = length (node s) /\
    mat_nVar (Jacobian s') = mat_nVar (Jacobian s) /\
    (forall p, p < length (node s) ->
       node s' !!! p = if existsb (Nat.eqb p) (marker_nodes geometry val_marker m)
                       then FWH_node (nVar s) (node s !!! p) else node s !!! p) /\
    (mat_nVar (Jacobian s) = nVar s ->
     forall i' j' a b,
       mat_val (Jacobian s') i' j' a b
       = if is_EULER_IMPLICIT (Kind_TimeIntScheme_AdjFlow config)
            && existsb (Nat.eqb i') (marker_nodes geometry val_marker m)
            && (a <? nVar s)
         then (if (j' =? i') && (b =? a) then 1%R else 0%R)
         else mat_val (Jacobian s) i' j' a b))); [lia | |].
  - repeat split. intros Hm i' j' a b. unfold marker_nodes.
    cbn [seq map existsb]. rewrite andb_false_r. reflexivity.
  - intros iv st _ (H1 & H2 & H3 & H4 & H5).
    destruct (BC_FWH_vertex_fields geometry config val_marker iv st)
      as (G1 & G2 & G3 & _ & G5).
    set (q := vertex_Node ((geo_vertex geometry !!! val_marker) !!! iv)) in *.
    assert (Hmem : forall p,
      existsb (Nat.eqb p) (marker_nodes geometry val_marker (Datatypes.S iv))
      = existsb (Nat.eqb p) (marker_nodes geometry val_marker iv) || (p =? q)).
    { intros p. unfold marker_nodes. rewrite seq_S, map_app, existsb_app.
      cbn [map existsb Nat.add]. rewrite orb_false_r. reflexivity. }
    split; [congruence |]. split; [rewrite G2, length_alter; exact H2 |].
    split; [congruence |]. split.
    + intros p Hp. rewrite G2, H1, Hmem.
      destruct (decide (p = q)) as [->|Hne].
      * rewrite list_lookup_total_alter_eq by lia. rewrite (H4 q Hp).
        rewrite Nat.eqb_refl, orb_true_r.
        destruct (existsb _ _); [apply FWH_node_idem | reflexivity].
      * rewrite list_lookup_total_alter_ne by congruence. rewrite (H4 p Hp).
        replace (p =? q) with false by (symmetry; apply Nat.eqb_neq; exact Hne).
        rewrite orb_false_r. reflexivity.
    + intros Hm i' j' a b. rewrite G5, H1, H3, Hm, BC_FWH_rows_of_node, (H5 Hm), Hmem.
      destruct (is_EULER_IMPLICIT _), (existsb _ _), (i' =? q), (a <? nVar s);
        reflexivity.
Qed.

Lemma C9_witness :
  let config := ex_config EULER_EXPLICIT CONTINUOUS ROE_2ND VENKATAKRISHNAN LU_SGS in
  let geometry := ex_geometry in
  let s := ex_solution in
  let iPoint := edge_Node0 (geo_edge geometry !!! 0) in
  let r := Upwind_numerics geometry ex_flow config MESH_0 0 ex_numerics ex_scratch s in
  (Kind_SlopeLimit config <> NONE /\ Kind_Adjoint config <> DISCRETE /\
   (Kind_Upwind config = ROE_2ND \/ Kind_Upwind config = SW_2ND) /\
   1 < nVar s /\
   nVar s <= length (Solution_i ex_scratch) /\ nVar s <= length (Solution_j ex_scratch) /\
   nDim s <= length (Vector_i ex_scratch) /\ nDim s <= length (Vector_j ex_scratch)) /\
  num_Psi_i (fst r) !!! 1
  = (Solution (node s !!! iPoint) !!! 1%nat
     + dot_n (nDim s) (Vector_i (snd r)) (Gradient (node s !!! iPoint) !!! 1%nat)
       * Limiter (node s !!! iPoint) !!! (nDim s))%R.
Proof.
  cbv zeta. split.
  - repeat split; try discriminate; try (left; reflexivity); vm_compute; lia.
  - apply (C9_limiter_index_after_loop ex_geometry ex_flow
      (ex_config EULER_EXPLICIT CONTINUOUS ROE_2ND VENKATAKRISHNAN LU_SGS)
      MESH_0 0 ex_numerics ex_scratch ex_solution 1);
      try discriminate; try reflexivity; try (left; reflexivity); vm_compute; lia.
Defined.

(** C1, as stated, fails at node1 and at block jj: on the two-point mesh
    with a flux routine that returns 1 everywhere, continuous-adjoint upwind
    assembly does not add the node1 residual to node1 (it subtracts it), and
    discrete-adjoint assembly does not add Jacobian_j to block (node1,node1)
    (it subtracts it). *)
Lemma C1_counterexample :
  let config := ex_config EULER_IMPLICIT CONTINUOUS ROE_1ST NONE LU_SGS in
  let configd := ex_config EULER_IMPLICIT DISCRETE ROE_1ST NONE LU_SGS in
  let s' := snd (Upwind_edge ex_SetResidual_upwind ex_SetResidual_discrete
                   ex_geometry ex_flow config MESH_0 0
                   (ex_numerics, ex_scratch, ex_solution)) in
  let sd := snd (Upwind_edge ex_SetResidual_upwind ex_SetResidual_discrete
                   ex_geometry ex_flow configd MESH_0 0
                   (ex_numerics, ex_scratch, ex_solution)) in
  Res_Conv (node s' !!! 1) !!! 0
  <> (Res_Conv (node ex_solution !!! 1%nat) !!! 0%nat + 1)%R /\
  mat_val (Jacobian sd) 1 1 0 0
  <> (mat_val (Jacobian ex_solution) 1%nat 1%nat 0%nat 0%nat
      + block_get ex_block 0%nat 0%nat)%R.
Proof.
  cbv zeta. split.
  - pose proof (Upwind_edge_continuous ex_SetResidual_upwind ex_SetResidual_discrete
      ex_geometry ex_flow (ex_config EULER_IMPLICIT CONTINUOUS ROE_1ST NONE LU_SGS)
      MESH_0 0 ex_numerics ex_scratch ex_solution) as H.
    cbv zeta in H.
    change (edge_Node0 (geo_edge ex_geometry !!! 0)) with 0 in H.
    change (edge_Node1 (geo_edge ex_geometry !!! 0)) with 1 in H.
    destruct H as (_ & H); [discriminate |].
    destruct H as (_ & _ & _ & HCj & _);
      [lia | vm_compute; lia | vm_compute; lia |].
    rewrite HCj.
    rewrite SubtractRes_Conv_lookup by (vm_compute; lia).
    match goal with
    | |- context [uf_Residual_j ?f !!! 0] => change (uf_Residual_j f !!! 0) with 1%R
    end.
    change (Res_Conv (node ex_solution !!! 1) !!! 0) with 1%R. lra.
  - pose proof (Upwind_edge_discrete ex_SetResidual_upwind ex_SetResidual_discrete
      ex_geometry ex_flow (ex_config EULER_IMPLICIT DISCRETE ROE_1ST NONE LU_SGS)
      MESH_0 0 ex_numerics ex_scratch ex_solution eq_refl) as H.
    cbv zeta in H.
    change (edge_Node0 (geo_edge ex_geometry !!! 0)) with 0 in H.
    change (edge_Node1 (geo_edge ex_geometry !!! 0)) with 1 in H.
    destruct H as (_ & HJ). rewrite HJ.
    change ((is_ROE_2ND (Kind_Upwind (ex_config EULER_IMPLICIT DISCRETE ROE_1ST NONE LU_SGS))
             || is_SW_2ND (Kind_Upwind (ex_config EULER_IMPLICIT DISCRETE ROE_1ST NONE LU_SGS)))
            && (MESH_0 =? MESH_0)) with false.
    cbv iota.
    match goal with
    | |- context [block_op false _ _ ?B4 (block_op true _ _ ?B3
                    (block_op false _ _ ?B2 (block_op true _ _ ?B1 _)))] =>
        destruct (four_blocks true false true false 0 1 B1 B2 B3 B4
                    (Jacobian ex_solution) 0 0) as (_ & _ & _ & _ & H4 & _);
          [lia | vm_compute; lia | vm_compute; lia |];
        rewrite H4;
        change (block_get B4 0 0) with 1%R
    end.
    change (block_get ex_block 0 0) with 1%R.
    change (mat_val (Jacobian ex_solution) 1 1 0 0) with 0%R. lra.
Qed.

Lemma C1_witness :
  let config := ex_config EULER_IMPLICIT CONTINUOUS ROE_1ST NONE LU_SGS in
  let iPoint := edge_Node0 (geo_edge ex_geometry !!! 0) in
  let jPoint := edge_Node1 (geo_edge ex_geometry !!! 0) in
  let s := ex_solution in
  (iPoint <> jPoint /\ iPoint < length (node s) /\ jPoint < length (node s) /\
   0 < nVar s /\ 0 < length (Res_Conv (node s !!! iPoint)) /\
   0 < length (Res_Conv (node s !!! jPoint)) /\ 0 < mat_nVar (Jacobian s)) /\
  let flux := ex_SetResidual_centered
                (Centered_numerics ex_geometry ex_flow config 0 0 0 ex_numerics s)
                config in
  let s' := snd (Centered_edge ex_SetResidual_centered ex_geometry ex_flow config
                   0 0 0 (ex_numerics, s)) in
  Res_Conv (node s' !!! jPoint) !!! 0
  = (Res_Conv (node s !!! jPoint) !!! 0%nat - cf_Res_Conv_j flux !!! 0%nat)%R.
Proof.
  cbv zeta. split.
  - repeat split; vm_compute; (lia || discriminate).
  - apply (C1_edge_assembly_signs ex_SetResidual_centered ex_SetResidual_upwind
      ex_SetResidual_discrete ex_geometry ex_flow
      (ex_config EULER_IMPLICIT CONTINUOUS ROE_1ST NONE LU_SGS) 0 0 0
      ex_numerics ex_scratch ex_solution 0 0 0); vm_compute; (lia || discriminate).
Defined.

Lemma marker_nodes_elem geometry val_marker k iVertex :
  iVertex < k ->
  existsb (Nat.eqb (vertex_Node ((geo_vertex geometry !!! val_marker) !!! iVertex)))
          (marker_nodes geometry val_marker k) = true.
Proof.
  intros H. apply existsb_exists.
  exists (vertex_Node ((geo_vertex geometry !!! val_marker) !!! iVertex)).
  split; [| apply Nat.eqb_refl].
  unfold marker_nodes. apply in_map_iff. exists iVertex.
  split; [reflexivity | apply in_seq; lia].
Qed.

Section BoundaryClaims.

Variable SetResidual_upwind : CNumerics -> CConfig -> UpwindFlux.
Variable SetResidual_discrete : CNumerics -> CConfig -> Block * Block.

Lemma BC_Far_Field_vertex_halo geometry flow config val_marker iVertex st :
  Domain (geo_node geometry
            !!! vertex_Node ((geo_vertex geometry !!! val_marker) !!! iVertex)) = false ->
  BC_Far_Field_vertex SetResidual_upwind SetResidual_discrete geometry flow config
    val_marker iVertex st = st.
Proof.
  intros H. destruct st as [[mem num] s]. unfold BC_Far_Field_vertex. cbv zeta.
  rewrite H. reflexivity.
Qed.

(** C10: BC_FWH treats every vertex of its marker alike, whether the node is
    owned or a halo node: the adjoint solution and the old solution become
    the stored boundary-jump vector, the convective, source, viscous and
    truncation-error accumulators become zero, and in an implicit run the
    Jacobian rows of the node become rows of the identity. BC_Far_Field, in
    contrast, leaves everything as it is at a vertex whose node is not
    owned. *)
Theorem C10_BC_FWH_ignores_ownership geometry flow config val_marker s iVertex :
  let p := vertex_Node ((geo_vertex geometry !!! val_marker) !!! iVertex) in
  let s' := BC_FWH geometry config val_marker s in
  let c := node s !!! p in
  let c' := node s' !!! p in
  iVertex < nVertex geometry val_marker -> p < length (node s) ->
  (forall v, v < nVar s ->
     (v < length (Solution c) -> Solution c' !!! v = IntBoundary_Jump c !!! v) /\
     (v < length (Solution_Old c) -> Solution_Old c' !!! v = IntBoundary_Jump c !!! v) /\
     (v < length (Res_Conv c) -> Res_Conv c' !!! v = 0%R) /\
     (v < length (Res_Sour c) -> Res_Sour c' !!! v = 0%R) /\
     (v < length (Res_Visc c) -> Res_Visc c' !!! v = 0%R) /\
     (v < length (Res_TruncError c) -> Res_TruncError c' !!! v = 0%R)) /\
  (Kind_TimeIntScheme_AdjFlow config = EULER_IMPLICIT ->
   mat_nVar (Jacobian s) = nVar s ->
   forall a j b, a < nVar s ->
     mat_val (Jacobian s') p j a b = if (j =? p) && (b =? a) then 1%R else 0%R) /\
  (Domain (geo_node geometry !!! p) = false ->
   forall mem num,
     BC_Far_Field_vertex SetResidual_upwind SetResidual_discrete geometry flow config
       val_marker iVertex (mem, num, s) = (mem, num, s)).
Proof.
  cbv zeta. intros Hiv Hp.
  destruct (BC_FWH_loop geometry config val_marker s (nVertex geometry val_marker))
    as (_ & _ & _ & Hnode & HJ).
  pose proof (marker_nodes_elem geometry val_marker _ iVertex Hiv) as Hin.
  split; [| split].
  - intros v Hv. unfold BC_FWH. rewrite (Hnode _ Hp), Hin.
    destruct (FWH_node_fields (nVar s)
      (node s !!! vertex_Node ((geo_vertex geometry !!! val_marker) !!! iVertex)))
      as (A1 & A2 & A3 & A4 & A5 & A6 & _).
    rewrite A1, A2, A3, A4, A5, A6.
    repeat split; intros Hl; apply vec_set_all_lookup_total; assumption.
  - intros Himp Hm a j b Ha. unfold BC_FWH. rewrite (HJ Hm), Hin, Himp.
    replace (a <? nVar s) with true by (symmetry; apply Nat.ltb_lt; exact Ha).
    reflexivity.
  - intros Hd mem num. apply BC_Far_Field_vertex_halo. exact Hd.
Qed.

End BoundaryClaims.

Lemma C10_witness :
  let config := ex_config EULER_IMPLICIT CONTINUOUS ROE_1ST NONE LU_SGS in
  let p := vertex_Node ((geo_vertex ex_geometry !!! 0) !!! 0) in
  (0 < nVertex ex_geometry 0 /\ p < length (node ex_solution) /\
   Domain (geo_node ex_geometry !!! p) = false /\ 2 < nVar ex_solution /\
   2 < length (Solution (node ex_solution !!! p))) /\
  Solution (node (BC_FWH ex_geometry config 0 ex_solution) !!! p) !!! 2
  = IntBoundary_Jump (node ex_solution !!! p) !!! 2.
Proof.
  cbv zeta. split.
  - repeat split; vm_compute; lia.
  - destruct (C10_BC_FWH_ignores_ownership ex_SetResidual_upwind ex_SetResidual_discrete
      ex_geometry ex_flow (ex_config EULER_IMPLICIT CONTINUOUS ROE_1ST NONE LU_SGS)
      0 ex_solution 0) as (H & _); [vm_compute; lia | vm_compute; lia |].
    apply (H 2); vm_compute; lia.
Defined.

(** ** The outlet: the density ratio that nothing assigns *)

Lemma insert_loop_keeps_0 (n : nat) (g : nat -> list R -> R) (U : list R) :
  snd (for_loop 0 n (fun iDim U => <[iDim+1 := g iDim U]> U) U) !!! 0 = U !!! 0.
Proof.
  apply (for_loop_preserves (fun V : list R => V !!! 0 = U !!! 0)).
  - reflexivity.
  - intros k V _ HV. rewrite list_lookup_total_insert_ne by lia. exact HV.
Qed.

Lemma Outlet_incompressible_above (geometry : CGeometry) (flow : CFlowSolution)
    (config : CConfig) (s : CAdjEulerSolution) (iPoint Point_Normal : nat)
    (r D0 : R) (U_domain U_outlet Psi_outlet : list R) :
  let Height := Coord (geo_node geometry !!! iPoint) !!! (nDim s - 1) in
  let out := Outlet_incompressible geometry flow config s iPoint Point_Normal
               r D0 U_domain U_outlet Psi_outlet in
  is_levelset (Kind_Solver config) = true ->
  (Height - FreeSurface_Zero config > FreeSurface_Thickness config)%R ->
  0 < length U_outlet ->
  snd out = (r * Density_FreeStreamND config)%R /\
  fst (fst out) !!! 0
  = (Pressure_Inf flow
     + r * Density_FreeStreamND config
       * ((FreeSurface_Zero config - Height) / (Froude config * Froude config)))%R.
Proof.
  intros Height out Hls Habove Hlen. subst out. unfold Outlet_incompressible.
  rewrite Hls. fold Height.
  destruct (Rgt_dec (Height - FreeSurface_Zero config) (FreeSurface_Thickness config))
    as [_|Hn]; [|contradiction].
  destruct (Rle_dec (Rabs (Height - FreeSurface_Zero config))
              (FreeSurface_Thickness config)) as [Hle|_].
  - exfalso. pose proof (Rle_abs (Height - FreeSurface_Zero config)). lra.
  - cbn [fst snd]. split; [reflexivity |].
    rewrite (insert_loop_keeps_0 (nDim s)
      (fun iDim _ => Solution (node s !!! Point_Normal) !!! (iDim+1))).
    rewrite list_lookup_total_insert_eq by exact Hlen. reflexivity.
Qed.

Section OutletClaims.

Variable SetResidual_upwind : CNumerics -> CConfig -> UpwindFlux.

Lemma boundary_flux_nDim geometry flow config implicit iPoint vertex mem D num s :
  nDim (snd (boundary_flux SetResidual_upwind geometry flow config implicit iPoint
               vertex mem D num s)) = nDim s.
Proof. unfold boundary_flux. destruct implicit; reflexivity. Qed.

Lemma BC_Outlet_vertex_nDim geometry flow config r val_marker iVertex st :
  nDim (snd (BC_Outlet_vertex SetResidual_upwind geometry flow config r
               val_marker iVertex st)) = nDim (snd st).
Proof.
  destruct st as [[[mem D] num] s]. unfold BC_Outlet_vertex.
  destruct (Domain _); [| reflexivity].
  destruct (Incompressible config).
  - destruct (Outlet_incompressible _ _ _ _ _ _ _ _ _ _ _) as [[U Psi] D'].
    pose proof (boundary_flux_nDim geometry flow config
      (is_EULER_IMPLICIT (Kind_TimeIntScheme_Flow config))
      (vertex_Node ((geo_vertex geometry !!! val_marker) !!! iVertex))
      ((geo_vertex geometry !!! val_marker) !!! iVertex)) as H.
    match goal with |- context [boundary_flux _ _ _ _ _ _ _ ?m ?d ?n ?s'] =>
      specialize (H m d n s'); destruct (boundary_flux _ _ _ _ _ _ _ m d n s')
    end. exact H.
  - destruct (Outlet_compressible _ _ _ _ _ _ _ _ _ _ _ _) as [[V U] Psi].
    pose proof (boundary_flux_nDim geometry flow config
      (is_EULER_IMPLICIT (Kind_TimeIntScheme_Flow config))
      (vertex_Node ((geo_vertex geometry !!! val_marker) !!! iVertex))
      ((geo_vertex geometry !!! val_marker) !!! iVertex)) as H.
    match goal with |- context [boundary_flux _ _ _ _ _ _ _ ?m ?d ?n ?s'] =>
      specialize (H m d n s'); destruct (boundary_flux _ _ _ _ _ _ _ m d n s')
    end. exact H.
Qed.

(** One vertex above the interface band, from any state of the loop. *)
Lemma BC_Outlet_vertex_above geometry flow config val_marker iVertex mem D0 num s r :
  let vertex := (geo_vertex geometry !!! val_marker) !!! iVertex in
  let iPoint := vertex_Node vertex in
  let Height := Coord (geo_node geometry !!! iPoint) !!! (nDim s - 1) in
  let rho := Density_FreeStreamND config in
  let out := BC_Outlet_vertex SetResidual_upwind geometry flow config r
               val_marker iVertex (mem, D0, num, s) in
  Domain (geo_node geometry !!! iPoint) = true ->
  Incompressible config = true ->
  is_levelset (Kind_Solver config) = true ->
  (Height - FreeSurface_Zero config > FreeSurface_Thickness config)%R ->
  snd (fst (fst out)) = (r * rho)%R /\
  num_DensityInc_j (snd (fst out)) = (r * rho)%R /\
  (0 < length (bc_U_ext mem) ->
   num_U_j (snd (fst out)) !!! 0
   = (Pressure_Inf flow
      + r * rho * ((FreeSurface_Zero config - Height)
                   / (Froude config * Froude config)))%R).
Proof.
  intros vertex iPoint Height rho out HDom HInc Hls Habove.
  subst out. unfold BC_Outlet_vertex.
  fold vertex. fold iPoint. rewrite HDom, HInc.
  assert (HD : snd (Outlet_incompressible geometry flow config s iPoint
      (Normal_Neighbor vertex) r D0
      (vec_set_all (nVar s)
         (fun k _ => flow_Solution (flow_node flow !!! iPoint) !!! k) (bc_U_domain mem))
      (bc_U_ext mem) (bc_Psi_ext mem)) = (r * rho)%R).
  { unfold Outlet_incompressible. rewrite Hls. fold Height.
    destruct (Rgt_dec (Height - FreeSurface_Zero config)
                (FreeSurface_Thickness config)) as [_|Hn]; [|contradiction].
    destruct (Rle_dec (Rabs (Height - FreeSurface_Zero config))
                (FreeSurface_Thickness config)) as [Hle|_]; [| reflexivity].
    exfalso. pose proof (Rle_abs (Height - FreeSurface_Zero config)). lra. }
  assert (HU : 0 < length (bc_U_ext mem) ->
    fst (fst (Outlet_incompressible geometry flow config s iPoint
      (Normal_Neighbor vertex) r D0
      (vec_set_all (nVar s)
         (fun k _ => flow_Solution (flow_node flow !!! iPoint) !!! k) (bc_U_domain mem))
      (bc_U_ext mem) (bc_Psi_ext mem))) !!! 0
    = (Pressure_Inf flow
       + r * rho * ((FreeSurface_Zero config - Height)
                    / (Froude config * Froude config)))%R).
  { intros Hlen.
    apply (Outlet_incompressible_above geometry flow config s iPoint
      (Normal_Neighbor vertex) r D0 _ (bc_U_ext mem) (bc_Psi_ext mem) Hls Habove Hlen). }
  destruct (Outlet_incompressible _ _ _ _ _ _ _ _ _ _ _) as [[U Psi] D].
  cbn [fst snd] in HD, HU. subst D.
  unfold boundary_flux. cbn [fst snd bc_U_ext].
  unfold boundary_numerics. cbn [num_DensityInc_j num_U_j].
  rewrite HInc. auto.
Qed.

(** C8: at an owned vertex of an incompressible free-surface outlet that lies
    above the interface band (LevelSet > epsilon), the density imposed at
    the outlet is RatioDensity times the free-stream density, where
    RatioDensity is the value that the function finds in its unassigned
    local: that product is what the vertex leaves in Density_Outlet, what it
    hands to the flux routine as exterior density, and what enters the
    exterior pressure U_outlet[0]. Two different values of the unassigned
    local therefore give two different exterior densities as soon as the
    free-stream density is not zero, and two different exterior pressures
    when, besides, the vertex is not at the free-surface height. When the
    vertex is the last one of the marker, what BC_Outlet as a whole leaves
    in Density_Outlet and in the flux routine depends on the unassigned
    local in the same way, whatever the state the loop started from. *)
Theorem C8_RatioDensity_uninitialised (geometry : CGeometry) (flow : CFlowSolution)
    (config : CConfig) (val_marker iVertex : nat) (mem : BCArrays) (D0 : R)
    (num : CNumerics) (s : CAdjEulerSolution) :
  let vertex := (geo_vertex geometry !!! val_marker) !!! iVertex in
  let iPoint := vertex_Node vertex in
  let Height := Coord (geo_node geometry !!! iPoint) !!! (nDim s - 1) in
  let rho := Density_FreeStreamND config in
  let out := fun RatioDensity =>
    BC_Outlet_vertex SetResidual_upwind geometry flow config RatioDensity
      val_marker iVertex (mem, D0, num, s) in
  let pressure := fun RatioDensity =>
    (Pressure_Inf flow
     + RatioDensity * rho
       * ((FreeSurface_Zero config - Height) / (Froude config * Froude config)))%R in
  Domain (geo_node geometry !!! iPoint) = true ->
  Incompressible config = true ->
  is_levelset (Kind_Solver config) = true ->
  (Height - FreeSurface_Zero config > FreeSurface_Thickness config)%R ->
  0 < length (bc_U_ext mem) ->
  (forall RatioDensity,
     snd (fst (fst (out RatioDensity))) = (RatioDensity * rho)%R /\
     num_DensityInc_j (snd (fst (out RatioDensity))) = (RatioDensity * rho)%R /\
     num_U_j (snd (fst (out RatioDensity))) !!! 0 = pressure RatioDensity) /\
  (forall r1 r2, rho <> 0%R -> r1 <> r2 ->
     num_DensityInc_j (snd (fst (out r1))) <> num_DensityInc_j (snd (fst (out r2))) /\
     (Height <> FreeSurface_Zero config -> Froude config <> 0%R ->
      num_U_j (snd (fst (out r1))) !!! 0 <> num_U_j (snd (fst (out r2))) !!! 0)) /\
  (nVertex geometry val_marker = S iVertex ->
   forall st0 RatioDensity, nDim (snd st0) = nDim s ->
     let all := BC_Outlet SetResidual_upwind geometry flow config RatioDensity
                  val_marker st0 in
     snd (fst (fst all)) = (RatioDensity * rho)%R /\
     num_DensityInc_j (snd (fst all)) = (RatioDensity * rho)%R).
Proof.
  intros vertex iPoint Height rho out pressure HDom HInc Hls Habove Hlen.
  assert (Hall : forall RatioDensity,
     snd (fst (fst (out RatioDensity))) = (RatioDensity * rho)%R /\
     num_DensityInc_j (snd (fst (out RatioDensity))) = (RatioDensity * rho)%R /\
     num_U_j (snd (fst (out RatioDensity))) !!! 0 = pressure RatioDensity).
  { intros r.
    destruct (BC_Outlet_vertex_above geometry flow config val_marker iVertex
      mem D0 num s r HDom HInc Hls Habove) as (H1 & H2 & H3).
    split; [exact H1 |]. split; [exact H2 |]. apply H3. exact Hlen. }
  split; [exact Hall |].
  split.
  { intros r1 r2 Hrho Hr. split.
    - rewrite (proj1 (proj2 (Hall r1))), (proj1 (proj2 (Hall r2))).
      intros Heq. apply Hr. apply (Rmult_eq_reg_r rho); assumption.
    - intros HH HF.
      rewrite (proj2 (proj2 (Hall r1))), (proj2 (proj2 (Hall r2))).
      unfold pressure. intros Heq. apply Hr.
      set (k := ((FreeSurface_Zero config - Height)
                 / (Froude config * Froude config))%R) in *.
      assert (Hk : k <> 0%R).
      { unfold k, Rdiv. apply Rmult_integral_contrapositive_currified; [lra |].
        apply Rinv_neq_0_compat.
        apply Rmult_integral_contrapositive_currified; assumption. }
      apply (Rmult_eq_reg_r (rho * k));
        [lra | apply Rmult_integral_contrapositive_currified; assumption]. }
  intros Hlast st0 r HnDim. cbv zeta.
  unfold BC_Outlet. rewrite Hlast, for_loop_last.
  assert (HnD : nDim (snd (snd (for_loop 0 iVertex
      (BC_Outlet_vertex SetResidual_upwind geometry flow config r val_marker) st0)))
      = nDim s).
  { apply (for_loop_preserves (fun st => nDim (snd st) = nDim s)); [exact HnDim |].
    intros k st _ Hst. rewrite BC_Outlet_vertex_nDim. exact Hst. }
  destruct (snd (for_loop 0 iVertex _ st0)) as [[[mem' D'] num'] s'].
  cbn [snd] in HnD.
  destruct (BC_Outlet_vertex_above geometry flow config val_marker iVertex
    mem' D' num' s' r) as (H1 & H2 & _); try assumption.
  - fold vertex. fold iPoint. rewrite HnD. exact Habove.
  - split; assumption.
Qed.

End OutletClaims.

Lemma C8_witness :
  let p := vertex_Node ((geo_vertex ex_outlet_geometry !!! 0) !!! 0) in
  (Domain (geo_node ex_outlet_geometry !!! p) = true /\
   Incompressible ex_freesurface_config = true /\
   is_levelset (Kind_Solver ex_freesurface_config) = true /\
   (Coord (geo_node ex_outlet_geometry !!! p) !!! (nDim ex_solution - 1)%nat
    - FreeSurface_Zero ex_freesurface_config
    > FreeSurface_Thickness ex_freesurface_config)%R /\
   0 < length (bc_U_ext ex_arrays)) /\
  num_DensityInc_j (snd (fst (BC_Outlet_vertex ex_SetResidual_upwind
     ex_outlet_geometry ex_flow ex_freesurface_config 2 0 0
     (ex_arrays, 0%R, ex_numerics, ex_solution))))
  <> num_DensityInc_j (snd (fst (BC_Outlet_vertex ex_SetResidual_upwind
     ex_outlet_geometry ex_flow ex_freesurface_config 5 0 0
     (ex_arrays, 0%R, ex_numerics, ex_solution)))).
Proof.
  cbv zeta.
  assert (Habove :
    (Coord (geo_node ex_outlet_geometry !!! 0%nat) !!! (nDim ex_solution - 1)%nat
     - FreeSurface_Zero ex_freesurface_config
     > FreeSurface_Thickness ex_freesurface_config)%R).
  { change (3 - 0 > 1)%R. lra. }
  assert (Hlen : 0 < length (bc_U_ext ex_arrays)) by (change (0 < 4); lia).
  split.
  - repeat split; [exact Habove | exact Hlen].
  - destruct (C8_RatioDensity_uninitialised ex_SetResidual_upwind ex_outlet_geometry
      ex_flow ex_freesurface_config 0 0 ex_arrays 0%R ex_numerics ex_solution
      eq_refl eq_refl eq_refl Habove Hlen) as (_ & Hdiff & _).
    apply (Hdiff 2%R 5%R); [change (1 <> 0)%R; lra | lra].
Defined.

(** ** The inlet under total conditions *)

Lemma max_d_lower (a b : R) : (a <= max_d a b)%R.
Proof. unfold max_d. destruct (Rlt_dec a b); lra. Qed.

Lemma max_d_upper (a b : R) : (b <= max_d a b)%R.
Proof. unfold max_d. destruct (Rlt_dec a b); lra. Qed.

Lemma min_d_lower (a b : R) : (min_d a b <= a)%R.
Proof. unfold min_d. destruct (Rlt_dec b a); lra. Qed.

Lemma min_d_upper (a b : R) : (min_d a b <= b)%R.
Proof. unfold min_d. destruct (Rlt_dec b a); lra. Qed.

Lemma max_d_0_nonneg (d : R) : (0 <= d)%R -> max_d 0.0 d = d.
Proof. intros H. unfold max_d. destruct (Rlt_dec 0.0 d); lra. Qed.

(** The interior velocity and its square, component by component. *)
Lemma domain_velocity_spec (n : nat) (U_domain Velocity : list R) :
  let vel := fun d => (U_domain !!! (d+1)%nat / U_domain !!! 0%nat)%R in
  n <= length Velocity ->
  length (fst (domain_velocity n U_domain Velocity)) = length Velocity /\
  (forall d, d < n -> fst (domain_velocity n U_domain Velocity) !!! d = vel d) /\
  snd (domain_velocity n U_domain Velocity)
  = fold_left (fun acc d => (acc + vel d * vel d)%R) (seq 0 n) 0.0%R.
Proof.
  intros vel Hn. unfold domain_velocity.
  apply (for_loop_inv (fun k (st : list R * R) =>
    k <= n ->
    length (fst st) = length Velocity /\
    (forall d, d < k -> fst st !!! d = vel d) /\
    snd st = fold_left (fun acc d => (acc + vel d * vel d)%R) (seq 0 k) 0.0%R));
    [lia | | | lia].
  - intros _. cbn [fst snd seq fold_left]. repeat split. intros d Hd. lia.
  - intros k [V V2] Hk IH Hk'. destruct (IH ltac:(lia)) as (Hl & Hv & Hq).
    cbn [fst snd] in *. rewrite length_insert. split; [exact Hl |].
    assert (Hk1 : <[k := vel k]> V !!! k = vel k)
      by (apply list_lookup_total_insert_eq; lia).
    split.
    + intros d Hd. destruct (decide (d = k)) as [->|Hne]; [exact Hk1 |].
      rewrite list_lookup_total_insert_ne by congruence. apply Hv. lia.
    + rewrite seq_S, fold_left_app. cbn [fold_left Nat.add].
      rewrite <- Hq. fold (vel k). rewrite Hk1. reflexivity.
Qed.

Lemma velocity_loop_lookup (n : nat) (g : nat -> R) (V : list R) (k : nat) :
  k < n -> k < length V ->
  snd (for_loop 0 n (fun iDim V => <[iDim := g iDim]> V) V) !!! k = g k.
Proof.
  intros Hn Hk.
  assert (H := vec_set_all_lookup_total n (fun i _ => g i) V k Hn Hk).
  exact H.
Qed.

(** The '+' root of a quadratic with a discriminant that is not negative is
    a root, and no root is larger when the leading coefficient is
    positive. *)
Lemma plus_root_is_root (a b c : R) :
  let root := ((- b + sqrt (max_d 0.0 (b * b - 4.0 * a * c))) / (2.0 * a))%R in
  a <> 0%R -> (0 <= b * b - 4.0 * a * c)%R ->
  (a * root * root + b * root + c = 0)%R.
Proof.
  intros root Ha Hd. subst root. rewrite max_d_0_nonneg by exact Hd.
  replace 4.0%R with 4%R in * by lra. replace 2.0%R with 2%R by lra.
  set (d := (b * b - 4 * a * c)%R) in *.
  pose proof (sqrt_sqrt d Hd) as Hsq. set (q := sqrt d) in *.
  set (t := ((- b + q) / (2 * a))%R).
  assert (Ht : (2 * a * t + b = q)%R) by (unfold t; field; exact Ha).
  apply (Rmult_eq_reg_l (4 * a)); [| lra].
  replace (4 * a * (a * t * t + b * t + c))%R
    with ((2 * a * t + b) * (2 * a * t + b) - d)%R by (unfold d; ring).
  rewrite Ht, Hsq. ring.
Qed.

Lemma plus_root_is_largest (a b c y : R) :
  let root := ((- b + sqrt (max_d 0.0 (b * b - 4.0 * a * c))) / (2.0 * a))%R in
  (0 < a)%R -> (a * y * y + b * y + c = 0)%R -> (y <= root)%R.
Proof.
  intros root Ha Hy. subst root.
  replace 4.0%R with 4%R in * by lra. replace 2.0%R with 2%R by lra.
  set (z := (2 * a * y + b)%R).
  assert (Hd : (b * b - 4 * a * c = z * z)%R).
  { unfold z. replace (b * b - 4 * a * c)%R
      with (b * b - 4 * a * c + 4 * a * (a * y * y + b * y + c))%R
      by (rewrite Hy; ring). ring. }
  rewrite Hd. rewrite max_d_0_nonneg by nra.
  assert (Hz : (z <= sqrt (z * z))%R).
  { destruct (Rle_dec 0 z) as [H0|H0].
    - rewrite sqrt_square by exact H0. lra.
    - pose proof (sqrt_pos (z * z)). lra. }
  apply (Rmult_le_reg_l (2 * a)); [lra |].
  replace (2 * a * ((- b + sqrt (z * z)) / (2 * a)))%R with (- b + sqrt (z * z))%R
    by (field; lra).
  unfold z in *. lra.
Qed.

(** The locals of the TOTAL_CONDITIONS case, for any unit normal and any
    interior state. *)
Lemma Inlet_total_conditions_locals (config : CConfig) (s : CAdjEulerSolution)
    (UnitaryNormal U_domain Velocity U_inlet Psi_inlet : list R) :
  let r := Inlet_total_conditions config s UnitaryNormal U_domain
             Velocity U_inlet Psi_inlet in
  let a := it_aa r in
  let b := it_bb r in
  let c := it_cc r in
  let V := it_Vel_Mag_quadratic r in
  let c2 := (it_SoundSpeed_Total2 r - 0.5 * Gamma_Minus_One s * (V * V))%R in
  (a = 1.0 + 0.5 * Gamma_Minus_One s * it_alpha r * it_alpha r /\
   b = -1.0 * Gamma_Minus_One s * it_alpha r * it_Riemann r /\
   c = 0.5 * Gamma_Minus_One s * it_Riemann r * it_Riemann r
       - 2.0 * it_SoundSpeed_Total2 r / Gamma_Minus_One s)%R /\
  V = max_d 0.0 ((- b + sqrt (max_d 0.0 (b * b - 4.0 * a * c))) / (2.0 * a))%R /\
  (0 <= V)%R /\
  it_Mach2 r = min_d 1.0 (V * V / c2)%R /\
  (it_Mach2 r <= 1)%R /\
  it_Velocity2 r = (it_Mach2 r * c2)%R /\
  it_Vel_Mag r = sqrt (it_Velocity2 r) /\
  (forall iDim, iDim < nDim s -> iDim < length Velocity ->
     it_Velocity r !!! iDim = (it_Vel_Mag r * Inlet_FlowDir config !!! iDim)%R).
Proof.
  intros r a b c V c2.
  split; [repeat split |].
  split; [reflexivity |].
  split; [apply Rle_trans with 0.0%R; [lra | apply max_d_lower] |].
  split; [reflexivity |].
  split; [apply Rle_trans with 1.0%R; [apply min_d_lower | lra] |].
  split; [reflexivity |].
  split; [reflexivity |].
  intros iDim HiDim Hlen.
  subst r. unfold Inlet_total_conditions. cbn [it_Velocity it_Vel_Mag].
  rewrite velocity_loop_lookup; [reflexivity | exact HiDim |].
  unfold domain_velocity.
  apply (for_loop_preserves
    (fun st : list R * R => iDim < length (fst st))); [exact Hlen |].
  intros k [W W2] _ HW. cbn [fst] in *. rewrite length_insert. exact HW.
Qed.

(** The quantities that enter the quadratic, from the interior state, the
    unit normal and the configured total conditions. *)
Lemma Inlet_total_conditions_inputs (config : CConfig) (s : CAdjEulerSolution)
    (UnitaryNormal U_domain Velocity U_inlet Psi_inlet : list R) :
  let r := Inlet_total_conditions config s UnitaryNormal U_domain
             Velocity U_inlet Psi_inlet in
  let g := Gamma s in
  let g1 := Gamma_Minus_One s in
  let gas := (Gas_Constant config / Gas_Constant_Ref config)%R in
  let T_Total := (Inlet_Ttotal config / Temperature_Ref config)%R in
  let rho := U_domain !!! 0 in
  let vel := fun d => (U_domain !!! (d+1)%nat / rho)%R in
  let q2 := fold_left (fun acc d => (acc + vel d * vel d)%R) (seq 0 (nDim s)) 0.0%R in
  let E := (U_domain !!! (nVar s - 1)%nat / rho)%R in
  let p := (g1 * rho * (E - 0.5 * q2))%R in
  let c2 := (g * p / rho)%R in
  nDim s <= length Velocity ->
  it_Riemann r
  = fold_left (fun acc d => (acc + vel d * UnitaryNormal !!! d)%R) (seq 0 (nDim s))
      (2.0 * sqrt c2 / g1)%R /\
  it_alpha r
  = fold_left (fun acc d => (acc + UnitaryNormal !!! d * Inlet_FlowDir config !!! d)%R)
      (seq 0 (nDim s)) 0%R /\
  it_SoundSpeed_Total2 r
  = (g1 * ((g * gas / g1) * T_Total - (E + p / rho) + 0.5 * q2) + c2)%R.
Proof.
  intros r g g1 gas T_Total rho vel q2 E p c2 Hlen.
  destruct (domain_velocity_spec (nDim s) U_domain Velocity Hlen) as (_ & Hv & Hq).
  fold rho in Hv, Hq. fold vel in Hv, Hq. fold q2 in Hq.
  subst r. unfold Inlet_total_conditions.
  cbn [it_Riemann it_alpha it_SoundSpeed_Total2].
  rewrite !for_loop_fold, Hq.
  split; [| split; reflexivity].
  apply fold_left_seq_ext. intros d acc Hd. rewrite (Hv d Hd). reflexivity.
Qed.

(** The state rebuilt from the capped velocity. *)
Lemma Inlet_total_conditions_state (config : CConfig) (s : CAdjEulerSolution)
    (UnitaryNormal U_domain Velocity U_inlet Psi_inlet : list R) :
  let r := Inlet_total_conditions config s UnitaryNormal U_domain
             Velocity U_inlet Psi_inlet in
  let g := Gamma s in
  let g1 := Gamma_Minus_One s in
  let gas := (Gas_Constant config / Gas_Constant_Ref config)%R in
  let P_Total := (Inlet_Ptotal config / Pressure_Ref config)%R in
  let T_Total := (Inlet_Ttotal config / Temperature_Ref config)%R in
  let T := (it_SoundSpeed2 r / (g * gas))%R in
  let p := (P_Total * Rpower (T / T_Total) (g / g1))%R in
  (it_SoundSpeed2 r = it_SoundSpeed_Total2 r - 0.5 * g1 * it_Velocity2 r /\
   it_Density r = p / (gas * T) /\
   it_Energy r = p / (it_Density r * g1) + 0.5 * it_Velocity2 r)%R /\
  (nVar s = nDim s + 2 -> nDim s = 2 \/ nDim s = 3 -> nVar s <= length U_inlet ->
   it_U_inlet r !!! 0 = it_Density r /\
   (forall d, d < nDim s ->
      it_U_inlet r !!! (d + 1) = (it_Velocity r !!! d * it_Density r)%R) /\
   it_U_inlet r !!! (nVar s - 1) = (it_Energy r * it_Density r)%R) /\
  (forall v, v < nVar s -> v < length Psi_inlet -> it_Psi_inlet r !!! v = 0%R).
Proof.
  intros r g g1 gas P_Total T_Total T p.
  split; [repeat split |].
  split.
  - intros HnVar HnDim HU.
    subst r. unfold Inlet_total_conditions.
    cbn [it_U_inlet it_Density it_Velocity it_Energy].
    rewrite HnVar.
    destruct HnDim as [H2|H3].
    + rewrite H2 in *. cbn [Nat.eqb Nat.add Nat.sub].
      split; [| split].
      * rewrite !list_lookup_total_insert_ne by lia.
        rewrite list_lookup_total_insert_eq by lia. reflexivity.
      * intros d Hd.
        destruct d as [|[|d]]; [| | lia]; cbn [Nat.add].
        -- rewrite !list_lookup_total_insert_ne by lia.
           rewrite list_lookup_total_insert_eq by (rewrite !length_insert; lia).
           reflexivity.
        -- rewrite !list_lookup_total_insert_ne by lia.
           rewrite list_lookup_total_insert_eq by (rewrite !length_insert; lia).
           reflexivity.
      * rewrite list_lookup_total_insert_eq by (rewrite !length_insert; lia).
        reflexivity.
    + rewrite H3 in *. cbn [Nat.eqb Nat.add Nat.sub].
      split; [| split].
      * rewrite !list_lookup_total_insert_ne by lia.
        rewrite list_lookup_total_insert_eq by lia. reflexivity.
      * intros d Hd.
        destruct d as [|[|[|d]]]; [| | | lia]; cbn [Nat.add].
        -- rewrite !list_lookup_total_insert_ne by lia.
           rewrite list_lookup_total_insert_eq by (rewrite !length_insert; lia).
           reflexivity.
        -- rewrite !list_lookup_total_insert_ne by lia.
           rewrite list_lookup_total_insert_eq by (rewrite !length_insert; lia).
           reflexivity.
        -- rewrite !list_lookup_total_insert_ne by lia.
           rewrite list_lookup_total_insert_eq by (rewrite !length_insert; lia).
           reflexivity.
      * rewrite list_lookup_total_insert_eq by (rewrite !length_insert; lia).
        reflexivity.
  - intros v Hv Hl. subst r. unfold Inlet_total_conditions. cbn [it_Psi_inlet].
    rewrite vec_set_all_lookup_total by assumption. lra.
Qed.

Section InletClaims.

Variable SetResidual_upwind : CNumerics -> CConfig -> UpwindFlux.

(** C4: at an owned vertex of a compressible inlet under TOTAL_CONDITIONS the
    code forms, from the interior state, the unit normal and the configured
    total temperature and flow direction, the Riemann invariant, the
    projection alpha of the flow direction on the normal and the total speed
    of sound, and from them the coefficients a, b, c of a quadratic. The
    velocity magnitude is max(0, root) with
    root = (-b + sqrt(max(0, b*b - 4*a*c))) / (2*a): root solves the
    quadratic when the discriminant is not negative, and no solution is
    larger when a is positive (a is at least 1 when Gamma - 1 is not
    negative). The squared Mach number is min(1, V*V/SoundSpeed2), hence at
    most 1; the velocity is rebuilt as sqrt(Mach2*SoundSpeed2) times the
    flow direction, density and energy follow from the total pressure by the
    isentropic relation and the gas law, and the conservative state built
    from them, with a zero adjoint state, is what the flux routine receives
    as exterior state. *)
Theorem C4_inlet_total_conditions_root (geometry : CGeometry) (flow : CFlowSolution)
    (config : CConfig) (val_marker iVertex : nat) (mem : BCArrays) (D0 : R)
    (num : CNumerics) (s : CAdjEulerSolution) :
  let vertex := (geo_vertex geometry !!! val_marker) !!! iVertex in
  let iPoint := vertex_Node vertex in
  let Normal := outward_Normal (nDim s) vertex (bc_Normal mem) in
  let n := vertex_UnitaryNormal (nDim s) Normal (bc_UnitaryNormal mem) in
  let U :=
    vec_set_all (nVar s)
      (fun k _ => flow_Solution (flow_node flow !!! iPoint) !!! k) (bc_U_domain mem) in
  let r := Inlet_total_conditions config s n U
             (bc_Velocity mem) (bc_U_ext mem) (bc_Psi_ext mem) in
  let out := BC_Inlet_vertex SetResidual_upwind geometry flow config
               val_marker iVertex (mem, D0, num, s) in
  let g := Gamma s in
  let g1 := Gamma_Minus_One s in
  let gas := (Gas_Constant config / Gas_Constant_Ref config)%R in
  let P_Total := (Inlet_Ptotal config / Pressure_Ref config)%R in
  let T_Total := (Inlet_Ttotal config / Temperature_Ref config)%R in
  let dir := Inlet_FlowDir config in
  let rho := U !!! 0 in
  let vel := fun d => (U !!! (d+1)%nat / rho)%R in
  let q2 := fold_left (fun acc d => (acc + vel d * vel d)%R) (seq 0 (nDim s)) 0.0%R in
  let E := (U !!! (nVar s - 1)%nat / rho)%R in
  let p := (g1 * rho * (E - 0.5 * q2))%R in
  let Riemann :=
    fold_left (fun acc d => (acc + vel d * n !!! d)%R) (seq 0 (nDim s))
      (2.0 * sqrt (g * p / rho) / g1)%R in
  let alpha :=
    fold_left (fun acc d => (acc + n !!! d * dir !!! d)%R) (seq 0 (nDim s)) 0%R in
  let ct2 :=
    (g1 * ((g * gas / g1) * T_Total - (E + p / rho) + 0.5 * q2) + g * p / rho)%R in
  let a := (1.0 + 0.5 * g1 * alpha * alpha)%R in
  let b := (-1.0 * g1 * alpha * Riemann)%R in
  let c := (0.5 * g1 * Riemann * Riemann - 2.0 * ct2 / g1)%R in
  let root := ((- b + sqrt (max_d 0.0 (b * b - 4.0 * a * c))) / (2.0 * a))%R in
  let V := max_d 0.0 root in
  let Mach2 := min_d 1.0 (V * V / (ct2 - 0.5 * g1 * (V * V)))%R in
  let V2 := (Mach2 * (ct2 - 0.5 * g1 * (V * V)))%R in
  let c2 := (ct2 - 0.5 * g1 * V2)%R in
  let T := (c2 / (g * gas))%R in
  let p_in := (P_Total * Rpower (T / T_Total) (g / g1))%R in
  let rho_in := (p_in / (gas * T))%R in
  let E_in := (p_in / (rho_in * g1) + 0.5 * V2)%R in
  Domain (geo_node geometry !!! iPoint) = true ->
  Incompressible config = false ->
  Kind_Inlet config = TOTAL_CONDITIONS ->
  nDim s <= length (bc_Velocity mem) ->
  (it_Riemann r = Riemann /\ it_alpha r = alpha /\ it_SoundSpeed_Total2 r = ct2 /\
   it_aa r = a /\ it_bb r = b /\ it_cc r = c) /\
  (it_Vel_Mag_quadratic r = V /\ (0 <= V)%R /\
   (a <> 0%R -> (0 <= b * b - 4.0 * a * c)%R ->
    (a * root * root + b * root + c = 0)%R) /\
   ((0 < a)%R -> forall y, (a * y * y + b * y + c = 0)%R -> (y <= root)%R) /\
   ((0 <= g1)%R -> (1 <= a)%R)) /\
  (it_Mach2 r = Mach2 /\ (Mach2 <= 1)%R /\
   it_Velocity2 r = V2 /\ it_Vel_Mag r = sqrt V2 /\
   forall d, d < nDim s -> it_Velocity r !!! d = (sqrt V2 * dir !!! d)%R) /\
  (it_SoundSpeed2 r = c2 /\ it_Density r = rho_in /\ it_Energy r = E_in /\
   (nVar s = nDim s + 2 -> nDim s = 2 \/ nDim s = 3 ->
    nVar s <= length (bc_U_ext mem) ->
    it_U_inlet r !!! 0 = rho_in /\
    (forall d, d < nDim s ->
       it_U_inlet r !!! (d + 1) = (sqrt V2 * dir !!! d * rho_in)%R) /\
    it_U_inlet r !!! (nVar s - 1) = (E_in * rho_in)%R) /\
   (forall v, v < nVar s -> v < length (bc_Psi_ext mem) ->
      it_Psi_inlet r !!! v = 0%R)) /\
  (num_U_j (snd (fst out)) = it_U_inlet r /\
   num_Psi_j (snd (fst out)) = it_Psi_inlet r).
Proof.
  intros vertex iPoint Normal n U r out g g1 gas P_Total T_Total dir rho vel q2 E p
    Riemann alpha ct2 a b c root V Mach2 V2 c2 T p_in rho_in E_in
    HDom HInc HKind HlenV.
  assert (Hout : num_U_j (snd (fst out)) = it_U_inlet r /\
                 num_Psi_j (snd (fst out)) = it_Psi_inlet r).
  { subst out. unfold BC_Inlet_vertex. fold vertex. fold iPoint.
    rewrite HDom, HInc, HKind. split; reflexivity. }
  clearbody out.
  destruct (Inlet_total_conditions_inputs config s n U (bc_Velocity mem)
    (bc_U_ext mem) (bc_Psi_ext mem) HlenV) as (HRi & Hal & Hct).
  destruct (Inlet_total_conditions_locals config s n U (bc_Velocity mem)
    (bc_U_ext mem) (bc_Psi_ext mem))
    as ((Ha & Hb & Hc) & HV & _ & HM & _ & HV2 & HVm & Hvel).
  destruct (Inlet_total_conditions_state config s n U (bc_Velocity mem)
    (bc_U_ext mem) (bc_Psi_ext mem)) as ((Hc2 & Hrho & HE) & HU & HPsi).
  fold r in HRi, Hal, Hct, Ha, Hb, Hc, HV, HM, HV2, HVm, Hvel, Hc2, Hrho, HE, HU, HPsi.
  assert (ERi : it_Riemann r = Riemann) by exact HRi.
  assert (Eal : it_alpha r = alpha) by exact Hal.
  assert (Ect : it_SoundSpeed_Total2 r = ct2) by exact Hct.
  clear HRi Hal Hct. clearbody r.
  assert (Ea : it_aa r = a) by (rewrite Ha, Eal; reflexivity).
  assert (Eb : it_bb r = b) by (rewrite Hb, Eal, ERi; reflexivity).
  assert (Ec : it_cc r = c) by (rewrite Hc, ERi, Ect; reflexivity).
  assert (EV : it_Vel_Mag_quadratic r = V) by (rewrite HV, Ea, Eb, Ec; reflexivity).
  assert (EM : it_Mach2 r = Mach2) by (rewrite HM, EV, Ect; reflexivity).
  assert (EV2 : it_Velocity2 r = V2) by (rewrite HV2, EM, EV, Ect; reflexivity).
  assert (EVm : it_Vel_Mag r = sqrt V2) by (rewrite HVm, EV2; reflexivity).
  assert (Ec2 : it_SoundSpeed2 r = c2) by (rewrite Hc2, Ect, EV2; reflexivity).
  assert (Erho : it_Density r = rho_in) by (rewrite Hrho, Ec2; reflexivity).
  assert (EE : it_Energy r = E_in) by (rewrite HE, Erho, Ec2, EV2; reflexivity).
  split; [repeat split; assumption |].
  split.
  { split; [exact EV |].
    split; [unfold V; apply Rle_trans with 0.0%R; [lra | apply max_d_lower] |].
    split; [intros Ha0 Hd; apply plus_root_is_root; assumption |].
    split; [intros Ha0 y Hy; apply plus_root_is_largest; assumption |].
    intros Hg1. unfold a. nra. }
  split.
  { split; [exact EM |].
    split; [unfold Mach2; apply Rle_trans with 1.0%R; [apply min_d_lower | lra] |].
    split; [exact EV2 |]. split; [exact EVm |].
    intros d Hd. rewrite (Hvel d Hd ltac:(lia)), EVm. reflexivity. }
  split; [| exact Hout].
  split; [exact Ec2 |]. split; [exact Erho |]. split; [exact EE |].
  split; [| exact HPsi].
  intros HnVar HnDim HlU. destruct (HU HnVar HnDim HlU) as (H0 & Hd & HN).
  split; [rewrite H0; exact Erho |].
  split.
  - intros d Hdd. rewrite (Hd d Hdd), (Hvel d Hdd ltac:(lia)), EVm, Erho.
    reflexivity.
  - rewrite HN, EE, Erho. reflexivity.
Qed.

End InletClaims.

Lemma C4_witness :
  let config := ex_config EULER_IMPLICIT CONTINUOUS ROE_1ST NONE LU_SGS in
  let p := vertex_Node ((geo_vertex ex_outlet_geometry !!! 0) !!! 0) in
  (Domain (geo_node ex_outlet_geometry !!! p) = true /\
   Incompressible config = false /\ Kind_Inlet config = TOTAL_CONDITIONS /\
   nDim ex_solution <= length (bc_Velocity ex_arrays)) /\
  Rle (it_Mach2 (Inlet_total_conditions config ex_solution
     (vertex_UnitaryNormal (nDim ex_solution)
        (outward_Normal (nDim ex_solution)
           ((geo_vertex ex_outlet_geometry !!! 0) !!! 0) (bc_Normal ex_arrays))
        (bc_UnitaryNormal ex_arrays))
     (vec_set_all (nVar ex_solution)
        (fun k _ => flow_Solution (flow_node ex_flow !!! p) !!! k)
        (bc_U_domain ex_arrays))
     (bc_Velocity ex_arrays) (bc_U_ext ex_arrays) (bc_Psi_ext ex_arrays))) 1%R.
Proof.
  cbv zeta. split.
  - repeat split. simpl. lia.
  - destruct (C4_inlet_total_conditions_root ex_SetResidual_upwind ex_outlet_geometry
      ex_flow (ex_config EULER_IMPLICIT CONTINUOUS ROE_1ST NONE LU_SGS) 0 0
      ex_arrays 0%R ex_numerics ex_solution eq_refl eq_refl eq_refl)
      as (_ & _ & (HM & Hle & _) & _); [simpl; lia |].
    rewrite HM. exact Hle.
Defined.

(** ** Smoothing: the pinned row *)

Lemma insert_same_value (l : list R) (i : nat) (x : R) :
  x = l !!! i -> <[i := x]> l = l.
Proof.
  intros ->. apply list_insert_id'. intros Hi.
  rewrite list_lookup_total_alt.
  destruct (lookup_lt_is_Some_2 l i Hi) as [v Hv]. rewrite Hv. reflexivity.
Qed.

Lemma Gauss_reduce_row_zero (n j : nat) (row_j row_i : list R) :
  Gauss_reduce_row n j 0 row_j row_i = row_i.
Proof.
  unfold Gauss_reduce_row.
  apply (for_loop_preserves (fun row : list R => row = row_i)).
  - reflexivity.
  - intros k row _ ->. apply insert_same_value. ring.
Qed.

Lemma Gauss_forward_pinned (n m : nat) (A : list (list R)) (b : list R) :
  unit_row n m (A !!! m) -> m < length A -> m < length b ->
  let r := Gauss_forward n (A, b) in
  fst r !!! m = A !!! m /\ snd r !!! m = b !!! m /\
  m < length (fst r) /\ m < length (snd r).
Proof.
  intros [Hm Hz] HA Hb. cbv zeta. unfold Gauss_forward.
  set (P := fun st : list (list R) * list R =>
    fst st !!! m = A !!! m /\ snd st !!! m = b !!! m /\
    m < length (fst st) /\ m < length (snd st)).
  apply (for_loop_preserves P); [repeat split; assumption |].
  intros j st Hj HP.
  apply (for_loop_preserves P); [exact HP |].
  intros i [A' b'] Hi (HA' & Hb' & HlA & Hlb). unfold P in *. cbn [fst snd] in *.
  destruct (decide (i = m)) as [->|Hne].
  - assert (Hw : ((A' !!! m) !!! j / (A' !!! j) !!! j = 0)%R).
    { rewrite HA', (Hz j) by lia. unfold Rdiv. ring. }
    rewrite Hw, Gauss_reduce_row_zero.
    rewrite !list_lookup_total_insert_eq by assumption.
    rewrite !length_insert. repeat split; try assumption. rewrite Hb'. ring.
  - rewrite !list_lookup_total_insert_ne by congruence.
    rewrite !length_insert. repeat split; assumption.
Qed.

Lemma Gauss_backward_pinned (n m : nat) (A : list (list R)) (b : list R) :
  unit_row n m (A !!! m) -> m < length b ->
  Gauss_backward n A b !!! m = b !!! m.
Proof.
  intros [Hm Hz] Hb. unfold Gauss_backward.
  apply (for_loop_preserves (fun b' : list R =>
    m < length b' /\ b' !!! m = b !!! m)); [split; [assumption | reflexivity] |].
  intros d b' Hd [Hl Hv].
  rewrite length_insert. split; [exact Hl |].
  destruct (decide (n - 1 - d = m)) as [He|Hne].
  - rewrite He. rewrite list_lookup_total_insert_eq by exact Hl.
    assert (Haux : snd (for_loop (m+1) n (fun k aux =>
              (aux + (A !!! m) !!! k * b' !!! k)%R) 0%R) = 0%R).
    { apply (for_loop_preserves (fun aux : R => aux = 0%R)); [reflexivity |].
      intros k aux Hk ->. rewrite (Hz k) by lia. ring. }
    rewrite Haux, Hm, Hv. field.
  - rewrite list_lookup_total_insert_ne by exact Hne. exact Hv.
Qed.

(** The elimination hands the right-hand side of a pinned row back as the
    solution at that row. *)
Lemma Gauss_Elimination_pinned (n m : nat) (A : list (list R)) (b : list R) :
  unit_row n m (A !!! m) -> m < length A -> m < length b ->
  snd (Gauss_Elimination A b n) !!! m = b !!! m.
Proof.
  intros Hu HA Hb. unfold Gauss_Elimination.
  destruct (Gauss_forward_pinned n m A b Hu HA Hb) as (HA' & Hb' & HlA & Hlb).
  destruct (Gauss_forward n (A, b)) as [A' b']. cbn [fst snd] in *.
  rewrite Gauss_backward_pinned; [exact Hb' | rewrite HA'; exact Hu | exact Hlb].
Qed.

Lemma mat_set_length (i j : nat) (x : R) (A : list (list R)) :
  length (mat_set i j x A) = length A.
Proof. unfold mat_set. apply length_alter. Qed.

Lemma mat_set_other_row (i j m : nat) (x : R) (A : list (list R)) :
  i <> m -> mat_set i j x A !!! m = A !!! m.
Proof. intros H. unfold mat_set. apply list_lookup_total_alter_ne. exact H. Qed.

Lemma mat_set_same_row (i j : nat) (x : R) (A : list (list R)) :
  i < length A -> mat_set i j x A !!! i = <[j := x]> (A !!! i).
Proof.
  intros H. unfold mat_set.
  rewrite list_lookup_total_alter_eq by exact H. reflexivity.
Qed.

Lemma banded_row_mat_set (n m i j : nat) (x : R) (A : list (list R)) :
  m < n ->
  (i = m -> j = m \/ j = m - 1 \/ j = m + 1) ->
  banded_row n m A -> banded_row n m (mat_set i j x A).
Proof.
  intros Hmn Hij (HlA & Hlr & Hz). unfold banded_row.
  rewrite mat_set_length. split; [exact HlA |].
  destruct (decide (i = m)) as [->|Hne].
  - rewrite mat_set_same_row by lia. rewrite length_insert.
    split; [exact Hlr |]. intros k Hk H1 H2 H3.
    rewrite list_lookup_total_insert_ne by (destruct (Hij eq_refl) as [->|[->| ->]]; lia).
    apply Hz; assumption.
  - rewrite mat_set_other_row by exact Hne. split; assumption.
Qed.

Lemma Smooth_mass_matrix_banded (n m : nat) (ArchLength : list R)
    (A : list (list R)) :
  0 < m -> m + 1 < n ->
  banded_row n m A -> banded_row n m (Smooth_mass_matrix n ArchLength A).
Proof.
  intros Hm0 Hmn HA. unfold Smooth_mass_matrix.
  apply (for_loop_preserves
    (fun st : list (list R) * (R * R * R) => banded_row n m (fst st)));
    [exact HA |].
  intros i [A' [[B F] C]] Hi HA'. cbn [fst] in HA'.
  destruct (negb (i =? n - 1) && negb (i =? 0)); destruct (i =? n - 1) eqn:E1;
    destruct (i =? 0) eqn:E0; cbn [negb fst];
    repeat (apply banded_row_mat_set; [lia | | ]); try exact HA';
    intros ->; try (apply Nat.eqb_eq in E1; lia); try (apply Nat.eqb_eq in E0; lia);
    auto.
Qed.

Lemma Smooth_matrix_pinned (geometry : CGeometry) (iMarker : nat) :
  let n := nVertex geometry iMarker in
  3 <= n ->
  length (Smooth_matrix geometry iMarker) = n /\
  unit_row n (n / 2) (Smooth_matrix geometry iMarker !!! (n / 2)).
Proof.
  intros n Hn.
  assert (Hm0 : 0 < n / 2) by (apply Nat.div_str_pos; lia).
  assert (Hmn : n / 2 + 1 < n).
  { pose proof (Nat.div_mod_eq n 2). pose proof (Nat.mod_upper_bound n 2). lia. }
  set (m := n / 2) in *.
  assert (H0 : banded_row n m (replicate n (replicate n 0.0%R))).
  { unfold banded_row. rewrite length_replicate.
    rewrite lookup_total_replicate_2 by lia. rewrite length_replicate.
    repeat split. intros k Hk _ _ _. rewrite lookup_total_replicate_2 by lia. lra. }
  assert (H1 : banded_row n m
    (Smooth_mass_matrix n (Smooth_ArchLength geometry iMarker)
       (replicate n (replicate n 0.0%R))))
    by (apply Smooth_mass_matrix_banded; assumption).
  assert (H2 : banded_row n m
    (snd (for_loop 0 n (fun iVertex A =>
       mat_set iVertex iVertex ((A !!! iVertex) !!! iVertex + 1.0)%R A)
       (Smooth_mass_matrix n (Smooth_ArchLength geometry iMarker)
          (replicate n (replicate n 0.0%R)))))).
  { apply (for_loop_preserves (banded_row n m)); [exact H1 |].
    intros i A' _ HA'. apply banded_row_mat_set; [lia | auto | exact HA']. }
  unfold Smooth_matrix. fold n. fold m.
  set (A2 := snd (for_loop 0 n _ _)) in *.
  destruct H2 as (HlA & Hlr & Hz).
  rewrite !mat_set_length. split; [exact HlA |].
  rewrite mat_set_same_row by (rewrite !mat_set_length; lia).
  rewrite mat_set_same_row by (rewrite !mat_set_length; lia).
  rewrite mat_set_same_row by lia.
  split.
  - rewrite list_lookup_total_insert_ne by lia.
    rewrite list_lookup_total_insert_ne by lia.
    rewrite list_lookup_total_insert_eq by lia. lra.
  - intros k Hk Hkm.
    destruct (decide (k = m - 1)) as [->|H1'].
    { rewrite list_lookup_total_insert_eq by (rewrite !length_insert; lia). lra. }
    rewrite list_lookup_total_insert_ne by congruence.
    destruct (decide (k = m + 1)) as [->|H2'].
    { rewrite list_lookup_total_insert_eq by (rewrite !length_insert; lia). lra. }
    rewrite list_lookup_total_insert_ne by congruence.
    rewrite list_lookup_total_insert_ne by congruence.
    apply Hz; assumption.
Qed.

Lemma Smooth_flatten_length (geometry : CGeometry) (iMarker : nat) (Sens : list R) :
  length (Smooth_flatten geometry iMarker Sens) = length Sens.
Proof.
  unfold Smooth_flatten.
  apply (for_loop_preserves (fun l : list R => length l = length Sens));
    [reflexivity |].
  intros k l _ Hl.
  destruct (Rlt_dec _ _), (Rgt_dec _ _); rewrite ?length_insert; exact Hl.
Qed.

(** The smoothed sensitivity at the middle vertex of one wall marker. *)
Lemma Smooth_marker_pinned (geometry : CGeometry) (iMarker : nat) (Sens : list R) :
  let n := nVertex geometry iMarker in
  3 <= n -> n <= length Sens ->
  Smooth_marker geometry iMarker Sens !!! (n / 2)
  = Smooth_rhs geometry iMarker (Smooth_flatten geometry iMarker Sens) !!! (n / 2) /\
  Smooth_rhs geometry iMarker (Smooth_flatten geometry iMarker Sens) !!! (n / 2)
  = Smooth_flatten geometry iMarker Sens !!! (n / 2).
Proof.
  intros n Hn Hlen.
  assert (Hm : n / 2 < n) by (apply Nat.div_lt; lia).
  destruct (Smooth_matrix_pinned geometry iMarker Hn) as [HlA Hu]. fold n in HlA, Hu.
  assert (Hlb : length (Smooth_rhs geometry iMarker
                          (Smooth_flatten geometry iMarker Sens)) = n).
  { unfold Smooth_rhs. rewrite vec_set_all_length, length_replicate. reflexivity. }
  split.
  - unfold Smooth_marker. fold n.
    pose proof (Gauss_Elimination_pinned n (n / 2) (Smooth_matrix geometry iMarker)
      (Smooth_rhs geometry iMarker (Smooth_flatten geometry iMarker Sens)) Hu
      ltac:(lia) ltac:(lia)) as HG.
    destruct (Gauss_Elimination _ _ n) as [A' b']. cbn [snd] in HG.
    rewrite vec_set_all_lookup_total;
      [exact HG | exact Hm | rewrite Smooth_flatten_length; lia].
  - unfold Smooth_rhs. fold n.
    rewrite vec_set_all_lookup_total;
      [reflexivity | exact Hm | rewrite length_replicate; lia].
Qed.

Lemma Smooth_Sensitivity_marker (geometry : CGeometry) (config : CConfig)
    (s : CAdjEulerSolution) (iMarker : nat) :
  iMarker < nMarker_All config -> iMarker < length (CSensitivity s) ->
  Marker_All_Boundary config !!! iMarker = EULER_WALL ->
  CSensitivity (Smooth_Sensitivity geometry config s) !!! iMarker
  = Smooth_marker geometry iMarker (CSensitivity s !!! iMarker).
Proof.
  intros Hi Hl Hw. unfold Smooth_Sensitivity.
  assert (H : length (CSensitivity (snd (for_loop 0 (nMarker_All config)
      (fun iMarker s =>
        if is_EULER_WALL (Marker_All_Boundary config !!! iMarker)
        then with_CSensitivity
               (alter (Smooth_marker geometry iMarker) iMarker (CSensitivity s)) s
        else s) s))) = length (CSensitivity s) /\
    CSensitivity (snd (for_loop 0 (nMarker_All config)
      (fun iMarker s =>
        if is_EULER_WALL (Marker_All_Boundary config !!! iMarker)
        then with_CSensitivity
               (alter (Smooth_marker geometry iMarker) iMarker (CSensitivity s)) s
        else s) s)) !!! iMarker
    = if iMarker <? nMarker_All config
      then Smooth_marker geometry iMarker (CSensitivity s !!! iMarker)
      else CSensitivity s !!! iMarker).
  { apply (for_loop_inv (fun k st =>
      length (CSensitivity st) = length (CSensitivity s) /\
      CSensitivity st !!! iMarker
      = if iMarker <? k
        then Smooth_marker geometry iMarker (CSensitivity s !!! iMarker)
        else CSensitivity s !!! iMarker)); [lia | split; reflexivity |].
    intros k st Hk [Hlen Hrow].
    destruct (decide (k = iMarker)) as [->|Hne].
    - rewrite Hw. cbn [is_EULER_WALL]. cbn [CSensitivity with_CSensitivity].
      rewrite length_alter. split; [exact Hlen |].
      rewrite list_lookup_total_alter_eq by lia.
      rewrite Hrow.
      replace (iMarker <? iMarker) with false by (symmetry; apply Nat.ltb_ge; lia).
      replace (iMarker <? S iMarker) with true by (symmetry; apply Nat.ltb_lt; lia).
      reflexivity.
    - assert (Hk' : (iMarker <? S k) = (iMarker <? k)).
      { destruct (Nat.ltb_spec iMarker (S k)), (Nat.ltb_spec iMarker k);
          try reflexivity; lia. }
      rewrite Hk'.
      destruct (is_EULER_WALL (Marker_All_Boundary config !!! k)).
      + cbn [CSensitivity with_CSensitivity]. rewrite length_alter.
        split; [exact Hlen |].
        rewrite list_lookup_total_alter_ne by exact Hne. exact Hrow.
      + split; assumption. }
  destruct H as [_ H]. rewrite H.
  replace (iMarker <? nMarker_All config) with true
    by (symmetry; apply Nat.ltb_lt; lia).
  reflexivity.
Qed.

(** C7: on an Euler-wall marker with at least three vertices, row nVertex/2
    of the smoothing matrix is a row of the identity when the elimination
    starts (1 on the diagonal, 0 elsewhere), and the sensitivity that
    Smooth_Sensitivity leaves at vertex nVertex/2 is the entry of the
    right-hand side at that vertex before the solve, which is the flattened
    sensitivity of that vertex. *)
Theorem C7_smoothing_pin (geometry : CGeometry) (config : CConfig)
    (s : CAdjEulerSolution) (iMarker : nat) :
  let n := nVertex geometry iMarker in
  let m := n / 2 in
  let Sens := Smooth_flatten geometry iMarker (CSensitivity s !!! iMarker) in
  let A := Smooth_matrix geometry iMarker in
  let b := Smooth_rhs geometry iMarker Sens in
  iMarker < nMarker_All config -> iMarker < length (CSensitivity s) ->
  Marker_All_Boundary config !!! iMarker = EULER_WALL ->
  3 <= n -> n <= length (CSensitivity s !!! iMarker) ->
  ((A !!! m) !!! m = 1%R /\ forall k, k < n -> k <> m -> (A !!! m) !!! k = 0%R) /\
  snd (Gauss_Elimination A b n) !!! m = b !!! m /\
  (CSensitivity (Smooth_Sensitivity geometry config s) !!! iMarker) !!! m = b !!! m /\
  b !!! m = Sens !!! m.
Proof.
  intros n m Sens A b Hi Hl Hw Hn Hlen.
  destruct (Smooth_matrix_pinned geometry iMarker Hn) as [HlA Hu].
  destruct (Smooth_marker_pinned geometry iMarker (CSensitivity s !!! iMarker) Hn Hlen)
    as [H1 H2].
  assert (Hm : m < n) by (apply Nat.div_lt; lia).
  split; [exact Hu |].
  split.
  - apply Gauss_Elimination_pinned; [exact Hu | fold n in HlA; subst A; lia |].
    subst b. unfold Smooth_rhs. rewrite vec_set_all_length, length_replicate.
    exact Hm.
  - split; [| exact H2].
    rewrite Smooth_Sensitivity_marker by assumption. exact H1.
Qed.

Lemma C7_witness :
  let s := with_CSensitivity [[1; 2; 3; 4]%R] ex_solution in
  (0 < nMarker_All ex_wall_config /\ 0 < length (CSensitivity s) /\
   Marker_All_Boundary ex_wall_config !!! 0 = EULER_WALL /\
   3 <= nVertex ex_wall_geometry 0 /\
   nVertex ex_wall_geometry 0 <= length (CSensitivity s !!! 0)) /\
  (CSensitivity (Smooth_Sensitivity ex_wall_geometry ex_wall_config s) !!! 0) !!! 2
  = Smooth_rhs ex_wall_geometry 0
      (Smooth_flatten ex_wall_geometry 0 (CSensitivity s !!! 0)) !!! 2.
Proof.
  cbv zeta. split.
  - repeat split; vm_compute; lia.
  - apply (C7_smoothing_pin ex_wall_geometry ex_wall_config
      (with_CSensitivity [[1; 2; 3; 4]%R] ex_solution) 0);
      [vm_compute; lia | vm_compute; lia | reflexivity | vm_compute; lia
      | vm_compute; lia].
Defined.

(** ** The restart file *)

Lemma substring_all_of_prefix (base ext : string) :
  String.substring 0 (String.length base) (String.append base ext) = base.
Proof.
  induction base as [|c base IH]; simpl.
  - destruct ext; reflexivity.
  - rewrite IH. reflexivity.
Qed.

Lemma string_length_append (a b : string) :
  String.length (String.append a b) = String.length a + String.length b.
Proof. induction a as [|c a IH]; simpl; [reflexivity | rewrite IH; reflexivity]. Qed.

Lemma AdjExt_injective (o1 o2 : ENUM_OBJECTIVE) :
  AdjExt o1 = AdjExt o2 -> o1 = o2.
Proof. destruct o1, o2; intros H; try reflexivity; discriminate H. Qed.

Lemma all_objectives_complete (o : ENUM_OBJECTIVE) : In o all_objectives.
Proof. destruct o; simpl; tauto. Qed.

(** Every assigned entry of the index transformation is an owned point that
    carries that global index. *)
Lemma Global2Local_spec (geometry : CGeometry) (g : nat) (z : Z) :
  Global2Local geometry !! g = Some z ->
  z = (-1)%Z \/
  exists p, z = Z.of_nat p /\ p < nPointDomain geometry /\
            GlobalIndex (geo_node geometry !!! p) = g.
Proof.
  unfold Global2Local. revert z.
  apply (for_loop_inv (fun i (G : list Z) => forall z, G !! g = Some z ->
    z = (-1)%Z \/
    exists p, z = Z.of_nat p /\ p < i /\ GlobalIndex (geo_node geometry !!! p) = g)).
  - lia.
  - intros z Hz. apply lookup_replicate_1 in Hz. left. tauto.
  - intros i G Hi HG z Hz.
    destruct (decide (GlobalIndex (geo_node geometry !!! i) = g)) as [He|Hne].
    + destruct (decide (g < length G)) as [Hl|Hl].
      * rewrite He, list_lookup_insert_eq in Hz by exact Hl.
        injection Hz as <-. right. exists i. repeat split; [lia | exact He].
      * rewrite list_insert_ge in Hz by lia.
        destruct (HG z Hz) as [->|(p & -> & Hp & Hg)]; [left; reflexivity |].
        right. exists p. repeat split; [lia | exact Hg].
    + rewrite list_lookup_insert_ne in Hz by exact Hne.
      destruct (HG z Hz) as [->|(p & -> & Hp & Hg)]; [left; reflexivity |].
      right. exists p. repeat split; [lia | exact Hg].
Qed.

Lemma extract_spec (k : nat) (tokens Solution : list R) (x : R) :
  tokens !! (k + 1) = Some x -> extract k tokens Solution = <[k := x]> Solution.
Proof. intros H. unfold extract. rewrite H. reflexivity. Qed.

Lemma extract_length (k : nat) (tokens Solution : list R) :
  length (extract k tokens Solution) = length Solution.
Proof.
  unfold extract. destruct (tokens !! (k + 1)); [apply length_insert | reflexivity].
Qed.

Lemma read_solution_length (incompressible : bool) (nDim : nat)
    (tokens Solution : list R) :
  length (read_solution incompressible nDim tokens Solution) = length Solution.
Proof.
  unfold read_solution.
  destruct incompressible, (nDim =? 2), (nDim =? 3);
    rewrite ?extract_length; reflexivity.
Qed.

(** A line that holds the index and nVar numbers fills [Solution] with those
    numbers. *)
Lemma read_solution_spec (incompressible : bool) (nDim : nat)
    (tokens Solution : list R) :
  let nVar := if incompressible then nDim + 1 else nDim + 2 in
  nDim = 2 \/ nDim = 3 ->
  length Solution = nVar -> nVar + 1 <= length tokens ->
  read_solution incompressible nDim tokens Solution = take nVar (drop 1 tokens).
Proof.
  intros nVar HnDim HS HT. subst nVar. unfold read_solution, extract.
  destruct HnDim as [-> | ->]; destruct incompressible; simpl in HS, HT;
    do 6 (try (destruct Solution as [|? Solution]; simpl in HS; [try lia|]));
    try lia;
    do 6 (try (destruct tokens as [|? tokens]; [simpl in HT; lia |]));
    reflexivity.
Qed.

Section RestartFacts.

Variable open : string -> option (list string).
Variable numbers : string -> list R.

Lemma restart_line_step (incompressible : bool) (nDim : nat) (G2L : list Z)
    (i : nat) (node : list (option NodeInit)) (Solution : list R) (line : string) :
  restart_line numbers incompressible nDim G2L (i, node, Solution) line
  = match G2L !! i with
    | Some l =>
        if (0 <=? l)%Z then
          (i + 1,
           <[Z.to_nat l := Some (FromSolution
              (read_solution incompressible nDim (numbers line) Solution))]> node,
           read_solution incompressible nDim (numbers line) Solution)
        else (i + 1, node, Solution)
    | None => (i + 1, node, Solution)
    end.
Proof. unfold restart_line. destruct (G2L !! i); reflexivity. Qed.

Lemma restart_lines_frame (incompressible : bool) (nDim : nat) (G2L : list Z)
    (data : list string) (i : nat) (node : list (option NodeInit))
    (Solution : list R) (p : nat) :
  (forall k, k < length data -> G2L !! (i + k) <> Some (Z.of_nat p)) ->
  let r := fold_left (restart_line numbers incompressible nDim G2L) data
             (i, node, Solution) in
  snd (fst r) !! p = node !! p /\ length (snd (fst r)) = length node /\
  length (snd r) = length Solution.
Proof.
  revert i node Solution.
  induction data as [|line data IH]; intros i node Solution Hno; cbv zeta.
  - simpl. auto.
  - cbn [fold_left]. rewrite restart_line_step.
    assert (Hhead := Hno 0 ltac:(simpl; lia)). rewrite Nat.add_0_r in Hhead.
    assert (Htail : forall k, k < length data ->
              G2L !! (i + 1 + k) <> Some (Z.of_nat p)).
    { intros k Hk. replace (i + 1 + k) with (i + S k) by lia.
      apply Hno. simpl. lia. }
    destruct (G2L !! i) as [l|] eqn:El;
      [destruct (0 <=? l)%Z eqn:Ege |];
      try (apply (IH (i + 1) node Solution Htail)).
    destruct (IH (i + 1)
      (<[Z.to_nat l := Some (FromSolution
           (read_solution incompressible nDim (numbers line) Solution))]> node)
      (read_solution incompressible nDim (numbers line) Solution) Htail)
      as (H1 & H2 & H3).
    rewrite H1, H2, H3, length_insert, read_solution_length.
    repeat split.
    apply list_lookup_insert_ne. intros Heq. apply Hhead.
    f_equal. apply Z.leb_le in Ege. lia.
Qed.

(** The node of the point that the k-th data line belongs to. *)
Lemma restart_lines_node (geometry : CGeometry) (incompressible : bool) (nDim : nat)
    (data : list string) (i : nat) (node : list (option NodeInit))
    (Solution : list R) (k p : nat) (line : string) :
  let nVar := if incompressible then nDim + 1 else nDim + 2 in
  let r := fold_left (restart_line numbers incompressible nDim (Global2Local geometry))
             data (i, node, Solution) in
  nDim = 2 \/ nDim = 3 -> length Solution = nVar ->
  data !! k = Some line ->
  Global2Local geometry !! (i + k) = Some (Z.of_nat p) ->
  p < length node ->
  nVar + 1 <= length (numbers line) ->
  snd (fst r) !! p = Some (Some (FromSolution (take nVar (drop 1 (numbers line))))).
Proof.
  intros nVar. cbv zeta. revert i node Solution k.
  induction data as [|l0 data IH]; intros i node Solution k HnDim HS Hk HG Hp HT.
  - discriminate Hk.
  - cbn [fold_left]. rewrite restart_line_step.
    destruct k as [|k].
    + injection Hk as ->. rewrite Nat.add_0_r in HG. rewrite HG.
      replace (0 <=? Z.of_nat p)%Z with true by (symmetry; apply Z.leb_le; lia).
      rewrite Nat2Z.id.
      rewrite (read_solution_spec incompressible nDim (numbers line) Solution
                 HnDim HS HT).
      fold nVar.
      destruct (restart_lines_frame incompressible nDim (Global2Local geometry)
        data (i + 1)
        (<[p := Some (FromSolution (take nVar (drop 1 (numbers line))))]> node)
        (take nVar (drop 1 (numbers line))) p) as (H1 & _).
      { intros k' Hk' HG'.
        destruct (Global2Local_spec geometry _ _ HG) as [Hm|(q & Hq & _ & Hgq)];
          [lia |].
        destruct (Global2Local_spec geometry _ _ HG') as [Hm|(q' & Hq' & _ & Hgq')];
          [lia |].
        apply Nat2Z.inj in Hq, Hq'. subst q q'. lia. }
      rewrite H1. apply list_lookup_insert_eq. exact Hp.
    + simpl in Hk. replace (i + S k) with (i + 1 + k) in HG by lia.
      destruct (Global2Local geometry !! i) as [l|] eqn:El;
        [destruct (0 <=? l)%Z eqn:Ege |].
      * apply (IH (i + 1) _ _ k); try assumption.
        -- rewrite read_solution_length. exact HS.
        -- rewrite length_insert. exact Hp.
      * apply (IH (i + 1) _ _ k); assumption.
      * apply (IH (i + 1) _ _ k); assumption.
Qed.

(** C5: on a restart, the file name is the configured name without its last
    four characters followed by the suffix of the objective function
    ("_cd.dat" for drag, "_cl.dat" for lift, "_fwh.dat" for noise; the
    eighteen objectives have eighteen different suffixes). When that file
    cannot be opened the constructor writes two messages and exits with
    code 1. Otherwise the first line is dropped whatever it holds, and the
    k-th line after it, which belongs to the point of global index k,
    instantiates the node of that point, when it is owned, from the nVar
    numbers that follow the index on the line. *)
Theorem C5_restart_file (geometry : CGeometry) (config : CConfig)
    (node : list (option NodeInit)) (Solution Phi_Inf : list R) :
  let nDim := geo_nDim geometry in
  let nVar := if Incompressible config then nDim + 1 else nDim + 2 in
  let name := Solution_AdjFileName config in
  Restart config = true -> FinestMGLevel geometry = true ->
  (restart_filename config
   = String.append (String.substring 0 (String.length name - 4) name)
       (AdjExt (Kind_ObjFunc config)) /\
   forall base ext, name = String.append base ext -> String.length ext = 4 ->
     restart_filename config = String.append base (AdjExt (Kind_ObjFunc config))) /\
  (AdjExt DRAG_COEFFICIENT = "_cd.dat"%string /\
   AdjExt LIFT_COEFFICIENT = "_cl.dat"%string /\
   AdjExt NOISE = "_fwh.dat"%string /\
   length all_objectives = 18 /\ (forall o, In o all_objectives) /\
   forall o1 o2, AdjExt o1 = AdjExt o2 -> o1 = o2) /\
  (open (restart_filename config) = None ->
   Constructor_nodes open numbers geometry config node Solution Phi_Inf
   = Exit 1 ["There is no adjoint restart file!!"%string;
             "Press any key to exit..."%string]) /\
  (forall header data, open (restart_filename config) = Some (header :: data) ->
   (forall header', restart_from_lines numbers geometry config (header' :: data)
                      node Solution
                    = restart_from_lines numbers geometry config (header :: data)
                        node Solution) /\
   exists node',
     Constructor_nodes open numbers geometry config node Solution Phi_Inf
     = Constructed node' /\
     forall k line p,
       data !! k = Some line ->
       Global2Local geometry !! k = Some (Z.of_nat p) ->
       (nDim = 2 \/ nDim = 3) -> length Solution = nVar -> p < length node ->
       nVar + 1 <= length (numbers line) ->
       node' !! p = Some (Some (FromSolution (take nVar (drop 1 (numbers line)))))).
Proof.
  intros nDim nVar name HR HF.
  split; [split; [reflexivity |] |].
  { intros base ext Hname Hext. unfold restart_filename. fold name.
    rewrite Hname, string_length_append, Hext.
    replace (String.length base + 4 - 4) with (String.length base) by lia.
    rewrite substring_all_of_prefix. reflexivity. }
  split.
  { repeat split; try reflexivity.
    - apply all_objectives_complete.
    - apply AdjExt_injective. }
  split.
  { intros Hopen. unfold Constructor_nodes. rewrite HR, HF, Hopen. reflexivity. }
  intros header data Hopen. split; [reflexivity |].
  exists (restart_from_lines numbers geometry config (header :: data) node Solution).
  split.
  { unfold Constructor_nodes. rewrite HR, HF, Hopen. reflexivity. }
  intros k line p Hk HG HnDim HS Hp HT.
  unfold restart_from_lines. cbn [tail]. fold nDim.
  pose proof (restart_lines_node geometry (Incompressible config) nDim data 0 node
    Solution k p line HnDim HS Hk HG Hp HT) as Hnode.
  cbv zeta in Hnode. fold nVar in Hnode.
  destruct (fold_left _ data (0, node, Solution)) as [[iG node1] Sol1].
  cbn [fst snd] in Hnode.
  destruct (Global2Local_spec geometry _ _ HG) as [Hm|(q & Hq & Hqd & _)]; [lia |].
  apply Nat2Z.inj in Hq. subst q.
  apply (for_loop_preserves (fun nd : list (option NodeInit) =>
    nd !! p = Some (Some (FromSolution (take nVar (drop 1 (numbers line)))))));
    [exact Hnode |].
  intros i nd Hi Hnd. rewrite list_lookup_insert_ne by lia. exact Hnd.
Qed.

End RestartFacts.

Lemma C5_witness :
  let config := ex_config EULER_IMPLICIT CONTINUOUS ROE_1ST NONE LU_SGS in
  (Restart config = true /\ FinestMGLevel ex_geometry = true) /\
  restart_filename config = "solution_adj_cd.dat"%string /\
  exists node',
    Constructor_nodes ex_open ex_numbers ex_geometry config [None; None]
      [0; 0; 0; 0]%R [0; 0]%R = Constructed node' /\
    node' !! 0 = Some (Some (FromSolution (take 4 (drop 1 (ex_numbers "0 1 2 3 4"))))).
Proof.
  cbv zeta. split; [split; reflexivity |].
  destruct (C5_restart_file ex_open ex_numbers ex_geometry
    (ex_config EULER_IMPLICIT CONTINUOUS ROE_1ST NONE LU_SGS) [None; None]
    [0; 0; 0; 0]%R [0; 0]%R eq_refl eq_refl) as ((_ & Hname) & _ & _ & Hfile).
  split; [apply (Hname "solution_adj" ".dat")%string; reflexivity |].
  destruct (Hfile "header"%string ["0 1 2 3 4"%string] eq_refl)
    as (_ & node' & Hc & Hnode).
  exists node'. split; [exact Hc |].
  apply (Hnode 0 "0 1 2 3 4"%string 0).
  - reflexivity.
  - vm_compute. reflexivity.
  - left. reflexivity.
  - reflexivity.
  - simpl. lia.
  - simpl. lia.
Defined.

(** * Further properties of the code *)

(** ** The explicit updates *)

Lemma explicit_update_loop (res : CVariable -> nat -> R) (amount : nat -> R -> R)
    (G : nat -> nat) (n : nat) (s : CAdjEulerSolution) :
  (forall c v x iVar, res (AddSolution v x c) iVar = res c iVar) ->
  let s' := snd (for_loop 0 n (fun p st =>
              snd (for_loop 0 (nVar st) (fun v st =>
                let Res := res (node st !!! p) v in
                let st := at_node p (AddSolution v (amount p Res)) st in
                let st := AddRes_RMS v (Res*Res)%R st in
                AddRes_Max v (Rabs Res) (G p) st) st)) s) in
  nVar s' = nVar s /\ length (node s') = length (node s) /\
  forall p, p < length (node s) ->
    (forall iVar, res (node s' !!! p) iVar = res (node s !!! p) iVar) /\
    length (Solution (node s' !!! p)) = length (Solution (node s !!! p)) /\
    forall v, v < length (Solution (node s !!! p)) ->
      Solution (node s' !!! p) !!! v
      = if (p <? n) && (v <? nVar s)
        then (Solution (node s !!! p) !!! v + amount p (res (node s !!! p) v))%R
        else Solution (node s !!! p) !!! v.
Proof.
  intros Hres. cbv zeta.
  set (Q := fun (c : nat -> nat -> bool) (st : CAdjEulerSolution) =>
    nVar st = nVar s /\ length (node st) = length (node s) /\
    forall p, p < length (node s) ->
      (forall iVar, res (node st !!! p) iVar = res (node s !!! p) iVar) /\
      length (Solution (node st !!! p)) = length (Solution (node s !!! p)) /\
      forall v, v < length (Solution (node s !!! p)) ->
        Solution (node st !!! p) !!! v
        = if c p v
          then (Solution (node s !!! p) !!! v + amount p (res (node s !!! p) v))%R
          else Solution (node s !!! p) !!! v).
  assert (Hext : forall c c' st, (forall p v, c p v = c' p v) -> Q c st -> Q c' st).
  { intros c c' st Hc (H1 & H2 & H3). unfold Q.
    do 2 (split; [assumption |]). intros p Hp. destruct (H3 p Hp) as (Hr & Hl & Hv).
    split; [exact Hr |]. split; [exact Hl |].
    intros v Hlt. rewrite <- Hc. apply Hv. exact Hlt. }
  change (Q (fun p v => (p <? n) && (v <? nVar s))
            (snd (for_loop 0 n (fun p st =>
              snd (for_loop 0 (nVar st) (fun v st =>
                AddRes_Max v (Rabs (res (node st !!! p) v)) (G p)
                  (AddRes_RMS v (res (node st !!! p) v * res (node st !!! p) v)%R
                     (at_node p (AddSolution v (amount p (res (node st !!! p) v))) st)))
                st)) s))).
  apply (for_loop_inv (fun k st => Q (fun p v => (p <? k) && (v <? nVar s)) st));
    [lia | |].
  - unfold Q. do 2 (split; [reflexivity |]). intros p Hp.
    split; [reflexivity |]. split; [reflexivity |]. intros v Hv.
    replace (p <? 0) with false by (symmetry; apply Nat.ltb_ge; lia).
    reflexivity.
  - intros k st Hk HQ.
    assert (HnV : nVar st = nVar s) by apply HQ. rewrite HnV.
    apply (Hext (fun p v => ((p <? k) && (v <? nVar s)) || ((p =? k) && (v <? nVar s)))).
    { intros p v. case_nat_tests; simpl; try reflexivity; lia. }
    apply (for_loop_inv (fun j st1 =>
      Q (fun p v => ((p <? k) && (v <? nVar s)) || ((p =? k) && (v <? j))) st1));
      [lia | |].
    + apply (Hext (fun p v => (p <? k) && (v <? nVar s))); [|exact HQ].
      intros p v. case_nat_tests; simpl; try reflexivity; lia.
    + intros j st1 Hj (H1 & H2 & H3).
      destruct (AddRes_Max_fields j (Rabs (res (node st1 !!! k) j)) (G k)
        (AddRes_RMS j (res (node st1 !!! k) j * res (node st1 !!! k) j)%R
           (at_node k (AddSolution j (amount k (res (node st1 !!! k) j))) st1)))
        as (Hn & HnV' & _).
      unfold Q. rewrite Hn, HnV'. cbn [AddRes_RMS nVar node with_Residual_RMS at_node with_node].
      split; [exact H1 |].
      split; [rewrite length_alter; exact H2 |].
      intros p Hp. destruct (H3 p Hp) as (Hr & Hl & Hv).
      destruct (decide (p = k)) as [->|Hne].
      * rewrite list_lookup_total_alter_eq by lia.
        split; [intros iVar; rewrite Hres; apply Hr |].
        cbn [AddSolution Solution with_Solution]. rewrite length_insert.
        split; [exact Hl |].
        intros v Hlt.
        destruct (decide (v = j)) as [->|Hvj].
        -- rewrite list_lookup_total_insert_eq by lia.
           rewrite (Hv j Hlt), Hr.
           replace (k <? k) with false by (symmetry; apply Nat.ltb_ge; lia).
           replace (j <? j) with false by (symmetry; apply Nat.ltb_ge; lia).
           rewrite Nat.eqb_refl. simpl.
           replace (j <? Datatypes.S j) with true by (symmetry; apply Nat.ltb_lt; lia).
           reflexivity.
        -- rewrite list_lookup_total_insert_ne by congruence.
           rewrite (Hv v Hlt).
           case_nat_tests; simpl; try reflexivity; lia.
      * rewrite list_lookup_total_alter_ne by congruence.
        split; [exact Hr |]. split; [exact Hl |].
        intros v Hlt. rewrite (Hv v Hlt).
        case_nat_tests; simpl; try reflexivity; lia.
Qed.

(** X1: the explicit-Euler update (before the exchange between partitions)
    subtracts from every component of the adjoint state of every owned node
    the sum of its four residual accumulators times Delta_Time/Volume, and
    leaves the state of the halo nodes as it was. *)
Theorem X1_ExplicitEuler_update (geometry : CGeometry) (flow : CFlowSolution)
    (config : CConfig) (s : CAdjEulerSolution) (p v : nat) :
  let c := node s !!! p in
  let Res := (Res_Conv c !!! v + Res_Visc c !!! v + Res_Sour c !!! v
              + Res_TruncError c !!! v)%R in
  let Delta := (Delta_Time (flow_node flow !!! p) / Volume (geo_node geometry !!! p))%R in
  p < length (node s) -> v < length (Solution c) ->
  Solution (node (ExplicitEuler_update geometry flow config s) !!! p) !!! v
  = if (p <? nPointDomain geometry) && (v <? nVar s)
    then (Solution c !!! v - Res * Delta)%R
    else Solution c !!! v.
Proof.
  intros c Res Delta Hp Hv.
  destruct (reset_residual_norms_fields s) as (Hn & HnV & _).
  pose proof (explicit_update_loop total_residual
    (fun p Res => (- Res * (Delta_Time (flow_node flow !!! p)
                            / Volume (geo_node geometry !!! p)))%R)
    (fun p => GlobalIndex (geo_node geometry !!! p))
    (nPointDomain geometry) (reset_residual_norms s)
    ltac:(intros; reflexivity)) as H.
  cbv zeta in H. destruct H as (_ & _ & H).
  rewrite Hn, HnV in H. destruct (H p Hp) as (_ & _ & Hsol).
  unfold ExplicitEuler_update.
  etransitivity; [apply (Hsol v Hv) |].
  destruct ((p <? nPointDomain geometry) && (v <? nVar s)); [| reflexivity].
  unfold total_residual. subst Res Delta c. ring.
Qed.

Lemma X1_witness :
  let config := ex_config EULER_EXPLICIT CONTINUOUS ROE_1ST NONE LU_SGS in
  (0 < length (node ex_solution) /\
   0 < length (Solution (node ex_solution !!! 0))) /\
  Solution (node (ExplicitEuler_update ex_geometry ex_flow config ex_solution) !!! 0)
    !!! 0
  = (1 - (1 + 0 + 0 + 0) * (1 / 2))%R.
Proof.
  cbv zeta. split; [split; vm_compute; lia |].
  apply (X1_ExplicitEuler_update ex_geometry ex_flow
    (ex_config EULER_EXPLICIT CONTINUOUS ROE_1ST NONE LU_SGS) ex_solution 0 0);
    vm_compute; lia.
Defined.

(** X2: a Runge-Kutta stage (before the exchange between partitions)
    subtracts from every component of the adjoint state of every owned node
    its Residual plus its truncation error, times Delta_Time/Volume and the
    stage coefficient alpha; the convective, viscous and source accumulators
    do not enter, and the halo nodes keep their state. *)
Theorem X2_ExplicitRK_update (geometry : CGeometry) (flow : CFlowSolution)
    (config : CConfig) (iRKStep : nat) (s : CAdjEulerSolution) (p v : nat) :
  let c := node s !!! p in
  let Res := (Residual c !!! v + Res_TruncError c !!! v)%R in
  let Delta := (Delta_Time (flow_node flow !!! p) / Volume (geo_node geometry !!! p))%R in
  p < length (node s) -> v < length (Solution c) ->
  Solution (node (ExplicitRK_update geometry flow config iRKStep s) !!! p) !!! v
  = if (p <? nPointDomain geometry) && (v <? nVar s)
    then (Solution c !!! v - Res * Delta * Alpha_RKStep config iRKStep)%R
    else Solution c !!! v.
Proof.
  intros c Res Delta Hp Hv.
  destruct (reset_residual_norms_fields s) as (Hn & HnV & _).
  pose proof (explicit_update_loop
    (fun c v => (Residual c !!! v + Res_TruncError c !!! v)%R)
    (fun p Res => (- Res * (Delta_Time (flow_node flow !!! p)
                            / Volume (geo_node geometry !!! p))
                   * Alpha_RKStep config iRKStep)%R)
    (fun p => GlobalIndex (geo_node geometry !!! p))
    (nPointDomain geometry) (reset_residual_norms s)
    ltac:(intros; reflexivity)) as H.
  cbv zeta in H. destruct H as (_ & _ & H).
  rewrite Hn, HnV in H. destruct (H p Hp) as (_ & _ & Hsol).
  unfold ExplicitRK_update.
  etransitivity; [apply (Hsol v Hv) |].
  destruct ((p <? nPointDomain geometry) && (v <? nVar s)); [| reflexivity].
  subst Res Delta c. cbv beta. ring.
Qed.

Lemma X2_witness :
  let config := ex_config RUNGE_KUTTA_EXPLICIT CONTINUOUS ROE_1ST NONE LU_SGS in
  (1 < length (node ex_solution) /\
   0 < length (Solution (node ex_solution !!! 1))) /\
  Solution (node (ExplicitRK_update ex_geometry ex_flow config 0 ex_solution) !!! 1)
    !!! 0
  = Solution (node ex_solution !!! 1) !!! 0.
Proof.
  cbv zeta. split; [split; vm_compute; lia |].
  apply (X2_ExplicitRK_update ex_geometry ex_flow
    (ex_config RUNGE_KUTTA_EXPLICIT CONTINUOUS ROE_1ST NONE LU_SGS) 0 ex_solution 1 0);
    vm_compute; lia.
Defined.

(** ** The exchange between partitions *)

Section ExchangeFacts.

Variable MPI_Recv : option (nat -> list R).

(** X3: SetSolution_MPI changes nothing when no marker receives, that is
    when every marker either is not a SEND_RECEIVE marker or has a
    send/receive code that is not negative. *)
Theorem X3_SetSolution_MPI_without_receive (geometry : CGeometry) (config : CConfig)
    (s : CAdjEulerSolution) :
  (forall iMarker, iMarker < nMarker_All config ->
     is_SEND_RECEIVE (Marker_All_Boundary config !!! iMarker) = false \/
     (0 <= Marker_All_SendRecv config !!! iMarker)%Z) ->
  SetSolution_MPI MPI_Recv geometry config s = s.
Proof.
  intros H. unfold SetSolution_MPI.
  apply (for_loop_preserves (fun st : list R * CAdjEulerSolution => snd st = s));
    [reflexivity |].
  intros k [nS s'] Hk Hs. cbn [snd] in Hs. subst s'.
  destruct (H k ltac:(lia)) as [Hm|Hz].
  - rewrite Hm. reflexivity.
  - destruct (is_SEND_RECEIVE _); [| reflexivity].
    replace (Marker_All_SendRecv config !!! k <? 0)%Z with false
      by (symmetry; apply Z.ltb_ge; exact Hz).
    reflexivity.
Qed.

End ExchangeFacts.

Lemma X3_witness :
  let config := ex_config EULER_EXPLICIT CONTINUOUS ROE_1ST NONE LU_SGS in
  (forall iMarker, iMarker < nMarker_All config ->
     is_SEND_RECEIVE (Marker_All_Boundary config !!! iMarker) = false \/
     (0 <= Marker_All_SendRecv config !!! iMarker)%Z) /\
  SetSolution_MPI None ex_geometry config ex_solution = ex_solution.
Proof.
  cbv zeta.
  assert (H : forall iMarker,
    iMarker < nMarker_All (ex_config EULER_EXPLICIT CONTINUOUS ROE_1ST NONE LU_SGS) ->
    is_SEND_RECEIVE (Marker_All_Boundary
      (ex_config EULER_EXPLICIT CONTINUOUS ROE_1ST NONE LU_SGS) !!! iMarker) = false \/
    (0 <= Marker_All_SendRecv
            (ex_config EULER_EXPLICIT CONTINUOUS ROE_1ST NONE LU_SGS) !!! iMarker)%Z).
  { intros iMarker Hi. left. destruct iMarker; [reflexivity |].
    exfalso. revert Hi. vm_compute. lia. }
  split; [exact H |].
  apply (X3_SetSolution_MPI_without_receive None ex_geometry _ ex_solution H).
Defined.

(** ** Preprocessing: the Jacobian and the adjoint state *)

(** X4: the residual initialisation of Preprocessing never writes the
    adjoint state of a node; it zeroes the whole Jacobian when the
    time integration is implicit or the adjoint is discrete, and otherwise
    leaves the Jacobian as it is. *)
Theorem X4_Preprocessing_Jacobian (geometry : CGeometry) (config : CConfig)
    (iRKStep : nat) (s : CAdjEulerSolution) :
  let s' := Preprocessing_residuals geometry config iRKStep s in
  let zeroed := is_EULER_IMPLICIT (Kind_TimeIntScheme_AdjFlow config)
                || is_DISCRETE (Kind_Adjoint config) in
  (forall p, p < length (node s) -> p < nPoint geometry ->
     Solution (node s' !!! p) = Solution (node s !!! p)) /\
  (zeroed = true -> forall i j a b, mat_val (Jacobian s') i j a b = 0%R) /\
  (zeroed = false -> Jacobian s' = Jacobian s).
Proof.
  cbv zeta. split.
  - intros p Hp Hpn.
    destruct (Preprocessing_residuals_node geometry config iRKStep s) as (_ & _ & H).
    apply (H p Hp Hpn).
  - unfold Preprocessing_residuals.
    destruct (is_EULER_IMPLICIT _ || is_DISCRETE _).
    + split; [intros _ i j a b; reflexivity | discriminate].
    + split; [discriminate |]. intros _.
      apply (for_loop_preserves (fun st => Jacobian st = Jacobian s)); [reflexivity |].
      intros k st _ Hst.
      destruct (_ || _); cbn [Jacobian at_node with_node]; exact Hst.
Qed.

Lemma X4_witness :
  let config := ex_config EULER_EXPLICIT DISCRETE ROE_1ST NONE LU_SGS in
  (0 < length (node ex_solution) /\ 0 < nPoint ex_geometry /\
   is_EULER_IMPLICIT (Kind_TimeIntScheme_AdjFlow config)
   || is_DISCRETE (Kind_Adjoint config) = true) /\
  Solution (node (Preprocessing_residuals ex_geometry config 0 ex_solution) !!! 0)
  = Solution (node ex_solution !!! 0) /\
  mat_val (Jacobian (Preprocessing_residuals ex_geometry config 0
                       (with_Jacobian (AddVal2Diag 0 1 ex_matrix) ex_solution)))
    0 0 0 0 = 0%R.
Proof.
  cbv zeta. split; [repeat split; vm_compute; lia |].
  split.
  - apply (X4_Preprocessing_Jacobian ex_geometry
      (ex_config EULER_EXPLICIT DISCRETE ROE_1ST NONE LU_SGS) 0 ex_solution);
      vm_compute; lia.
  - apply (X4_Preprocessing_Jacobian ex_geometry
      (ex_config EULER_EXPLICIT DISCRETE ROE_1ST NONE LU_SGS) 0
      (with_Jacobian (AddVal2Diag 0 1 ex_matrix) ex_solution)).
    reflexivity.
Defined.

(** ** Boundary handlers and halo nodes *)

Section HaloFacts.

Variable SetResidual_upwind : CNumerics -> CConfig -> UpwindFlux.
Variable SetResidual_discrete : CNumerics -> CConfig -> Block * Block.

(** X5: the far-field, inlet and outlet handlers skip the vertices that sit
    on halo nodes: on a marker all of whose vertices are on halo nodes each
    of them returns the solver, the flux routine and its scratch arrays as
    it found them. *)
Theorem X5_handlers_skip_halo_nodes (geometry : CGeometry) (flow : CFlowSolution)
    (config : CConfig) (val_marker : nat) (RatioDensity : R)
    (st3 : BCArrays * CNumerics * CAdjEulerSolution)
    (st4 : BCArrays * R * CNumerics * CAdjEulerSolution) :
  (forall iVertex, iVertex < nVertex geometry val_marker ->
     Domain (geo_node geometry
               !!! vertex_Node ((geo_vertex geometry !!! val_marker) !!! iVertex))
     = false) ->
  BC_Far_Field SetResidual_upwind SetResidual_discrete geometry flow config
    val_marker st3 = st3 /\
  BC_Inlet SetResidual_upwind geometry flow config val_marker st4 = st4 /\
  BC_Outlet SetResidual_upwind geometry flow config RatioDensity val_marker st4 = st4.
Proof.
  intros H. split; [| split].
  - unfold BC_Far_Field.
    apply (for_loop_preserves (fun st => st = st3)); [reflexivity |].
    intros k st Hk ->. destruct st3 as [[mem num] s].
    unfold BC_Far_Field_vertex. rewrite (H k ltac:(lia)). reflexivity.
  - unfold BC_Inlet.
    apply (for_loop_preserves (fun st => st = st4)); [reflexivity |].
    intros k st Hk ->. destruct st4 as [[[mem D] num] s].
    unfold BC_Inlet_vertex. rewrite (H k ltac:(lia)). reflexivity.
  - unfold BC_Outlet.
    apply (for_loop_preserves (fun st => st = st4)); [reflexivity |].
    intros k st Hk ->. destruct st4 as [[[mem D] num] s].
    unfold BC_Outlet_vertex. rewrite (H k ltac:(lia)). reflexivity.
Qed.

End HaloFacts.

Lemma X5_witness :
  let config := ex_config EULER_IMPLICIT CONTINUOUS ROE_1ST NONE LU_SGS in
  (forall iVertex, iVertex < nVertex ex_geometry 0 ->
     Domain (geo_node ex_geometry
               !!! vertex_Node ((geo_vertex ex_geometry !!! 0) !!! iVertex))
     = false) /\
  BC_Inlet ex_SetResidual_upwind ex_geometry ex_flow config 0
    (ex_arrays, 0%R, ex_numerics, ex_solution)
  = (ex_arrays, 0%R, ex_numerics, ex_solution).
Proof.
  cbv zeta.
  assert (H : forall iVertex, iVertex < nVertex ex_geometry 0 ->
     Domain (geo_node ex_geometry
               !!! vertex_Node ((geo_vertex ex_geometry !!! 0) !!! iVertex))
     = false).
  { intros iVertex Hi. destruct iVertex; [reflexivity |].
    exfalso. revert Hi. vm_compute. lia. }
  split; [exact H |].
  apply (X5_handlers_skip_halo_nodes ex_SetResidual_upwind ex_SetResidual_discrete
    ex_geometry ex_flow (ex_config EULER_IMPLICIT CONTINUOUS ROE_1ST NONE LU_SGS)
    0 0%R (ex_arrays, ex_numerics, ex_solution)
    (ex_arrays, 0%R, ex_numerics, ex_solution) H).
Defined.

(** ** The exterior states of the outlet, the inlet and the far field *)

Lemma pair_fill_loop (n : nat) (f g : nat -> R) (A0 B0 : list R) :
  let r := snd (for_loop 0 n (fun i '(A, B) => (<[i := f i]> A, <[i := g i]> B))
                  (A0, B0)) in
  (forall v, v < n -> v < length A0 -> fst r !!! v = f v) /\
  (forall v, v < n -> v < length B0 -> snd r !!! v = g v).
Proof.
  cbv zeta.
  apply (for_loop_inv (fun k (st : list R * list R) =>
    length (fst st) = length A0 /\ length (snd st) = length B0 /\
    (forall v, v < k -> v < length A0 -> fst st !!! v = f v) /\
    (forall v, v < k -> v < length B0 -> snd st !!! v = g v))); [lia | |].
  - repeat split; intros; lia.
  - intros k [A B] Hk (HlA & HlB & HA & HB). cbn [fst snd] in *.
    rewrite !length_insert. split; [exact HlA |]. split; [exact HlB |].
    split; intros v Hv Hl; (destruct (decide (v = k)) as [->|Hne];
      [rewrite list_lookup_total_insert_eq by lia; reflexivity
      | rewrite list_lookup_total_insert_ne by congruence]);
      [apply HA | apply HB]; lia.
Qed.

Lemma shifted_fill_loop (n : nat) (h : nat -> R) (U0 : list R) (d : nat) :
  d < n -> d + 1 < length U0 ->
  snd (for_loop 0 n (fun iDim U => <[iDim+1 := h iDim]> U) U0) !!! (d + 1) = h d.
Proof.
  intros Hd Hl.
  assert (H : length (snd (for_loop 0 n (fun iDim U => <[iDim+1 := h iDim]> U) U0))
              = length U0 /\
    (d < n -> snd (for_loop 0 n (fun iDim U => <[iDim+1 := h iDim]> U) U0) !!! (d + 1)
              = h d)).
  { apply (for_loop_inv (fun k (U : list R) =>
      length U = length U0 /\ (d < k -> U !!! (d + 1) = h d))); [lia | |].
    - split; [reflexivity | lia].
    - intros k U Hk [HlU HU]. rewrite length_insert. split; [exact HlU |].
      intros Hdk. destruct (decide (d = k)) as [->|Hne].
      + apply list_lookup_total_insert_eq. lia.
      + rewrite list_lookup_total_insert_ne by lia. apply HU. lia. }
  apply H. exact Hd.
Qed.

(** The interior velocity, its square and its normal component, component
    by component. *)
Lemma domain_velocity_normal_spec (n : nat) (U_domain UnitaryNormal Velocity : list R) :
  let vel := fun d => (U_domain !!! (d+1)%nat / U_domain !!! 0%nat)%R in
  let r := domain_velocity_normal n U_domain UnitaryNormal Velocity in
  n <= length Velocity ->
  (forall d, d < n -> fst (fst r) !!! d = vel d) /\
  snd (fst r) = fold_left (fun acc d => (acc + vel d * vel d)%R) (seq 0 n) 0.0%R /\
  snd r = fold_left (fun acc d => (acc + vel d * UnitaryNormal !!! d)%R) (seq 0 n) 0.0%R.
Proof.
  intros vel r Hn. subst r. unfold domain_velocity_normal.
  set (body := fun (iDim : nat) '(Velocity, Velocity2, Vn) =>
    let Velocity :=
      <[iDim := (U_domain !!! (iDim+1)%nat / U_domain !!! 0%nat)%R]> Velocity in
    (Velocity,
     (Velocity2 + Velocity !!! iDim * Velocity !!! iDim)%R,
     (Vn + Velocity !!! iDim * UnitaryNormal !!! iDim)%R)).
  assert (H : n <= n ->
    (length (fst (fst (snd (for_loop 0 n body (Velocity, 0.0%R, 0.0%R)))))
     = length Velocity /\
     forall d, d < n ->
       fst (fst (snd (for_loop 0 n body (Velocity, 0.0%R, 0.0%R)))) !!! d = vel d) /\
    snd (fst (snd (for_loop 0 n body (Velocity, 0.0%R, 0.0%R))))
    = fold_left (fun acc d => (acc + vel d * vel d)%R) (seq 0 n) 0.0%R /\
    snd (snd (for_loop 0 n body (Velocity, 0.0%R, 0.0%R)))
    = fold_left (fun acc d => (acc + vel d * UnitaryNormal !!! d)%R) (seq 0 n) 0.0%R).
  { apply (for_loop_inv (fun k (st : list R * R * R) =>
      k <= n ->
      (length (fst (fst st)) = length Velocity /\
       forall d, d < k -> fst (fst st) !!! d = vel d) /\
      snd (fst st)
      = fold_left (fun acc d => (acc + vel d * vel d)%R) (seq 0 k) 0.0%R /\
      snd st
      = fold_left (fun acc d => (acc + vel d * UnitaryNormal !!! d)%R) (seq 0 k)
          0.0%R)); [lia | |].
    - intros _. cbn [fst snd seq fold_left]. repeat split. intros d Hd. lia.
    - intros k [[V V2] Vn] Hk IH Hk'.
      destruct (IH ltac:(lia)) as ((Hl & Hv) & Hq & Hvn).
      unfold body. cbn [fst snd] in *. rewrite length_insert.
      assert (Hk1 : <[k := vel k]> V !!! k = vel k)
        by (apply list_lookup_total_insert_eq; lia).
      split; [split; [exact Hl |] | split].
      + intros d Hd. destruct (decide (d = k)) as [->|Hne]; [exact Hk1 |].
        rewrite list_lookup_total_insert_ne by congruence. apply Hv. lia.
      + rewrite seq_S, fold_left_app. cbn [fold_left Nat.add].
        rewrite <- Hq. fold (vel k). rewrite Hk1. reflexivity.
      + rewrite seq_S, fold_left_app. cbn [fold_left Nat.add].
        rewrite <- Hvn. fold (vel k). rewrite Hk1. reflexivity. }
  destruct (H ltac:(lia)) as ((_ & H1) & H2 & H3).
  split; [exact H1 | split; [exact H2 | exact H3]].
Qed.

Section ExteriorStates.

Variable SetResidual_upwind : CNumerics -> CConfig -> UpwindFlux.
Variable SetResidual_discrete : CNumerics -> CConfig -> Block * Block.

(** X6: at an owned vertex of a compressible outlet where the interior flow
    is supersonic (the Mach number built from the interior state is at
    least 1), the exterior flow state handed to the flux routine is the
    interior state and the exterior adjoint state is zero. *)
Theorem X6_Outlet_supersonic (geometry : CGeometry) (flow : CFlowSolution)
    (config : CConfig) (RatioDensity : R) (val_marker iVertex : nat)
    (mem : BCArrays) (D0 : R) (num : CNumerics) (s : CAdjEulerSolution) :
  let vertex := (geo_vertex geometry !!! val_marker) !!! iVertex in
  let iPoint := vertex_Node vertex in
  let U :=
    vec_set_all (nVar s)
      (fun k _ => flow_Solution (flow_node flow !!! iPoint) !!! k) (bc_U_domain mem) in
  let rho := U !!! 0 in
  let vel := fun d => (U !!! (d+1)%nat / rho)%R in
  let q2 := fold_left (fun acc d => (acc + vel d * vel d)%R) (seq 0 (nDim s)) 0.0%R in
  let E := (U !!! (nVar s - 1)%nat / rho)%R in
  let p := (Gamma_Minus_One s * rho * (E - 0.5 * q2))%R in
  let Mach_Exit := (sqrt q2 / sqrt (Gamma s * p / rho))%R in
  let out := BC_Outlet_vertex SetResidual_upwind geometry flow config RatioDensity
               val_marker iVertex (mem, D0, num, s) in
  Domain (geo_node geometry !!! iPoint) = true ->
  Incompressible config = false ->
  nDim s <= length (bc_Velocity mem) ->
  (Mach_Exit >= 1.0)%R ->
  (forall v, v < nVar s -> v < length (bc_U_ext mem) ->
     num_U_j (snd (fst out)) !!! v = U !!! v /\
     num_U_i (snd (fst out)) !!! v = U !!! v) /\
  (forall v, v < nVar s -> v < length (bc_Psi_ext mem) ->
     num_Psi_j (snd (fst out)) !!! v = 0%R).
Proof.
  intros vertex iPoint U rho vel q2 E p Mach_Exit out HDom HInc HlenV HMach.
  set (Normal := outward_Normal (nDim s) vertex (bc_Normal mem)).
  set (n := vertex_UnitaryNormal (nDim s) Normal (bc_UnitaryNormal mem)).
  set (Psi := vec_set_all (nVar s) (fun k _ => Solution (node s !!! iPoint) !!! k)
                (bc_Psi_domain mem)).
  destruct (domain_velocity_normal_spec (nDim s) U n (bc_Velocity mem) HlenV)
    as (_ & Hq & _).
  fold rho in Hq. fold vel in Hq. fold q2 in Hq.
  assert (HO : Outlet_compressible geometry config s iPoint vertex
      (vertex_Area (nDim s) Normal) n U Psi (bc_Velocity mem) (bc_U_ext mem)
      (bc_Psi_ext mem)
    = (fst (fst (domain_velocity_normal (nDim s) U n (bc_Velocity mem))),
       fst (snd (for_loop 0 (nVar s) (fun iVar '(Uo, Po) =>
              (<[iVar := U !!! iVar]> Uo, <[iVar := 0.0%R]> Po))
              (bc_U_ext mem, bc_Psi_ext mem))),
       snd (snd (for_loop 0 (nVar s) (fun iVar '(Uo, Po) =>
              (<[iVar := U !!! iVar]> Uo, <[iVar := 0.0%R]> Po))
              (bc_U_ext mem, bc_Psi_ext mem))))).
  { unfold Outlet_compressible. cbv zeta. rewrite Hq.
    destruct (Rge_dec _ _) as [_|Hn]; [reflexivity |].
    exfalso. apply Hn. exact HMach. }
  destruct (pair_fill_loop (nVar s) (fun v => U !!! v) (fun _ => 0.0%R)
              (bc_U_ext mem) (bc_Psi_ext mem)) as [HU HP].
  assert (Hout : num_U_j (snd (fst out))
                 = fst (snd (for_loop 0 (nVar s) (fun iVar '(Uo, Po) =>
                     (<[iVar := U !!! iVar]> Uo, <[iVar := 0.0%R]> Po))
                     (bc_U_ext mem, bc_Psi_ext mem))) /\
                 num_U_i (snd (fst out)) = U /\
                 num_Psi_j (snd (fst out))
                 = snd (snd (for_loop 0 (nVar s) (fun iVar '(Uo, Po) =>
                     (<[iVar := U !!! iVar]> Uo, <[iVar := 0.0%R]> Po))
                     (bc_U_ext mem, bc_Psi_ext mem)))).
  { subst out. unfold BC_Outlet_vertex. fold vertex. fold iPoint.
    rewrite HDom, HInc. fold Normal. fold n. fold U. fold Psi. rewrite HO.
    repeat split. }
  destruct Hout as (H1 & H2 & H3). rewrite H1, H2, H3.
  split.
  - intros v Hv Hl. split; [apply HU; assumption | reflexivity].
  - intros v Hv Hl. rewrite (HP v Hv Hl). lra.
Qed.


(** X7: the density and the pressure that the incompressible outlet imposes.
    Without a level set they are the free-stream density and pressure. With
    a level set, inside the interface band (|LevelSet| <= epsilon) they are
    copied from the flow at the normal neighbour, and below the band
    (LevelSet < -epsilon, for a thickness that is not negative) the density
    is the free-stream density and the pressure is hydrostatic; in these
    three cases neither depends on the unassigned local RatioDensity nor on
    the previous content of Density_Outlet. *)
Theorem X7_Outlet_incompressible_density (geometry : CGeometry) (flow : CFlowSolution)
    (config : CConfig) (s : CAdjEulerSolution) (iPoint Point_Normal : nat)
    (RatioDensity D0 : R) (U_domain U_outlet Psi_outlet : list R) :
  let Height := Coord (geo_node geometry !!! iPoint) !!! (nDim s - 1) in
  let LevelSet := (Height - FreeSurface_Zero config)%R in
  let epsilon := FreeSurface_Thickness config in
  let out := Outlet_incompressible geometry flow config s iPoint Point_Normal
               RatioDensity D0 U_domain U_outlet Psi_outlet in
  0 < length U_outlet ->
  (is_levelset (Kind_Solver config) = false ->
   snd out = Density_Inf flow /\ fst (fst out) !!! 0 = Pressure_Inf flow) /\
  (is_levelset (Kind_Solver config) = true -> (Rabs LevelSet <= epsilon)%R ->
   snd out = DensityInc (flow_node flow !!! Point_Normal) /\
   fst (fst out) !!! 0 = flow_Solution (flow_node flow !!! Point_Normal) !!! 0) /\
  (is_levelset (Kind_Solver config) = true -> (LevelSet < - epsilon)%R ->
   (0 <= epsilon)%R ->
   snd out = Density_FreeStreamND config /\
   fst (fst out) !!! 0
   = (Pressure_Inf flow
      + Density_FreeStreamND config
        * ((FreeSurface_Zero config - Height) / (Froude config * Froude config)))%R).
Proof.
  intros Height LevelSet epsilon out Hlen. subst out.
  unfold Outlet_incompressible. fold Height. fold LevelSet. fold epsilon.
  split; [| split].
  - intros Hls. rewrite Hls. cbn [fst snd]. split; [reflexivity |].
    rewrite (insert_loop_keeps_0 (nDim s)
      (fun iDim _ => Solution (node s !!! Point_Normal) !!! (iDim+1))).
    apply list_lookup_total_insert_eq. exact Hlen.
  - intros Hls Hband. rewrite Hls.
    destruct (Rle_dec (Rabs LevelSet) epsilon) as [_|Hn]; [| contradiction].
    cbn [fst snd]. split; [reflexivity |].
    rewrite (insert_loop_keeps_0 (nDim s)
      (fun iDim _ => Solution (node s !!! Point_Normal) !!! (iDim+1))).
    apply list_lookup_total_insert_eq. rewrite length_insert. exact Hlen.
  - intros Hls Hbelow Heps. rewrite Hls.
    destruct (Rlt_dec LevelSet (- epsilon)) as [_|Hn]; [| contradiction].
    destruct (Rgt_dec LevelSet epsilon) as [Hgt|_]; [lra |].
    destruct (Rle_dec (Rabs LevelSet) epsilon) as [Hle|_].
    { exfalso. pose proof (Rle_abs (- LevelSet)) as Ha.
      rewrite Rabs_Ropp in Ha. lra. }
    cbn [fst snd]. split; [reflexivity |].
    rewrite (insert_loop_keeps_0 (nDim s)
      (fun iDim _ => Solution (node s !!! Point_Normal) !!! (iDim+1))).
    apply list_lookup_total_insert_eq. exact Hlen.
Qed.

(** X8: the rest of the incompressible outlet state. The momentum entries of
    the exterior flow state are filled from the adjoint state of the normal
    neighbour (node[Point_Normal], not the flow solution), the third exterior
    adjoint variable is zero, the second one is the second adjoint variable
    of the normal neighbour, and the first one is minus
    2*U_domain[1]/BetaInc2 times the second. *)
Theorem X8_Outlet_incompressible_state (geometry : CGeometry) (flow : CFlowSolution)
    (config : CConfig) (s : CAdjEulerSolution) (iPoint Point_Normal : nat)
    (RatioDensity D0 : R) (U_domain U_outlet Psi_outlet : list R) :
  let out := Outlet_incompressible geometry flow config s iPoint Point_Normal
               RatioDensity D0 U_domain U_outlet Psi_outlet in
  let Psi1 := Solution (node s !!! Point_Normal) !!! 1 in
  (forall d, d < nDim s -> d + 1 < length U_outlet ->
     fst (fst out) !!! (d + 1) = Solution (node s !!! Point_Normal) !!! (d + 1)) /\
  (3 <= length Psi_outlet ->
   snd (fst out) !!! 2 = 0%R /\ snd (fst out) !!! 1 = Psi1 /\
   snd (fst out) !!! 0
   = (- (2 * U_domain !!! 1%nat / BetaInc2 (flow_node flow !!! Point_Normal))
      * Psi1)%R).
Proof.
  intros out Psi1. subst out. unfold Outlet_incompressible.
  split.
  - intros d Hd Hl.
    destruct (is_levelset (Kind_Solver config)).
    + destruct (Rle_dec _ _); cbn [fst snd];
        apply (shifted_fill_loop (nDim s)
          (fun iDim => Solution (node s !!! Point_Normal) !!! (iDim+1)));
        rewrite ?length_insert; assumption.
    + cbn [fst snd].
      apply (shifted_fill_loop (nDim s)
        (fun iDim => Solution (node s !!! Point_Normal) !!! (iDim+1)));
        rewrite ?length_insert; assumption.
  - intros Hl.
    destruct (is_levelset (Kind_Solver config)); [destruct (Rle_dec _ _) |];
      cbn [fst snd];
      (split; [| split];
       [ rewrite !list_lookup_total_insert_ne by lia;
         rewrite list_lookup_total_insert_eq by lia; lra
       | rewrite list_lookup_total_insert_ne by lia;
         apply list_lookup_total_insert_eq; rewrite length_insert; lia
       | rewrite list_lookup_total_insert_eq by (rewrite !length_insert; lia);
         rewrite list_lookup_total_insert_eq by (rewrite length_insert; lia);
         replace 2.0%R with 2%R by lra; reflexivity ]).
Qed.

(** X9: the incompressible inlet state. The exterior pressure is the
    interior one, the momentum entries are the free-stream velocity times
    the interior density (with a level set the last of them is overwritten
    by the interior value), the exterior adjoint pressure is the interior
    one and the other exterior adjoint variables are zero. *)
Theorem X9_Inlet_incompressible_state (flow : CFlowSolution) (config : CConfig)
    (s : CAdjEulerSolution) (iPoint : nat) (U_inlet Psi_inlet : list R) :
  let out := Inlet_incompressible flow config s iPoint U_inlet Psi_inlet in
  let f := flow_node flow !!! iPoint in
  nDim s + 1 <= length U_inlet -> nDim s + 1 <= length Psi_inlet ->
  snd out = DensityInc f /\
  fst (fst out) !!! 0 = flow_Solution f !!! 0 /\
  (forall d, d < nDim s ->
     fst (fst out) !!! (d + 1)
     = if is_levelset (Kind_Solver config) && (d + 1 =? nDim s)
       then flow_Solution f !!! (nDim s)
       else (Velocity_Inf flow !!! d * DensityInc f)%R) /\
  snd (fst out) !!! 0 = Solution (node s !!! iPoint) !!! 0 /\
  (forall d, d < nDim s -> snd (fst out) !!! (d + 1) = 0%R).
Proof.
  intros out f HlU HlP. subst out. unfold Inlet_incompressible. fold f.
  cbn [fst snd].
  set (U1 := snd (for_loop 0 (nDim s) (fun iDim U =>
        <[iDim+1 := (Velocity_Inf flow !!! iDim * DensityInc f)%R]> U)
        (<[0 := flow_Solution f !!! 0]> U_inlet))).
  assert (HU1l : length U1 = length U_inlet).
  { unfold U1. apply (for_loop_preserves (fun U : list R => length U = length U_inlet)).
    - apply length_insert.
    - intros k U _ HU. rewrite length_insert. exact HU. }
  assert (HU10 : U1 !!! 0 = flow_Solution f !!! 0).
  { unfold U1. rewrite (insert_loop_keeps_0 (nDim s)
      (fun iDim _ => (Velocity_Inf flow !!! iDim * DensityInc f)%R)).
    apply list_lookup_total_insert_eq. lia. }
  assert (HU1d : forall d, d < nDim s ->
            U1 !!! (d + 1) = (Velocity_Inf flow !!! d * DensityInc f)%R).
  { intros d Hd. unfold U1.
    apply (shifted_fill_loop (nDim s)
      (fun iDim => (Velocity_Inf flow !!! iDim * DensityInc f)%R)); [exact Hd |].
    rewrite length_insert. lia. }
  split; [reflexivity |].
  split.
  { destruct (is_levelset (Kind_Solver config)); [| exact HU10].
    destruct (decide (nDim s = 0)) as [H0|H0].
    - rewrite H0. apply list_lookup_total_insert_eq. lia.
    - rewrite list_lookup_total_insert_ne by lia. exact HU10. }
  split.
  { intros d Hd.
    destruct (is_levelset (Kind_Solver config)); cbn [andb]; [| apply HU1d; exact Hd].
    destruct (Nat.eqb_spec (d + 1) (nDim s)) as [He|Hne].
    - rewrite He. apply list_lookup_total_insert_eq. lia.
    - rewrite list_lookup_total_insert_ne by lia. apply HU1d. exact Hd. }
  split.
  { rewrite (insert_loop_keeps_0 (nDim s) (fun _ _ => 0.0%R)).
    apply list_lookup_total_insert_eq. lia. }
  intros d Hd.
  rewrite (shifted_fill_loop (nDim s) (fun _ => 0.0%R)); [lra | exact Hd |].
  rewrite length_insert. lia.
Qed.

(** X10: the far field at an owned vertex. With a continuous adjoint the
    exterior adjoint state handed to the flux routine is zero, the interior
    one is the adjoint state of the node, and the residual the routine
    returns for the node is subtracted from the convective accumulator of
    that node, every other node being left alone. With a discrete adjoint no
    node is written and the first block the routine returns is subtracted
    from the diagonal block of the node. *)
Theorem X10_Far_Field_owned_vertex (geometry : CGeometry) (flow : CFlowSolution)
    (config : CConfig) (val_marker iVertex : nat) (mem : BCArrays)
    (num : CNumerics) (s : CAdjEulerSolution) :
  let iPoint := vertex_Node ((geo_vertex geometry !!! val_marker) !!! iVertex) in
  let out := BC_Far_Field_vertex SetResidual_upwind SetResidual_discrete geometry
               flow config val_marker iVertex (mem, num, s) in
  let num' := snd (fst out) in
  Domain (geo_node geometry !!! iPoint) = true ->
  iPoint < length (node s) ->
  (is_DISCRETE (Kind_Adjoint config) = false ->
   (forall v, v < nVar s -> v < length (bc_Psi_ext mem) ->
      num_Psi_j num' !!! v = 0%R) /\
   (forall v, v < nVar s -> v < length (bc_Psi_domain mem) ->
      num_Psi_i num' !!! v = Solution (node s !!! iPoint) !!! v) /\
   (forall v, v < nVar s -> v < length (Res_Conv (node s !!! iPoint)) ->
      Res_Conv (node (snd out) !!! iPoint) !!! v
      = (Res_Conv (node s !!! iPoint) !!! v
         - uf_Residual_i (SetResidual_upwind num' config) !!! v)%R) /\
   (forall q, q <> iPoint -> node (snd out) !!! q = node s !!! q)) /\
  (is_DISCRETE (Kind_Adjoint config) = true ->
   node (snd out) = node s /\
   Jacobian (snd out)
   = SubtractBlock iPoint iPoint (fst (SetResidual_discrete num' config))
       (Jacobian s)).
Proof.
  intros iPoint out num' HDom Hp. subst num' out.
  unfold BC_Far_Field_vertex. fold iPoint. rewrite HDom.
  split.
  - intros Hd. rewrite Hd. cbn [negb andb].
    destruct (pair_fill_loop (nVar s) (fun v => Solution (node s !!! iPoint) !!! v)
      (fun _ => 0%R) (bc_Psi_domain mem) (bc_Psi_ext mem)) as [HPd HPi].
    destruct (snd (for_loop 0 (nVar s) _ (bc_Psi_domain mem, bc_Psi_ext mem)))
      as [Pd Pi] eqn:EP.
    cbn [fst snd] in HPd, HPi.
    cbn [fst snd]. unfold boundary_numerics at 1 2. cbn [num_Psi_i num_Psi_j].
    split; [exact HPi |]. split; [exact HPd |].
    split.
    + intros v Hv Hl.
      destruct (is_EULER_IMPLICIT _ && true);
        cbn [node with_Jacobian at_node with_node];
        rewrite list_lookup_total_alter_eq by exact Hp;
        apply SubtractRes_Conv_lookup; assumption.
    + intros q Hq.
      destruct (is_EULER_IMPLICIT _ && true);
        cbn [node with_Jacobian at_node with_node];
        apply list_lookup_total_alter_ne; congruence.
  - intros Hd. rewrite Hd.
    destruct (SetResidual_discrete _ config) as [Ji Jj] eqn:EJ.
    cbn [fst snd node Jacobian with_Jacobian].
    split; [reflexivity | rewrite EJ; reflexivity].
Qed.

End ExteriorStates.

Lemma X6_witness :
  let flow := ex_supersonic_flow in
  let config := ex_config EULER_IMPLICIT CONTINUOUS ROE_1ST NONE LU_SGS in
  let s := ex_solution in
  let mem := ex_arrays in
  let U :=
    vec_set_all (nVar s)
      (fun k _ => flow_Solution (flow_node flow !!! 0) !!! k) (bc_U_domain mem) in
  let rho := U !!! 0 in
  let vel := fun d => (U !!! (d+1)%nat / rho)%R in
  let q2 := fold_left (fun acc d => (acc + vel d * vel d)%R) (seq 0 (nDim s)) 0.0%R in
  let E := (U !!! (nVar s - 1)%nat / rho)%R in
  let p := (Gamma_Minus_One s * rho * (E - 0.5 * q2))%R in
  (Domain (geo_node ex_outlet_geometry !!! 0) = true /\
   Incompressible config = false /\
   nDim s <= length (bc_Velocity mem) /\
   (sqrt q2 / sqrt (Gamma s * p / rho) >= 1.0)%R) /\
  num_Psi_j (snd (fst (BC_Outlet_vertex ex_SetResidual_upwind ex_outlet_geometry
     flow config 0%R 0 0 (mem, 0%R, ex_numerics, s)))) !!! 3 = 0%R.
Proof.
  cbv zeta.
  assert (HMach :
    (sqrt (fold_left (fun acc d =>
        (acc + ([1; 3; 0; 5]%R !!! (d+1)%nat / [1; 3; 0; 5]%R !!! 0%nat)
               * ([1; 3; 0; 5]%R !!! (d+1)%nat / [1; 3; 0; 5]%R !!! 0%nat))%R)
        (seq 0 (nDim ex_solution)) 0.0%R)
     / sqrt (Gamma ex_solution
             * (Gamma_Minus_One ex_solution * [1; 3; 0; 5]%R !!! 0%nat
                * ([1; 3; 0; 5]%R !!! (nVar ex_solution - 1)%nat
                   / [1; 3; 0; 5]%R !!! 0%nat
                   - 0.5 * fold_left (fun acc d =>
                       (acc + ([1; 3; 0; 5]%R !!! (d+1)%nat / [1; 3; 0; 5]%R !!! 0%nat)
                              * ([1; 3; 0; 5]%R !!! (d+1)%nat
                                 / [1; 3; 0; 5]%R !!! 0%nat))%R)
                       (seq 0 (nDim ex_solution)) 0.0%R))
             / [1; 3; 0; 5]%R !!! 0%nat) >= 1.0)%R).
  { change (sqrt (0.0 + 3 / 1 * (3 / 1) + 0 / 1 * (0 / 1))
            / sqrt (2 * (1 * 1 * (5 / 1
                                  - 0.5 * (0.0 + 3 / 1 * (3 / 1) + 0 / 1 * (0 / 1))))
                    / 1) >= 1.0)%R.
    replace (0.0 + 3 / 1 * (3 / 1) + 0 / 1 * (0 / 1))%R with (3 * 3)%R by lra.
    replace (2 * (1 * 1 * (5 / 1 - 0.5 * (3 * 3))) / 1)%R with 1%R by lra.
    rewrite sqrt_square by lra. rewrite sqrt_1. lra. }
  split.
  - repeat split; [simpl; lia | exact HMach].
  - destruct (X6_Outlet_supersonic ex_SetResidual_upwind ex_outlet_geometry
      ex_supersonic_flow (ex_config EULER_IMPLICIT CONTINUOUS ROE_1ST NONE LU_SGS)
      0%R 0 0 ex_arrays 0%R ex_numerics ex_solution eq_refl eq_refl
      ltac:(simpl; lia) HMach) as [_ HPsi].
    apply (HPsi 3); simpl; lia.
Defined.

Lemma X7_witness :
  let config := ex_config EULER_IMPLICIT CONTINUOUS ROE_1ST NONE LU_SGS in
  (0 < length [7; 7; 7]%R /\ is_levelset (Kind_Solver config) = false) /\
  snd (Outlet_incompressible ex_outlet_geometry ex_flow config ex_solution 0 1
         5%R 6%R [1; 1; 0]%R [7; 7; 7]%R [7; 7; 7]%R)
  = Density_Inf ex_flow.
Proof.
  cbv zeta. split; [split; [simpl; lia | reflexivity] |].
  destruct (X7_Outlet_incompressible_density ex_outlet_geometry ex_flow
    (ex_config EULER_IMPLICIT CONTINUOUS ROE_1ST NONE LU_SGS) ex_solution 0 1
    5%R 6%R [1; 1; 0]%R [7; 7; 7]%R [7; 7; 7]%R) as (H & _); [simpl; lia |].
  apply (H eq_refl).
Defined.

Lemma X8_witness :
  let config := ex_config EULER_IMPLICIT CONTINUOUS ROE_1ST NONE LU_SGS in
  3 <= length [7; 7; 7]%R /\
  snd (fst (Outlet_incompressible ex_outlet_geometry ex_flow config ex_solution 0 1
              5%R 6%R [1; 1; 0]%R [7; 7; 7]%R [7; 7; 7]%R)) !!! 1
  = Solution (node ex_solution !!! 1) !!! 1.
Proof.
  cbv zeta. split; [simpl; lia |].
  destruct (X8_Outlet_incompressible_state ex_outlet_geometry ex_flow
    (ex_config EULER_IMPLICIT CONTINUOUS ROE_1ST NONE LU_SGS) ex_solution 0 1
    5%R 6%R [1; 1; 0]%R [7; 7; 7]%R [7; 7; 7]%R) as (_ & H).
  apply H. simpl. lia.
Defined.

Lemma X9_witness :
  let config := ex_config EULER_IMPLICIT CONTINUOUS ROE_1ST NONE LU_SGS in
  (nDim ex_solution + 1 <= length [9; 9; 9]%R /\ 1 < nDim ex_solution) /\
  fst (fst (Inlet_incompressible ex_flow config ex_solution 0
              [9; 9; 9]%R [9; 9; 9]%R)) !!! (1 + 1)
  = (Velocity_Inf ex_flow !!! 1%nat * DensityInc (flow_node ex_flow !!! 0%nat))%R.
Proof.
  cbv zeta. split; [split; simpl; lia |].
  destruct (X9_Inlet_incompressible_state ex_flow
    (ex_config EULER_IMPLICIT CONTINUOUS ROE_1ST NONE LU_SGS) ex_solution 0
    [9; 9; 9]%R [9; 9; 9]%R) as (_ & _ & H & _); [simpl; lia | simpl; lia |].
  apply (H 1). simpl. lia.
Defined.

Lemma X10_witness :
  let config := ex_config EULER_EXPLICIT CONTINUOUS ROE_1ST NONE LU_SGS in
  let p := vertex_Node ((geo_vertex ex_outlet_geometry !!! 0) !!! 0) in
  (Domain (geo_node ex_outlet_geometry !!! p) = true /\
   p < length (node ex_solution) /\
   is_DISCRETE (Kind_Adjoint config) = false /\
   0 < nVar ex_solution /\ 0 < length (Res_Conv (node ex_solution !!! p))) /\
  Res_Conv (node (snd (BC_Far_Field_vertex ex_SetResidual_upwind
     ex_SetResidual_discrete ex_outlet_geometry ex_flow config 0 0
     (ex_arrays, ex_numerics, ex_solution))) !!! p) !!! 0
  = (1 - 1)%R.
Proof.
  cbv zeta. split; [repeat split; simpl; lia |].
  destruct (X10_Far_Field_owned_vertex ex_SetResidual_upwind ex_SetResidual_discrete
    ex_outlet_geometry ex_flow
    (ex_config EULER_EXPLICIT CONTINUOUS ROE_1ST NONE LU_SGS) 0 0
    ex_arrays ex_numerics ex_solution eq_refl) as (H & _); [simpl; lia |].
  destruct (H eq_refl) as (_ & _ & HR & _).
  apply (HR 0); simpl; lia.
Defined.
